(** * tinybuf: the type-and-codec engine, embedded and verified

    A shallow embedding of [builtin_types.py] and [user_types.py].

    - A Python [int] is a [Z]; a byte is an [int] between 0 and 255.
    - A Python [str] is the list of its code points ([str]).
    - A byte stream is an iterator: the list of the items it has not
      handed out yet.  A read takes the stream and gives back the value
      together with what is left of the stream, or the exception raised.
    - [to_bytes] is a generator: the bytes it yields, in order, followed
      by the exception that ends it, if any ([gen]).
    - Exceptions are those of Python 3.7 and later, where a
      [StopIteration] raised inside a generator becomes a
      [RuntimeError]. *)

From Stdlib Require Import ZArith List Bool Lia Ascii String.
From stdpp Require Import base gmap sets list.
From Equations Require Import Equations.
Import ListNotations.

Local Open Scope Z_scope.
#[local] Set Warnings "-clear-no-such-hyp".

(** ** Python strings *)

(** A [str] is a sequence of code points. *)
Abbreviation str := (list Z).

(** The [str] of an ASCII literal. *)
Definition lit (s : string) : str :=
  List.map (fun a => Z.of_N (N_of_ascii a)) (list_ascii_of_string s).

(** ** Exceptions and results *)

Inductive exn : Type :=
| TypeError
| AttributeError
| RuntimeError                        (* StopIteration inside a generator *)
| UnicodeEncodeError
| UnicodeDecodeError
| ValueError                          (* bytes(), int(), unpacking *)
| ValueError_type_not_found (value_type : str)
| ValueError_unfilled (names : gset (list Z))
| KeyError (name : str)
| KeyError_no_type_information (key : Z)
| NotModelled.                        (* no exception: outside the model *)

Inductive result (A : Type) : Type :=
| Ok (a : A)
| Raise (e : exn).
Arguments Ok {A} a.
Arguments Raise {A} e.

(** Exceptions propagate: [x ← r; k] runs [k] on the value of [r], and
    raises what [r] raises. *)
#[export] Instance result_bind : MBind result := λ A B k r,
  match r with
  | Ok a => k a
  | Raise e => Raise e
  end.
#[export] Instance result_ret : MRet result := λ A a, Ok a.

(** ** Generators *)

(** What a generator does when it is run to its end: the items it yields
    and, when it does not return normally, the exception that ends it. *)
Record gen : Type := Gen { yielded : list Z; raised : option exn }.

Definition yield_all (bs : list Z) : gen := Gen bs None.
Definition raise (e : exn) : gen := Gen [] (Some e).

(** [yield from g1] followed by the rest of the body, [g2]. *)
Definition then_ (g1 g2 : gen) : gen :=
  match raised g1 with
  | Some e => g1
  | None => Gen (yielded g1 ++ yielded g2) (raised g2)
  end.
Infix ";;;" := then_ (at level 62, right associativity).

(** An item in [range(256)]. *)
Definition is_byte (b : Z) : bool := (0 <=? b) && (b <? 256).

(** [bytes(g)]: the byte string of everything [g] yields; no byte string
    when [g] yields an item outside [range(256)], or raises. *)
Definition bytes (g : gen) : result (list Z) :=
  match List.find (fun b => negb (is_byte b)) (yielded g), raised g with
  | Some _, _ => Raise ValueError
  | None, Some e => Raise e
  | None, None => Ok (yielded g)
  end.

(** ** UnsignedInt *)

(** [UnsignedInt.to_bytes(n)].  The loop body runs once more while the
    shifted [n] is positive; a negative [n] leaves the loop after one
    byte, its continuation bit set. *)
Equations? UnsignedInt_to_bytes (n : Z) : list Z by wf (Z.to_nat n) lt :=
UnsignedInt_to_bytes n with Z_lt_dec 0 (Z.shiftr n 7) := {
  | left _ =>
      Z.lor (Z.land n 127) 128 :: UnsignedInt_to_bytes (Z.shiftr n 7)
  | right _ =>
      if Z.shiftr n 7 =? 0 then [Z.land n 127]
      else [Z.lor (Z.land n 127) 128] }.
Proof.
  rewrite Z.shiftr_div_pow2 in * by lia.
  change (2 ^ 7) with 128 in *.
  assert (0 < n) by (destruct (Z_lt_dec 0 n); [lia|];
    assert (n / 128 <= 0) by (apply Z.div_le_upper_bound; lia); lia).
  assert (n / 128 < n) by (apply Z.div_lt; lia). lia.
Qed.

(** A byte stream: the items the iterator has not handed out yet. *)
Abbreviation stream := (list Z).

(** What a [read] gives: the value and the stream after it, or the
    exception it raises. *)
Abbreviation reading A := (result (A * stream)).

(** The [for byte in bytestream] loop of [UnsignedInt.read], from the
    running [number] and [offset].  When the iterator is exhausted the
    loop ends like any [for] loop, and the function returns [number]. *)
Fixpoint UnsignedInt_read_loop (bytestream : stream) (number offset : Z)
  : Z * stream :=
  match bytestream with
  | [] => (number, [])
  | byte :: bytestream =>
      let should_read_more := Z.land byte 128 in
      let number := Z.lor number (Z.shiftl (Z.land byte 127) offset) in
      let offset := offset + 7 in
      if should_read_more =? 0 then (number, bytestream)
      else UnsignedInt_read_loop bytestream number offset
  end.

Definition UnsignedInt_read (bytestream : stream) : reading Z :=
  Ok (UnsignedInt_read_loop bytestream 0 0).

(** The continuation bit of a byte is set. *)
Definition continues (byte : Z) : bool := negb (Z.land byte 128 =? 0).

(** The number whose 7-bit groups, lowest first from [offset], are the
    low seven bits of each byte. *)
Fixpoint groups_value (bytestream : list Z) (offset : Z) : Z :=
  match bytestream with
  | [] => 0
  | byte :: bytestream =>
      Z.lor (Z.shiftl (Z.land byte 127) offset)
            (groups_value bytestream (offset + 7))
  end.

(** ** Boolean *)

(** [int(boolean)] *)
Definition int_of_bool (b : bool) : Z := if b then 1 else 0.

Definition Boolean_to_bytes (boolean : bool) : list Z :=
  UnsignedInt_to_bytes (int_of_bool boolean).

Definition Boolean_read (bytestream : stream) : reading bool :=
  '(n, bytestream) ← UnsignedInt_read bytestream;
  Ok (negb (n =? 0), bytestream).

(** ** SignedInt *)

Definition SignedInt_to_bytes (n : Z) : list Z :=
  Boolean_to_bytes (0 <=? n) ++ UnsignedInt_to_bytes (Z.abs n).

Definition SignedInt_read (bytestream : stream) : reading Z :=
  '(positive, bytestream) ← Boolean_read bytestream;
  '(value, bytestream) ← UnsignedInt_read bytestream;
  Ok (if (positive : bool) then value else value * -1, bytestream).

(** ** UTF-8 *)

(** The items of a [str] are code points; the ones UTF-8 encodes are the
    Unicode scalar values, every code point but the surrogates. *)
Definition is_surrogate (c : Z) : bool := (0xD800 <=? c) && (c <=? 0xDFFF).
Definition is_scalar_value (c : Z) : bool :=
  (0 <=? c) && (c <=? 0x10FFFF) && negb (is_surrogate c).

Definition utf8_char (c : Z) : list Z :=
  if c <? 0x80 then [c]
  else if c <? 0x800 then [0xC0 + c / 64; 0x80 + c mod 64]
  else if c <? 0x10000 then
    [0xE0 + c / 4096; 0x80 + (c / 64) mod 64; 0x80 + c mod 64]
  else
    [0xF0 + c / 262144; 0x80 + (c / 4096) mod 64;
     0x80 + (c / 64) mod 64; 0x80 + c mod 64].

(** [text.encode("utf-8")], strict as Python's default is: a surrogate
    raises [UnicodeEncodeError]. *)
Definition str_encode (text : str) : result (list Z) :=
  if forallb is_scalar_value text then Ok (concat (List.map utf8_char text))
  else Raise UnicodeEncodeError.

Definition is_continuation (b : Z) : bool := (0x80 <=? b) && (b <=? 0xBF).

(** [encoded.decode("utf-8")], strict: only the shortest form of a scalar
    value is accepted. *)
Fixpoint bytes_decode (encoded : list Z) : result str :=
  match encoded with
  | [] => Ok []
  | b0 :: bs1 =>
      if (0 <=? b0) && (b0 <? 0x80) then
        text ← bytes_decode bs1; Ok (b0 :: text)
      else if (0xC2 <=? b0) && (b0 <=? 0xDF) then
        match bs1 with
        | b1 :: bs2 =>
            if is_continuation b1 then
              text ← bytes_decode bs2;
              Ok ((b0 - 0xC0) * 64 + (b1 - 0x80) :: text)
            else Raise UnicodeDecodeError
        | _ => Raise UnicodeDecodeError
        end
      else if (0xE0 <=? b0) && (b0 <=? 0xEF) then
        match bs1 with
        | b1 :: b2 :: bs3 =>
            let c := (b0 - 0xE0) * 4096 + (b1 - 0x80) * 64 + (b2 - 0x80) in
            if is_continuation b1 && is_continuation b2
               && (0x800 <=? c) && negb (is_surrogate c) then
              text ← bytes_decode bs3; Ok (c :: text)
            else Raise UnicodeDecodeError
        | _ => Raise UnicodeDecodeError
        end
      else if (0xF0 <=? b0) && (b0 <=? 0xF4) then
        match bs1 with
        | b1 :: b2 :: b3 :: bs4 =>
            let c := (b0 - 0xF0) * 262144 + (b1 - 0x80) * 4096
                     + (b2 - 0x80) * 64 + (b3 - 0x80) in
            if is_continuation b1 && is_continuation b2 && is_continuation b3
               && (0x10000 <=? c) && (c <=? 0x10FFFF) then
              text ← bytes_decode bs4; Ok (c :: text)
            else Raise UnicodeDecodeError
        | _ => Raise UnicodeDecodeError
        end
      else Raise UnicodeDecodeError
  end.

(** ** String *)

Definition String_to_bytes (text : str) : gen :=
  match str_encode text with
  | Raise e => raise e
  | Ok encoded =>
      yield_all (UnsignedInt_to_bytes (Z.of_nat (length encoded)) ++ encoded)
  end.

(** The generator [read_n_bytes(n, bytestream)], and the stream it leaves.
    [next] on an exhausted iterator raises [StopIteration], which ends a
    generator with [RuntimeError]. *)
Fixpoint String_read_n_bytes (n : nat) (bytestream : stream) : gen * stream :=
  match n with
  | O => (yield_all [], bytestream)
  | S n =>
      match bytestream with
      | [] => (raise RuntimeError, [])
      | b :: bytestream =>
          let '(g, bytestream) := String_read_n_bytes n bytestream in
          (yield_all [b] ;;; g, bytestream)
      end
  end.

Definition String_read (bytestream : stream) : reading str :=
  '(length, bytestream) ← UnsignedInt_read bytestream;
  let '(g, bytestream) := String_read_n_bytes (Z.to_nat length) bytestream in
  encoded ← bytes g;
  text ← bytes_decode encoded;
  Ok (text, bytestream).

(** ** Values and type descriptors *)

#[local] Set Warnings "-register-all".

(** The Python values the codecs handle: [None], [bool], [int], [str],
    [list], [dict] (its items in insertion order) and the instances of the
    classes [make_user_type] creates, with their [_name] and [_records].

    Where the model stops: a [UserType] instance is no more than these two
    attributes.  [Map.__call__] passes the records as keyword arguments and
    [__init__] sets each as an attribute: [Map_call] says what becomes of
    a field named [self], or named as an attribute the instance has
    already. *)
Inductive value : Type :=
| VNone
| VBool (b : bool)
| VInt (n : Z)
| VStr (text : str)
| VList (values : list value)
| VDict (items : list (str * value))
| VUser (_name : option str) (_records : list (str * value)).

(** [MapEntrySpec = namedtuple("EntrySpec", "key name value_type")] *)
Record EntrySpec (T : Type) : Type :=
  MapEntrySpec { spec_key : Z; spec_name : str; spec_value_type : T }.
Arguments MapEntrySpec {T} _ _ _.
Arguments spec_key {T} _.
Arguments spec_name {T} _.
Arguments spec_value_type {T} _.

(** The type objects: the four classes used as they are, and the
    instances of [List], [Optional] and [Map]. *)
Inductive BuiltinType : Type :=
| UnsignedInt
| SignedInt
| Boolean
| String
| List (inner_type : BuiltinType)
| Optional (inner_type : BuiltinType)
| Map (entry_specs : list (EntrySpec BuiltinType)) (name : option str).

(** *** Dictionaries *)

(** [d[name]], when there is one *)
Fixpoint dict_get {A} (d : list (str * A)) (name : str) : option A :=
  match d with
  | [] => None
  | (k, v) :: d => if decide (k = name) then Some v else dict_get d name
  end.

(** [d[name] = value]: a name already there keeps its place. *)
Fixpoint dict_set (d : list (str * value)) (name : str) (v : value)
  : list (str * value) :=
  match d with
  | [] => [(name, v)]
  | (k, w) :: d =>
      if decide (k = name) then (k, v) :: d else (k, w) :: dict_set d name v
  end.

(** *** Equality *)

(** Two lists of one length, equal item by item. *)
Fixpoint all2 {A B} (f : A -> B -> bool) (xs : list A) (ys : list B) : bool :=
  match xs, ys with
  | [], [] => true
  | x :: xs, y :: ys => f x y && all2 f xs ys
  | _, _ => false
  end.

(** [a == b] is [True].  Lists are equal item by item; dictionaries when
    they have the same names with equal values, in whatever order;
    [UserType.__eq__] compares [_records] with a [dict] or with the
    [_records] of the other.  ([False] and the [AttributeError] of a
    record instance compared with another kind of value both give
    [false]; the answer is the same whichever side is asked first.) *)
Fixpoint py_eq (a b : value) {struct a} : bool :=
  match a, b with
  | VNone, VNone => true
  | VBool x, VBool y => bool_decide (x = y)
  | VBool x, VInt n | VInt n, VBool x => bool_decide (int_of_bool x = n)
  | VInt m, VInt n => bool_decide (m = n)
  | VStr s, VStr t => bool_decide (s = t)
  | VList xs, VList ys => all2 py_eq xs ys
  | (VDict ra | VUser _ ra), (VDict rb | VUser _ rb) =>
      (length ra =? length rb)%nat
      && forallb (fun kv =>
           match dict_get rb kv.1 with
           | Some w => py_eq kv.2 w
           | None => false
           end) ra
  | _, _ => false
  end.

(** ** [str] methods and [int] *)

(** [c.isspace()] *)
Definition is_space (c : Z) : bool :=
  ((9 <=? c) && (c <=? 13)) || ((28 <=? c) && (c <=? 32))
  || (c =? 0x85) || (c =? 0xA0) || (c =? 0x1680)
  || ((0x2000 <=? c) && (c <=? 0x200A))
  || (c =? 0x2028) || (c =? 0x2029) || (c =? 0x202F) || (c =? 0x205F)
  || (c =? 0x3000).

Definition is_ascii (c : Z) : bool := (0 <=? c) && (c <? 128).

Definition is_digit (c : Z) : bool := (48 <=? c) && (c <=? 57).

(** What is left of [text] after the characters [blank] at its start,
    and at both ends. *)
Fixpoint lstrip_of (blank : Z -> bool) (text : str) : str :=
  match text with
  | c :: rest => if blank c then lstrip_of blank rest else text
  | [] => []
  end.
Definition strip_of (blank : Z -> bool) (text : str) : str :=
  rev (lstrip_of blank (rev (lstrip_of blank text))).

(** [text.strip()] *)
Definition strip (text : str) : str := strip_of is_space text.

(** The digits of a literal after its first: [acc] is the number so far,
    [after_digit] whether the last character was a digit. *)
Fixpoint digits_value (text : str) (acc : Z) (after_digit : bool)
  : option Z :=
  match text with
  | [] => if after_digit then Some acc else None
  | c :: text =>
      if is_digit c then digits_value text (10 * acc + (c - 48)) true
      else if (c =? 95) && after_digit then digits_value text acc false
      else None
  end.

(** [int(text)] for a [str]: blanks around (the blanks of ASCII but the
    separators 28 to 31, and the blanks beyond ASCII), a sign, and
    digits, single underscores allowed between them.  Python also reads
    the decimal digits of other scripts: a text with a character beyond
    ASCII that is not a blank is left out of the model. *)
Definition int_of_str (text : str) : result Z :=
  let unsigned (digits : str) :=
    match digits with
    | c :: _ => if is_digit c then digits_value digits 0 false else None
    | [] => None
    end in
  let blank c := is_space c && negb ((28 <=? c) && (c <=? 31)) in
  if forallb (fun c => is_ascii c || is_space c) text then
    let n :=
      match strip_of blank text with
      | 43 :: digits => unsigned digits
      | 45 :: digits => Z.opp <$> unsigned digits
      | digits => unsigned digits
      end in
    match n with
    | Some n => Ok n
    | None => Raise ValueError
    end
  else Raise NotModelled.

(** ** The codecs, by type object *)

(** [len(values)] and [for value in values], for what has them. *)
Definition iter_values (v : value) : option (list value) :=
  match v with
  | VList values => Some values
  | VStr text => Some (List.map (fun c => VStr [c]) text)
  | VDict items => Some (List.map (fun kv => VStr (fst kv)) items)
  | _ => None
  end.

(** An [int], [bool] being a subclass of it. *)
Definition as_int (v : value) : option Z :=
  match v with
  | VInt n => Some n
  | VBool b => Some (int_of_bool b)
  | _ => None
  end.

(** [value if type(value) == dict else value._records] *)
Definition records_of (v : value) : result (list (str * value)) :=
  match v with
  | VDict items => Ok items
  | VUser _ _records => Ok _records
  | _ => Raise AttributeError
  end.

(** [for value in values: yield from inner_to_bytes(value)] *)
Fixpoint List_to_bytes_loop (inner_to_bytes : value -> gen)
  (values : list value) : gen :=
  match values with
  | [] => yield_all []
  | v :: values =>
      inner_to_bytes v ;;; List_to_bytes_loop inner_to_bytes values
  end.

Definition symmetric_difference (a b : gset str) : gset str :=
  (a ∖ b) ∪ (b ∖ a).

(** An entry spec as [Map.to_bytes] uses it: its key and the [to_bytes]
    of its value type. *)
Abbreviation spec_to_bytes := (Z * (value -> gen))%type.

(** [{spec.name: spec for spec in self.entry_specs}]: of two specs with
    one name the later stays. *)
Definition specs_by_name_of (specs : list (str * spec_to_bytes))
  : gmap str spec_to_bytes :=
  foldl (fun m spec => <[spec.1 := spec.2]> m) ∅ specs.

(** The loop of [Map.to_bytes] over [value.items()], and the check that
    follows it. *)
Fixpoint Map_to_bytes_loop (specs_by_name : gmap str spec_to_bytes)
  (items : list (str * value)) (seen_keys : gset str) : gen :=
  match items with
  | [] =>
      let unfilled := symmetric_difference seen_keys (dom specs_by_name) in
      if decide (unfilled = ∅) then yield_all []
      else raise (ValueError_unfilled unfilled)
  | (name, inner_value) :: items =>
      match specs_by_name !! name with
      | None => raise (KeyError name)
      | Some (key, value_type_to_bytes) =>
          yield_all (UnsignedInt_to_bytes key) ;;;
          value_type_to_bytes inner_value ;;;
          Map_to_bytes_loop specs_by_name items ({[name]} ∪ seen_keys)
      end
  end.

Definition Map_to_bytes_with (specs : list (str * spec_to_bytes))
  (v : value) : gen :=
  match records_of v with
  | Raise e => raise e
  | Ok items =>
      let specs_by_name := specs_by_name_of specs in
      yield_all (UnsignedInt_to_bytes (Z.of_nat (length items))) ;;;
      Map_to_bytes_loop specs_by_name items ∅
  end.

(** [int(boolean)] in [Boolean.to_bytes] *)
Definition int_of_value (v : value) : result Z :=
  match v with
  | VInt n => Ok n
  | VBool b => Ok (int_of_bool b)
  | VStr text => int_of_str text
  | _ => Raise TypeError
  end.

(** [self.to_bytes(value)], for the type object [self]. *)
Fixpoint to_bytes (self : BuiltinType) (v : value) {struct self} : gen :=
  match self with
  | UnsignedInt =>
      match as_int v with
      | Some n => yield_all (UnsignedInt_to_bytes n)
      | None => raise TypeError
      end
  | SignedInt =>
      match as_int v with
      | Some n => yield_all (SignedInt_to_bytes n)
      | None => raise TypeError
      end
  | Boolean =>
      match int_of_value v with
      | Ok n => yield_all (UnsignedInt_to_bytes n)
      | Raise e => raise e
      end
  | String =>
      match v with
      | VStr text => String_to_bytes text
      | _ => raise AttributeError
      end
  | List inner_type =>
      match iter_values v with
      | Some values =>
          yield_all (UnsignedInt_to_bytes (Z.of_nat (length values))) ;;;
          List_to_bytes_loop (to_bytes inner_type) values
      | None => raise TypeError
      end
  | Optional inner_type =>
      match v with
      | VNone => yield_all (Boolean_to_bytes false)
      | _ => yield_all (Boolean_to_bytes true) ;;; to_bytes inner_type v
      end
  | Map entry_specs _ =>
      Map_to_bytes_with
        (List.map (fun spec =>
           (spec_name spec, (spec_key spec, to_bytes (spec_value_type spec))))
           entry_specs) v
  end.

(** [for _ in range(length): values.append(inner_read(bytestream))] *)
Fixpoint List_read_loop (inner_read : stream -> reading value)
  (length : nat) (bytestream : stream) : reading (list value) :=
  match length with
  | O => Ok ([], bytestream)
  | S length =>
      '(v, bytestream) ← inner_read bytestream;
      '(values, bytestream) ← List_read_loop inner_read length bytestream;
      Ok (v :: values, bytestream)
  end.

(** An entry spec as [Map.read_key] uses it: its key, its name and the
    [read] of its value type. *)
Abbreviation spec_read := (Z * (str * (stream -> reading value)))%type.

(** [read_key]: the first entry spec with this key reads the value;
    [KeyError] when the [for] loop ends without one. *)
Fixpoint Map_read_key_with (specs : list spec_read) (key : Z)
  (bytestream : stream) : reading (str * value) :=
  match specs with
  | [] => Raise (KeyError_no_type_information key)
  | (entry_key, (entry_name, value_type_read)) :: specs =>
      if decide (entry_key = key) then
        '(v, bytestream) ← value_type_read bytestream;
        Ok ((entry_name, v), bytestream)
      else Map_read_key_with specs key bytestream
  end.

(** The loop of [read_as_dict], [number_entries] times from [map_data]. *)
Fixpoint Map_read_entries (specs : list spec_read) (number_entries : nat)
  (bytestream : stream) (map_data : list (str * value))
  : reading (list (str * value)) :=
  match number_entries with
  | O => Ok (map_data, bytestream)
  | S number_entries =>
      '(key, bytestream) ← UnsignedInt_read bytestream;
      '(kv, bytestream) ← Map_read_key_with specs key bytestream;
      Map_read_entries specs number_entries bytestream
        (dict_set map_data kv.1 kv.2)
  end.

Definition Map_read_as_dict_with (specs : list spec_read)
  (bytestream : stream) : reading (list (str * value)) :=
  '(number_entries, bytestream) ← UnsignedInt_read bytestream;
  Map_read_entries specs (Z.to_nat number_entries) bytestream [].

(** [setattr(self, k, v)] in [UserType.__init__], on an instance that
    has its [_name] and its [_records].  An attribute of the field's name
    is set, which no code here reads, but for the names that are taken:
    [__class__] takes classes only and [__dict__] dictionaries only,
    [__weakref__] cannot be written, and [_name], [_records] and
    [to_bytes] (and [__dict__], given a dictionary) replace what the
    instance has under these names, which leaves an object that is no
    instance as the model has them. *)
Definition setattr (k : str) (v : value) : result unit :=
  if decide (k = lit "__class__") then Raise TypeError
  else if decide (k = lit "__weakref__") then Raise AttributeError
  else if decide (k = lit "__dict__") then
    match v with
    | VDict _ => Raise NotModelled
    | _ => Raise TypeError
    end
  else if bool_decide (k ∈ [lit "_name"; lit "_records"; lit "to_bytes"])
  then Raise NotModelled
  else Ok ().

(** [for (k, v) in records.items(): setattr(self, k, v)] *)
Fixpoint setattr_all (records : list (str * value)) : result unit :=
  match records with
  | [] => Ok ()
  | (k, v) :: records => _ ← setattr k v; setattr_all records
  end.

(** [UserType.__init__(self, **records)], for the class made with
    [type_name]. *)
Definition UserType_init (type_name : option str)
  (records : list (str * value)) : result value :=
  _ ← setattr_all records; Ok (VUser type_name records).

(** [Map.__call__(self, **kwargs)]: the instance, made from the keyword
    arguments, of the user type named [self.name].  A keyword [self] is
    a second value for the parameter [self]: [TypeError], before the
    class is made. *)
Definition Map_call (name : option str) (kwargs : list (str * value))
  : result value :=
  if bool_decide (lit "self" ∈ List.map fst kwargs) then Raise TypeError
  else UserType_init name kwargs.

(** [self.read(bytestream)], for the type object [self]. *)
Fixpoint read (self : BuiltinType) (bytestream : stream) {struct self}
  : reading value :=
  match self with
  | UnsignedInt =>
      '(n, bytestream) ← UnsignedInt_read bytestream; Ok (VInt n, bytestream)
  | SignedInt =>
      '(n, bytestream) ← SignedInt_read bytestream; Ok (VInt n, bytestream)
  | Boolean =>
      '(b, bytestream) ← Boolean_read bytestream; Ok (VBool b, bytestream)
  | String =>
      '(text, bytestream) ← String_read bytestream;
      Ok (VStr text, bytestream)
  | List inner_type =>
      '(length, bytestream) ← UnsignedInt_read bytestream;
      '(values, bytestream) ←
        List_read_loop (read inner_type) (Z.to_nat length) bytestream;
      Ok (VList values, bytestream)
  | Optional inner_type =>
      '(has_value, bytestream) ← Boolean_read bytestream;
      if (has_value : bool) then read inner_type bytestream
      else Ok (VNone, bytestream)
  | Map entry_specs name =>
      '(map_data, bytestream) ←
        Map_read_as_dict_with
          (List.map (fun spec =>
             (spec_key spec, (spec_name spec, read (spec_value_type spec))))
             entry_specs) bytestream;
      instance ← Map_call name map_data;
      Ok (instance, bytestream)
  end.

(** The entry specs with the [read], and with the [to_bytes], of their
    value types. *)
Definition specs_with_read (entry_specs : list (EntrySpec BuiltinType))
  : list spec_read :=
  List.map (fun spec =>
    (spec_key spec, (spec_name spec, read (spec_value_type spec))))
    entry_specs.

Definition specs_with_to_bytes (entry_specs : list (EntrySpec BuiltinType))
  : list (str * spec_to_bytes) :=
  List.map (fun spec =>
    (spec_name spec, (spec_key spec, to_bytes (spec_value_type spec))))
    entry_specs.

(** [to_bytes], [read_as_dict], [read_key] and [read] of the [Map] made
    of [entry_specs]. *)
Definition Map_to_bytes (entry_specs : list (EntrySpec BuiltinType))
  (v : value) : gen :=
  Map_to_bytes_with (specs_with_to_bytes entry_specs) v.

Definition Map_read_as_dict (entry_specs : list (EntrySpec BuiltinType))
  (bytestream : stream) : reading (list (str * value)) :=
  Map_read_as_dict_with (specs_with_read entry_specs) bytestream.

Definition Map_read_key (entry_specs : list (EntrySpec BuiltinType))
  (key : Z) (bytestream : stream) : reading (str * value) :=
  Map_read_key_with (specs_with_read entry_specs) key bytestream.

Definition Map_read (entry_specs : list (EntrySpec BuiltinType))
  (name : option str) (bytestream : stream) : reading value :=
  read (Map entry_specs name) bytestream.

(** ** Equality of type objects *)

(** [a == b] for two of the four classes: the same class ([type]
    compares by identity). *)
Definition same_class (a b : BuiltinType) : bool :=
  match a, b with
  | UnsignedInt, UnsignedInt | SignedInt, SignedInt
  | Boolean, Boolean | String, String => true
  | _, _ => false
  end.

(** An entry spec as [==] uses the one on the left: its key, its name
    and the [==] of its value type. *)
Abbreviation spec_eq := (Z * (str * (BuiltinType -> result bool)))%type.

(** [self.entry_specs == other.entry_specs], two tuples of named
    tuples.  Tuples are compared item by item as long as both have one:
    the first pair of unequal items makes them unequal, and the lengths
    decide when one runs out.  The three items of an entry spec are
    compared in the same way, so that the value types are compared only
    when key and name are equal.  (Python takes an object to be equal to
    itself without asking; asking gives [True] as well, see
    [type_eq_itself].) *)
Fixpoint entry_specs_eq_with (specs : list spec_eq)
  (others : list (EntrySpec BuiltinType)) : result bool :=
  match specs, others with
  | [], [] => Ok true
  | [], _ :: _ | _ :: _, [] => Ok false
  | (key, (name, value_type_eq)) :: specs, other :: others =>
      if negb (bool_decide (key = spec_key other)) then Ok false
      else if negb (bool_decide (name = spec_name other)) then Ok false
      else
        equal ← value_type_eq (spec_value_type other);
        if (equal : bool) then entry_specs_eq_with specs others
        else Ok false
  end.

(** [self == other] for two type objects.  [List.__eq__] and
    [Optional.__eq__] compare [inner_type] with the [inner_type] of the
    other, [Map.__eq__] compares [entry_specs]; an operand that lacks
    the attribute raises [AttributeError], also when it is on the left,
    a class passing the question on to the instance on the right. *)
Fixpoint type_eq (self other : BuiltinType) {struct self} : result bool :=
  match self with
  | List inner_type | Optional inner_type =>
      match other with
      | List other_inner_type | Optional other_inner_type =>
          type_eq inner_type other_inner_type
      | _ => Raise AttributeError
      end
  | Map entry_specs _ =>
      match other with
      | Map other_entry_specs _ =>
          entry_specs_eq_with
            (List.map (fun spec =>
               (spec_key spec,
                (spec_name spec, type_eq (spec_value_type spec))))
               entry_specs)
            other_entry_specs
      | _ => Raise AttributeError
      end
  | _ =>
      match other with
      | List _ | Optional _ | Map _ _ => Raise AttributeError
      | _ => Ok (same_class self other)
      end
  end.

(** What [==] sees of a type object: not whether a wrapper is a [List]
    or an [Optional], and not the names of the record types. *)
Fixpoint shape (t : BuiltinType) : BuiltinType :=
  match t with
  | List inner_type | Optional inner_type => List (shape inner_type)
  | Map entry_specs _ =>
      Map (List.map (fun spec =>
             MapEntrySpec (spec_key spec) (spec_name spec)
               (shape (spec_value_type spec))) entry_specs) None
  | _ => t
  end.

(** ** Record types and values as the data model has them *)

(** A record type is well formed when its keys are non-negative and no
    two of its fields share a key or a name, and so for the record types
    inside it. *)
Fixpoint well_formed (t : BuiltinType) : bool :=
  match t with
  | List inner_type | Optional inner_type => well_formed inner_type
  | Map entry_specs _ =>
      bool_decide (NoDup (List.map spec_key entry_specs))
      && bool_decide (NoDup (List.map spec_name entry_specs))
      && forallb (fun spec =>
           (0 <=? spec_key spec) && well_formed (spec_value_type spec))
           entry_specs
  | _ => true
  end.

(** The values of a type: non-negative integers, integers, booleans,
    text, lists of values, a value or [None], and for a record type the
    mappings (and record instances) that give each declared name, and
    no other, a value of its type. *)
Fixpoint is_value_of (t : BuiltinType) (v : value) {struct t} : bool :=
  match t, v with
  | UnsignedInt, VInt n => 0 <=? n
  | SignedInt, VInt _ => true
  | Boolean, VBool _ => true
  | String, VStr text => forallb is_scalar_value text
  | List inner_type, VList values => forallb (is_value_of inner_type) values
  | Optional inner_type, VNone => true
  | Optional inner_type, v => is_value_of inner_type v
  | Map entry_specs _, (VDict items | VUser _ items) =>
      bool_decide (NoDup (List.map fst items))
      && (length items =? length entry_specs)%nat
      && forallb (fun spec =>
           match dict_get items (spec_name spec) with
           | Some v => is_value_of (spec_value_type spec) v
           | None => false
           end) entry_specs
  | _, _ => false
  end.

(** The four scalar types. *)
Definition is_scalar (t : BuiltinType) : bool :=
  match t with
  | UnsignedInt | SignedInt | Boolean | String => true
  | _ => false
  end.

(** The names a field cannot have and be read: [self], the name of the
    parameter of [Map.__call__], and the names [setattr] does not take
    or takes from the instance. *)
Definition taken_names : list str :=
  [lit "self"; lit "_name"; lit "_records"; lit "to_bytes";
   lit "__class__"; lit "__dict__"; lit "__weakref__"].

(** No record type in [t], [t] included, has a field with a name that
    is taken. *)
Fixpoint plain_names (t : BuiltinType) : bool :=
  match t with
  | List inner_type | Optional inner_type => plain_names inner_type
  | Map entry_specs _ =>
      forallb (fun spec =>
        negb (bool_decide (spec_name spec ∈ taken_names))
        && plain_names (spec_value_type spec)) entry_specs
  | _ => true
  end.

(** The value as the reader builds it: the same, with every record
    inside it an instance of its record type. *)
Fixpoint instantiate (t : BuiltinType) (v : value) {struct t} : value :=
  match t, v with
  | List inner_type, VList values =>
      VList (List.map (instantiate inner_type) values)
  | Optional inner_type, VNone => VNone
  | Optional inner_type, v => instantiate inner_type v
  | Map entry_specs name, (VDict items | VUser _ items) =>
      let by_name :=
        List.map (fun spec =>
          (spec_name spec, instantiate (spec_value_type spec))) entry_specs in
      VUser name
        (List.map (fun kv =>
           (kv.1, match dict_get by_name kv.1 with
                  | Some inst => inst kv.2
                  | None => kv.2
                  end)) items)
  | _, v => v
  end.

(** *** What a record looks like on the wire *)

(** The bytes of one field: its key, then its value. *)
Definition entry_payload (e : EntrySpec BuiltinType * value) : list Z :=
  UnsignedInt_to_bytes (spec_key e.1)
  ++ yielded (to_bytes (spec_value_type e.1) e.2).

(** The bytes of a sequence of fields, after the count. *)
Definition payload (es : list (EntrySpec BuiltinType * value)) : list Z :=
  concat (List.map entry_payload es).

(** The name and the value a field is read back as. *)
Definition entry_item (e : EntrySpec BuiltinType * value) : str * value :=
  (spec_name e.1, instantiate (spec_value_type e.1) e.2).

(** [map_data[name] = value] for each item in turn. *)
Definition dict_set_all (map_data items : list (str * value))
  : list (str * value) :=
  foldl (fun d kv => dict_set d kv.1 kv.2) map_data items.

(** A field of the record type with a value of its type. *)
Definition is_entry_of (entry_specs : list (EntrySpec BuiltinType))
  (e : EntrySpec BuiltinType * value) : Prop :=
  In e.1 entry_specs /\ is_value_of (spec_value_type e.1) e.2 = true.

(** The name and the value a field is given in the input mapping. *)
Definition entry_field (e : EntrySpec BuiltinType * value) : str * value :=
  (spec_name e.1, e.2).

(** The names a record type declares, and the names a mapping has. *)
Definition declared_names (entry_specs : list (EntrySpec BuiltinType))
  : gset str :=
  list_to_set (List.map spec_name entry_specs).

Definition names_of (items : list (str * value)) : gset str :=
  list_to_set (List.map fst items).

(** The mapping lacks one of the declared names. *)
Definition misses_declared_name (entry_specs : list (EntrySpec BuiltinType))
  (items : list (str * value)) : bool :=
  existsb (fun spec =>
    negb (existsb (fun kv => bool_decide (kv.1 = spec_name spec)) items))
    entry_specs.

(** The codec of [t] reads back the values of [t]: their encoding ends
    normally, is made of bytes, and is read back to the value, whatever
    follows it in the stream being left there. *)
Definition reads_back (t : BuiltinType) : Prop :=
  forall v rest, is_value_of t v = true ->
    raised (to_bytes t v) = None
    /\ forallb is_byte (yielded (to_bytes t v)) = true
    /\ read t (yielded (to_bytes t v) ++ rest) = Ok (instantiate t v, rest).



(** A reader only moves forward: what it leaves is what it was given,
    less a number of items at the front. *)
Definition leaves_suffix {A} (reader : stream -> reading A) : Prop :=
  forall bytestream v rest,
    reader bytestream = Ok (v, rest) -> rest `suffix_of` bytestream.

(** What each type reads from an exhausted source. *)
Definition empty_value (t : BuiltinType) : value :=
  match t with
  | UnsignedInt | SignedInt => VInt 0
  | Boolean => VBool false
  | String => VStr []
  | List _ => VList []
  | Optional _ => VNone
  | Map _ name => VUser name []
  end.

(** What is read back of a value of [t] is a value of [t] with the
    bytes of the value it is read back of. *)
Definition encodes_as_read (t : BuiltinType) : Prop :=
  forall v, is_value_of t v = true ->
    is_value_of t (instantiate t v) = true
    /\ to_bytes t (instantiate t v) = to_bytes t v.

(** [UserType.to_bytes]: the [to_bytes] the class was made with, on the
    [_records] of the instance. *)
Definition UserType_to_bytes (to_bytes : value -> gen) (self : value) : gen :=
  match self with
  | VUser _ _records => to_bytes (VDict _records)
  | _ => raise AttributeError
  end.

(** The values Python has: no dictionary, and no [_records], has a name
    twice. *)
Fixpoint valid_value (v : value) : bool :=
  match v with
  | VList values => forallb valid_value values
  | VDict items | VUser _ items =>
      bool_decide (NoDup (List.map fst items))
      && forallb (fun kv => valid_value kv.2) items
  | _ => true
  end.

(** The values of the shape of a type: as [is_value_of], but a record
    is an instance of the record type that has some of the declared
    names, each with a value of the shape of a field of that name. *)
Fixpoint fits (t : BuiltinType) (v : value) {struct t} : bool :=
  match t, v with
  | UnsignedInt, VInt n => 0 <=? n
  | SignedInt, VInt _ => true
  | Boolean, VBool _ => true
  | String, VStr text => forallb is_scalar_value text
  | List inner_type, VList values => forallb (fits inner_type) values
  | Optional inner_type, VNone => true
  | Optional inner_type, v => fits inner_type v
  | Map entry_specs name, VUser _name _records =>
      bool_decide (_name = name)
      && bool_decide (NoDup (List.map fst _records))
      && forallb (fun kv =>
           existsb (fun field => bool_decide (field.1 = kv.1) && field.2 kv.2)
             (List.map (fun spec =>
                (spec_name spec, fits (spec_value_type spec))) entry_specs))
           _records
  | _, _ => false
  end.

(** A field of the mapping being read: it has the name of an entry
    spec, and a value of the shape of its type. *)
Definition is_field_of (entry_specs : list (EntrySpec BuiltinType))
  (kv : str * value) : Prop :=
  exists spec, In spec entry_specs /\ spec_name spec = kv.1
               /\ fits (spec_value_type spec) kv.2 = true.

(** *** The record types of the tests *)

Definition Person : BuiltinType :=
  Map [MapEntrySpec 1 (lit "name") String;
       MapEntrySpec 2 (lit "age") UnsignedInt] (Some (lit "Person")).

Definition Family : BuiltinType :=
  Map [MapEntrySpec 1 (lit "mother") Person;
       MapEntrySpec 2 (lit "father") Person] (Some (lit "Family")).

Definition Paint : BuiltinType :=
  Map [MapEntrySpec 2 (lit "colour") String] None.

Definition Person_with_chocolate : BuiltinType :=
  Map [MapEntrySpec 1 (lit "name") String;
       MapEntrySpec 2 (lit "age") UnsignedInt;
       MapEntrySpec 3 (lit "likes_chocolate") Boolean] None.

Definition Car : BuiltinType :=
  Map [MapEntrySpec 2 (lit "colour") String;
       MapEntrySpec 1 (lit "manufacturer") String;
       MapEntrySpec 3 (lit "preowned") Boolean;
       MapEntrySpec 4 (lit "miles_travelled") UnsignedInt] None.

Definition helen : value :=
  VDict [(lit "name", VStr (lit "Helen")); (lit "age", VInt 62)].

Definition mark : value :=
  VDict [(lit "name", VStr (lit "Mark")); (lit "age", VInt 65)].



(** *** Fields on the wire *)

(** A field as it comes on the wire: the entry spec it is read with, the
    bytes of its value, and the value read of them. *)
Abbreviation wire_field := (EntrySpec BuiltinType * list Z * value)%type.

(** The bytes of the field: its key, then the bytes of its value. *)
Definition field_bytes (f : wire_field) : list Z :=
  UnsignedInt_to_bytes (spec_key f.1.1) ++ f.1.2.

(** A field of the record type: the type of its entry spec reads its
    bytes as its value, and leaves what follows them. *)
Definition is_wire_field_of (entry_specs : list (EntrySpec BuiltinType))
  (f : wire_field) : Prop :=
  In f.1.1 entry_specs
  /\ forall rest,
       read (spec_value_type f.1.1) (f.1.2 ++ rest) = Ok (f.2, rest).

(** The name and the value the field is read as. *)
Definition field_item (f : wire_field) : str * value :=
  (spec_name f.1.1, f.2).

(** ** The schema resolver *)

(** *** The [str] methods it uses *)

(** [text.lower()], for ASCII text; other text is left out of the
    model. *)
Definition lower (text : str) : result str :=
  if forallb is_ascii text then
    Ok (List.map (fun c => if (65 <=? c) && (c <=? 90) then c + 32 else c)
          text)
  else Raise NotModelled.

(** [tuple(v.lower() for v in value_type)] *)
Fixpoint lower_all (value_type : list str) : result (list str) :=
  match value_type with
  | [] => Ok []
  | v :: value_type =>
      v ← lower v; value_type ← lower_all value_type; Ok (v :: value_type)
  end.

(** [text.startswith(prefix)] *)
Fixpoint startswith (text prefix : str) : bool :=
  match prefix, text with
  | [], _ => true
  | p :: prefix, c :: text => bool_decide (c = p) && startswith text prefix
  | _ :: _, [] => false
  end.

(** [text.replace(char, " ")] *)
Definition replace_with_space (char : Z) (text : str) : str :=
  List.map (fun c => if decide (c = char) then 32 else c) text.

(** [text.split()]: the words between blanks; [word] is the word being
    read, backwards. *)
Fixpoint split_words (text : str) (word : str) : list str :=
  match text with
  | [] => match word with [] => [] | _ => [rev word] end
  | c :: text =>
      if is_space c then
        match word with
        | [] => split_words text []
        | _ => rev word :: split_words text []
        end
      else split_words text (c :: word)
  end.
Definition split (text : str) : list str := split_words text [].

(** [text.split("/")[-1]]; [part] is the part being read, backwards. *)
Fixpoint last_part (text : str) (part : str) : str :=
  match text with
  | [] => rev part
  | c :: text => if decide (c = 47) then last_part text [] else last_part text (c :: part)
  end.

(** [text.replace(".buf", "")]; [skip] counts what is left to drop of an
    occurrence found. *)
Fixpoint remove_buf (text : str) (skip : nat) : str :=
  match text with
  | [] => []
  | c :: rest =>
      match skip with
      | S skip => remove_buf rest skip
      | O =>
          if startswith text (lit ".buf") then remove_buf rest 3
          else c :: remove_buf rest 0
      end
  end.

(** [os.path.join(directory, filename)] *)
Definition path_join (directory filename : str) : str :=
  if startswith filename (lit "/") then filename
  else match last directory with
       | None => filename
       | Some c => if decide (c = 47) then directory ++ filename
                   else directory ++ lit "/" ++ filename
       end.

(** *** [user_types.py] and [Map.from_lines] *)

Definition IGNORED_CHARACTERS : str := lit "():.-/".

Definition BUILTINS : gmap str BuiltinType :=
  list_to_map [(lit "string", String); (lit "int", UnsignedInt);
               (lit "sint", SignedInt); (lit "bool", Boolean)].

Definition HIGHER_ORDER : gmap str (BuiltinType -> BuiltinType) :=
  list_to_map [(lit "list", List); (lit "optional", Optional)].

(** What [compute_type] is given: a [str], or a tuple or list of them. *)
Inductive type_description : Type :=
| Name (value_type : str)
| Names (value_type : list str).

Abbreviation entry := (Z * str * list str)%type.

(** One turn of the loop of [map_info_from_lines]. *)
Definition map_info_from_line (directory : str)
  (info : gmap str str * list entry) (line : str)
  : result (gmap str str * list entry) :=
  let '(user_types, entries) := info in
  let line := strip line in
  match line with
  | [] => Ok info
  | _ =>
      if startswith line (lit "require") then
        match split line with
        | [_; filename] =>
            let name := remove_buf (last_part filename []) 0 in
            name ← lower name;
            Ok (<[name := path_join directory filename]> user_types,
                entries)
        | _ => Raise ValueError
        end
      else
        let line := foldl (fun line char => replace_with_space char line)
                      line IGNORED_CHARACTERS in
        match split line with
        | key :: name :: value_type =>
            value_type ← lower_all value_type;
            key ← int_of_str key;
            Ok (user_types, entries ++ [(key, name, value_type)])
        | _ => Raise ValueError
        end
  end.

Fixpoint map_info_loop (directory : str) (lines : list str)
  (info : gmap str str * list entry) : result (gmap str str * list entry) :=
  match lines with
  | [] => Ok info
  | line :: lines =>
      info ← map_info_from_line directory info line;
      map_info_loop directory lines info
  end.

Definition map_info_from_lines (lines : list str) (directory : str)
  : result (gmap str str * list entry) :=
  map_info_loop directory lines (∅, []).

Section Resolver.

(** Reading the schema file of a [require]d type is the part of the
    file system: [Map.from_file], given the path. *)
Variable Map_from_file : str -> result BuiltinType.

(** [compute_type] once [value_type] is a [str]. *)
Definition compute_type_of_name (value_type : str)
  (user_types : gmap str str) : result BuiltinType :=
  match BUILTINS !! value_type with
  | Some t => Ok t
  | None =>
      match user_types !! value_type with
      | Some path => Map_from_file path
      | None => Raise (ValueError_type_not_found value_type)
      end
  end.

(** [compute_type] on a tuple or list: one name collapses to the name,
    more are a higher-order type around the type of the rest, and none
    cannot be unpacked. *)
Fixpoint compute_type_of_names (value_type : list str)
  (user_types : gmap str str) : result BuiltinType :=
  match value_type with
  | [] => Raise ValueError
  | [value_type] => compute_type_of_name value_type user_types
  | outer_type_name :: inner_type_names =>
      match HIGHER_ORDER !! outer_type_name with
      | None => Raise (KeyError outer_type_name)
      | Some outer_type =>
          inner_type ← compute_type_of_names inner_type_names user_types;
          Ok (outer_type inner_type)
      end
  end.

Definition compute_type (value_type : type_description)
  (user_types : gmap str str) : result BuiltinType :=
  match value_type with
  | Name value_type => compute_type_of_name value_type user_types
  | Names value_type => compute_type_of_names value_type user_types
  end.

(** The list comprehension of [from_lines]. *)
Fixpoint entry_specs_of (entries : list entry) (user_types : gmap str str)
  : result (list (EntrySpec BuiltinType)) :=
  match entries with
  | [] => Ok []
  | (key, name, value_type) :: entries =>
      t ← compute_type (Names value_type) user_types;
      entry_specs ← entry_specs_of entries user_types;
      Ok (MapEntrySpec key name t :: entry_specs)
  end.

Definition Map_from_lines (lines : list str) (directory : str)
  (type_name : option str) : result BuiltinType :=
  '(user_types, entries) ← map_info_from_lines lines directory;
  entry_specs ← entry_specs_of entries user_types;
  Ok (Map entry_specs type_name).

End Resolver.


(** * Properties *)

(** ** Bits of a byte *)

Ltac bitwise i :=
  apply Z.bits_inj'; intros i ?;
  repeat first
    [ rewrite Z.lor_spec | rewrite Z.land_spec
    | rewrite Z.shiftl_spec by lia | rewrite Z.shiftr_spec by lia
    | rewrite Z.testbit_0_l ].

Lemma testbit_127 i : 0 <= i -> Z.testbit 127 i = (i <? 7).
Proof. intros. apply (Z.testbit_ones_nonneg 7 i); lia. Qed.

Lemma testbit_128 i : Z.testbit 128 i = (i =? 7).
Proof.
  change 128 with (2 ^ 7). rewrite Z.pow2_bits_eqb by lia.
  apply Z.eqb_sym.
Qed.

Lemma low7_of_continued n :
  Z.land (Z.lor (Z.land n 127) 128) 127 = Z.land n 127.
Proof.
  bitwise i. rewrite testbit_127, testbit_128 by lia.
  destruct (Z.testbit n i), (i <? 7) eqn:?, (i =? 7) eqn:?; try reflexivity; lia.
Qed.

Lemma high_of_continued n : Z.land (Z.lor (Z.land n 127) 128) 128 = 128.
Proof.
  bitwise i. rewrite testbit_127, testbit_128 by lia.
  destruct (Z.testbit n i), (i <? 7) eqn:?, (i =? 7) eqn:?; try reflexivity; lia.
Qed.

Lemma high_of_last n : Z.land (Z.land n 127) 128 = 0.
Proof.
  bitwise i. rewrite testbit_127, testbit_128 by lia.
  destruct (Z.testbit n i), (i <? 7) eqn:?, (i =? 7) eqn:?; try reflexivity; lia.
Qed.

Lemma low7_of_last n : Z.land (Z.land n 127) 127 = Z.land n 127.
Proof.
  bitwise i. rewrite testbit_127 by lia.
  destruct (Z.testbit n i), (i <? 7); reflexivity.
Qed.

(** Seven bits at [offset], then the rest seven further up. *)
Lemma group_then_rest n offset :
  0 <= offset ->
  Z.lor (Z.shiftl (Z.land n 127) offset)
        (Z.shiftl (Z.shiftr n 7) (offset + 7)) = Z.shiftl n offset.
Proof.
  intros Hoff. bitwise i.
  destruct (Z_lt_dec (i - offset) 0) as [Hlt|Hge].
  - rewrite !Z.testbit_neg_r by lia. reflexivity.
  - rewrite testbit_127 by lia.
    destruct (Z_lt_dec (i - offset) 7).
    + rewrite (Z.testbit_neg_r (Z.shiftr n 7)) by lia.
      replace (i - offset <? 7) with true by (symmetry; apply Z.ltb_lt; lia).
      rewrite andb_true_r, orb_false_r. reflexivity.
    + replace (i - offset <? 7) with false by (symmetry; apply Z.ltb_ge; lia).
      rewrite andb_false_r, Z.shiftr_spec by lia. simpl. f_equal. lia.
Qed.

(** ** UnsignedInt: what the reader makes of an encoded number *)

Lemma shiftr_7_nonneg n : 0 <= n -> 0 <= Z.shiftr n 7.
Proof. intros. apply Z.shiftr_nonneg. assumption. Qed.

(** The reader, started anywhere in its loop, on the bytes of [n]
    followed by [rest]: it adds [n] at [offset] and stops before [rest]. *)
Lemma UnsignedInt_read_loop_to_bytes n :
  0 <= n -> forall rest number offset, 0 <= offset ->
  UnsignedInt_read_loop (UnsignedInt_to_bytes n ++ rest) number offset
  = (Z.lor number (Z.shiftl n offset), rest).
Proof.
  funelim (UnsignedInt_to_bytes n); intros Hn rest number offset Hoff.
  - simpl.
    rewrite high_of_continued, low7_of_continued. simpl.
    rewrite H by (auto using shiftr_7_nonneg; lia).
    rewrite <- Z.lor_assoc, group_then_rest by lia. reflexivity.
  - assert (Hz : Z.shiftr n 7 = 0) by (pose proof (shiftr_7_nonneg n Hn); lia).
    rewrite Hz. simpl.
    rewrite high_of_last, low7_of_last. simpl.
    rewrite <- (group_then_rest n offset), Hz, Z.shiftl_0_l, Z.lor_0_r by lia.
    reflexivity.
Qed.

Lemma UnsignedInt_read_to_bytes n rest :
  0 <= n -> UnsignedInt_read (UnsignedInt_to_bytes n ++ rest) = Ok (n, rest).
Proof.
  intros Hn. unfold UnsignedInt_read.
  rewrite UnsignedInt_read_loop_to_bytes by lia.
  rewrite Z.shiftl_0_r. reflexivity.
Qed.

(** The reader never raises, and what it returns is never negative. *)
Lemma UnsignedInt_read_loop_nonneg bytestream : forall number offset,
  0 <= number -> 0 <= offset ->
  0 <= fst (UnsignedInt_read_loop bytestream number offset).
Proof.
  induction bytestream as [|byte bytestream IH]; intros number offset Hn Hoff.
  - assumption.
  - simpl. assert (0 <= Z.lor number (Z.shiftl (Z.land byte 127) offset)).
    { apply Z.lor_nonneg. split; [assumption|].
      apply Z.shiftl_nonneg, Z.land_nonneg. right. lia. }
    destruct (Z.land byte 128 =? 0); [assumption|]. apply IH; lia.
Qed.

Lemma UnsignedInt_read_total bytestream :
  exists n rest, UnsignedInt_read bytestream = Ok (n, rest) /\ 0 <= n.
Proof.
  unfold UnsignedInt_read.
  pose proof (UnsignedInt_read_loop_nonneg bytestream 0 0) as H.
  destruct (UnsignedInt_read_loop bytestream 0 0) as [n rest].
  exists n, rest. split; [reflexivity|]. apply H; lia.
Qed.

Lemma bind_Ok {A B} (a : A) (k : A -> result B) : (Ok a ≫= k) = k a.
Proof. reflexivity. Qed.

Lemma bind_Raise {A B} e (k : A -> result B) : (Raise e ≫= k) = Raise e.
Proof. reflexivity. Qed.

Lemma Boolean_read_to_bytes b rest :
  Boolean_read (Boolean_to_bytes b ++ rest) = Ok (b, rest).
Proof. destruct b; reflexivity. Qed.

Lemma SignedInt_read_to_bytes n rest :
  SignedInt_read (SignedInt_to_bytes n ++ rest) = Ok (n, rest).
Proof.
  unfold SignedInt_read, SignedInt_to_bytes. rewrite <- app_assoc.
  rewrite Boolean_read_to_bytes, bind_Ok.
  rewrite UnsignedInt_read_to_bytes, bind_Ok by lia.
  destruct (0 <=? n) eqn:E; f_equal; f_equal; lia.
Qed.

(** ** UTF-8: decoding what was encoded *)

Ltac divmod_lia := Z.div_mod_to_equations; lia.

(** Settle the comparisons of the goal one at a time, keeping the only
    branch the bounds in the context allow. *)
Ltac settle_comparisons :=
  repeat match goal with
  | |- context [?a <=? ?b] =>
      destruct (Z.leb_spec a b); [|exfalso; divmod_lia]
  | |- context [?a <? ?b] =>
      destruct (Z.ltb_spec a b); [|exfalso; divmod_lia]
  | |- context [?a <=? ?b] =>
      destruct (Z.leb_spec a b); [exfalso; divmod_lia|]
  | |- context [?a <? ?b] =>
      destruct (Z.ltb_spec a b); [exfalso; divmod_lia|]
  end.

Lemma is_scalar_value_bounds c :
  is_scalar_value c = true ->
  0 <= c <= 0x10FFFF /\ (c < 0xD800 \/ 0xDFFF < c).
Proof.
  unfold is_scalar_value, is_surrogate. intros H.
  apply andb_prop in H as [H Hs]. apply andb_prop in H as [H0 H1].
  apply Z.leb_le in H0, H1. split; [lia|].
  destruct (Z.leb_spec 0xD800 c), (Z.leb_spec c 0xDFFF);
    simpl in Hs; try discriminate; lia.
Qed.

(** One step of the decoder, its recursive calls left folded. *)
Lemma bytes_decode_cons b0 bs1 :
  bytes_decode (b0 :: bs1) =
  if (0 <=? b0) && (b0 <? 0x80) then
    text ← bytes_decode bs1; Ok (b0 :: text)
  else if (0xC2 <=? b0) && (b0 <=? 0xDF) then
    match bs1 with
    | b1 :: bs2 =>
        if is_continuation b1 then
          text ← bytes_decode bs2;
          Ok ((b0 - 0xC0) * 64 + (b1 - 0x80) :: text)
        else Raise UnicodeDecodeError
    | _ => Raise UnicodeDecodeError
    end
  else if (0xE0 <=? b0) && (b0 <=? 0xEF) then
    match bs1 with
    | b1 :: b2 :: bs3 =>
        let c := (b0 - 0xE0) * 4096 + (b1 - 0x80) * 64 + (b2 - 0x80) in
        if is_continuation b1 && is_continuation b2
           && (0x800 <=? c) && negb (is_surrogate c) then
          text ← bytes_decode bs3; Ok (c :: text)
        else Raise UnicodeDecodeError
    | _ => Raise UnicodeDecodeError
    end
  else if (0xF0 <=? b0) && (b0 <=? 0xF4) then
    match bs1 with
    | b1 :: b2 :: b3 :: bs4 =>
        let c := (b0 - 0xF0) * 262144 + (b1 - 0x80) * 4096
                 + (b2 - 0x80) * 64 + (b3 - 0x80) in
        if is_continuation b1 && is_continuation b2 && is_continuation b3
           && (0x10000 <=? c) && (c <=? 0x10FFFF) then
          text ← bytes_decode bs4; Ok (c :: text)
        else Raise UnicodeDecodeError
    | _ => Raise UnicodeDecodeError
    end
  else Raise UnicodeDecodeError.
Proof. destruct bs1 as [|? [|? [|? ?]]]; reflexivity. Qed.

Lemma bytes_decode_utf8_char c rest :
  is_scalar_value c = true ->
  bytes_decode (utf8_char c ++ rest)
  = (text ← bytes_decode rest; Ok (c :: text)).
Proof.
  intros Hc. apply is_scalar_value_bounds in Hc as [Hrange Hsur].
  unfold utf8_char.
  destruct (Z.ltb_spec c 0x80); [|destruct (Z.ltb_spec c 0x800);
    [|destruct (Z.ltb_spec c 0x10000)]];
    cbn [app]; rewrite bytes_decode_cons;
    unfold is_continuation, is_surrogate; cbv zeta;
    destruct Hsur; try (exfalso; lia);
    settle_comparisons; cbn [andb negb];
    (destruct (bytes_decode rest); [|reflexivity]);
    rewrite !bind_Ok; do 2 f_equal; divmod_lia.
Qed.

Lemma utf8_char_is_byte c :
  is_scalar_value c = true -> forallb is_byte (utf8_char c) = true.
Proof.
  intros Hc. apply is_scalar_value_bounds in Hc as [Hrange _].
  unfold utf8_char.
  destruct (Z.ltb_spec c 0x80); [|destruct (Z.ltb_spec c 0x800);
    [|destruct (Z.ltb_spec c 0x10000)]];
    cbn [forallb]; unfold is_byte; settle_comparisons; reflexivity.
Qed.

Lemma str_encode_Ok text encoded :
  str_encode text = Ok encoded ->
  forallb is_scalar_value text = true
  /\ encoded = concat (List.map utf8_char text).
Proof.
  unfold str_encode. destruct (forallb is_scalar_value text); [|discriminate].
  intros [= <-]. split; reflexivity.
Qed.

Lemma str_encode_is_byte text encoded :
  str_encode text = Ok encoded -> forallb is_byte encoded = true.
Proof.
  intros H. apply str_encode_Ok in H as [Hs ->].
  induction text as [|c text IH]; [reflexivity|].
  simpl in *. apply andb_prop in Hs as [Hc Hs].
  rewrite forallb_app, utf8_char_is_byte, IH by assumption. reflexivity.
Qed.

Lemma bytes_decode_str_encode text encoded :
  str_encode text = Ok encoded -> bytes_decode encoded = Ok text.
Proof.
  intros H. apply str_encode_Ok in H as [Hs ->].
  induction text as [|c text IH]; [reflexivity|].
  simpl in *. apply andb_prop in Hs as [Hc Hs].
  rewrite bytes_decode_utf8_char, IH by assumption. reflexivity.
Qed.

Lemma bytes_of_bytes bs :
  forallb is_byte bs = true -> bytes (yield_all bs) = Ok bs.
Proof.
  intros H. unfold bytes. simpl.
  destruct (List.find _ bs) as [b|] eqn:E; [|reflexivity].
  apply List.find_some in E as [Hin Hb].
  rewrite forallb_forall in H. rewrite (H b Hin) in Hb. discriminate.
Qed.

Lemma String_read_n_bytes_app encoded rest :
  String_read_n_bytes (length encoded) (encoded ++ rest)
  = (yield_all encoded, rest).
Proof.
  induction encoded as [|b encoded IH]; [reflexivity|].
  simpl. rewrite IH. reflexivity.
Qed.

Lemma String_to_bytes_Ok text encoded :
  str_encode text = Ok encoded ->
  String_to_bytes text
  = yield_all (UnsignedInt_to_bytes (Z.of_nat (length encoded)) ++ encoded).
Proof. intros H. unfold String_to_bytes. rewrite H. reflexivity. Qed.

Lemma String_read_to_bytes text rest :
  forallb is_scalar_value text = true ->
  String_read (yielded (String_to_bytes text) ++ rest) = Ok (text, rest).
Proof.
  intros Hs.
  assert (He : str_encode text = Ok (concat (List.map utf8_char text)))
    by (unfold str_encode; rewrite Hs; reflexivity).
  rewrite (String_to_bytes_Ok _ _ He). simpl.
  unfold String_read. rewrite <- app_assoc.
  rewrite UnsignedInt_read_to_bytes, bind_Ok by lia.
  rewrite Nat2Z.id, String_read_n_bytes_app.
  rewrite bytes_of_bytes by eauto using str_encode_is_byte.
  rewrite bind_Ok, (bytes_decode_str_encode _ _ He). reflexivity.
Qed.

(** ** Every codec yields bytes *)

Lemma land_127_range n : 0 <= Z.land n 127 < 128.
Proof.
  change 127 with (Z.ones 7). rewrite Z.land_ones by lia.
  apply Z.mod_pos_bound. lia.
Qed.

Lemma continued_is_byte n : is_byte (Z.lor (Z.land n 127) 128) = true.
Proof.
  pose proof (land_127_range n).
  pose proof (Z.add_lor_land (Z.land n 127) 128) as E.
  rewrite high_of_last in E.
  unfold is_byte. apply andb_true_intro. split.
  - apply Z.leb_le. lia.
  - apply Z.ltb_lt. lia.
Qed.

Lemma last_is_byte n : is_byte (Z.land n 127) = true.
Proof.
  pose proof (land_127_range n). unfold is_byte.
  apply andb_true_intro. split; [apply Z.leb_le|apply Z.ltb_lt]; lia.
Qed.

Lemma UnsignedInt_to_bytes_is_byte n :
  forallb is_byte (UnsignedInt_to_bytes n) = true.
Proof.
  funelim (UnsignedInt_to_bytes n).
  - simpl. rewrite continued_is_byte. assumption.
  - destruct (Z.shiftr n 7 =? 0); simpl;
      rewrite ?continued_is_byte, ?last_is_byte; reflexivity.
Qed.

Lemma Boolean_to_bytes_is_byte b : forallb is_byte (Boolean_to_bytes b) = true.
Proof. apply UnsignedInt_to_bytes_is_byte. Qed.

Lemma SignedInt_to_bytes_is_byte n :
  forallb is_byte (SignedInt_to_bytes n) = true.
Proof.
  unfold SignedInt_to_bytes.
  rewrite forallb_app, Boolean_to_bytes_is_byte, UnsignedInt_to_bytes_is_byte.
  reflexivity.
Qed.

Lemma String_to_bytes_is_byte text :
  forallb is_byte (yielded (String_to_bytes text)) = true.
Proof.
  unfold String_to_bytes. destruct (str_encode text) eqn:E; [|reflexivity].
  simpl. rewrite forallb_app, UnsignedInt_to_bytes_is_byte.
  apply (str_encode_is_byte _ _ E).
Qed.

Lemma bytes_of_gen g :
  raised g = None -> forallb is_byte (yielded g) = true ->
  bytes g = Ok (yielded g).
Proof.
  intros Hraised Hbytes. unfold bytes. rewrite Hraised.
  destruct (List.find _ _) as [b|] eqn:E; [|reflexivity].
  apply List.find_some in E as [Hin Hb].
  rewrite forallb_forall in Hbytes. rewrite (Hbytes b Hin) in Hb. discriminate.
Qed.

(** ** The scalar codecs *)

Lemma scalar_to_bytes_read t v rest :
  is_scalar t = true -> is_value_of t v = true ->
  raised (to_bytes t v) = None
  /\ read t (yielded (to_bytes t v) ++ rest) = Ok (v, rest).
Proof.
  destruct t; try discriminate; intros _; destruct v; try discriminate;
    cbn [is_value_of to_bytes read as_int int_of_value]; intros Hv.
  - apply Z.leb_le in Hv. split; [reflexivity|]. cbn [yielded yield_all].
    rewrite UnsignedInt_read_to_bytes by assumption. reflexivity.
  - split; [reflexivity|]. cbn [yielded yield_all].
    rewrite SignedInt_read_to_bytes. reflexivity.
  - split; [reflexivity|]. cbn [yielded yield_all].
    change (UnsignedInt_to_bytes (int_of_bool b)) with (Boolean_to_bytes b).
    rewrite Boolean_read_to_bytes. reflexivity.
  - split.
    + unfold String_to_bytes, str_encode. rewrite Hv. reflexivity.
    + rewrite String_read_to_bytes by assumption. reflexivity.
Qed.

Lemma scalar_to_bytes_is_byte t v :
  is_scalar t = true -> forallb is_byte (yielded (to_bytes t v)) = true.
Proof.
  destruct t; try discriminate; intros _; destruct v; simpl;
    auto using UnsignedInt_to_bytes_is_byte, SignedInt_to_bytes_is_byte,
               String_to_bytes_is_byte.
  destruct (int_of_str text); simpl; auto using UnsignedInt_to_bytes_is_byte.
Qed.

(** C2: for every supported scalar value [v] (a non-negative integer of
    any size for [UnsignedInt], any integer for [SignedInt], either
    boolean for [Boolean], any text for [String], empty and non-ASCII
    included), encoding [v] gives a byte string, and decoding that byte
    string returns [v] with nothing left over.  (Text is a sequence of
    Unicode scalar values; a lone surrogate has no UTF-8 form.) *)
Theorem C2_scalar_round_trip (t : BuiltinType) (v : value) :
  is_scalar t = true -> is_value_of t v = true ->
  exists encoded,
    bytes (to_bytes t v) = Ok encoded /\ read t encoded = Ok (v, []).
Proof.
  intros Ht Hv. exists (yielded (to_bytes t v)).
  destruct (scalar_to_bytes_read t v [] Ht Hv) as [Hraised Hread].
  rewrite app_nil_r in Hread. split; [|assumption].
  apply bytes_of_gen; auto using scalar_to_bytes_is_byte.
Qed.

(** A number far beyond 64 bits, and a text of one, two, three and four
    byte characters. *)
Lemma C2_scalar_round_trip_witness :
  (exists encoded,
     bytes (to_bytes UnsignedInt (VInt (2 ^ 200 + 18178))) = Ok encoded
     /\ read UnsignedInt encoded = Ok (VInt (2 ^ 200 + 18178), []))
  /\ (exists encoded,
     bytes (to_bytes String (VStr [104; 233; 8364; 128512])) = Ok encoded
     /\ read String encoded = Ok (VStr [104; 233; 8364; 128512], [])).
Proof.
  split; apply C2_scalar_round_trip; reflexivity.
Defined.

(** C6: [UnsignedInt] encodes 18178 as the three bytes [0b10000010],
    [0b10001110], [0b00000001], and decodes these three bytes to 18178. *)
Theorem C6_UnsignedInt_18178 :
  UnsignedInt_to_bytes 18178 = [0x82; 0x8E; 0x01]
  /\ UnsignedInt_read [0x82; 0x8E; 0x01] = Ok (18178, [])
  /\ to_bytes UnsignedInt (VInt 18178) = yield_all [0x82; 0x8E; 0x01]
  /\ read UnsignedInt [0x82; 0x8E; 0x01] = Ok (VInt 18178, []).
Proof. repeat split; reflexivity. Qed.

(** ** A source that runs out *)

Lemma UnsignedInt_read_loop_exhausted bytestream : forall number offset,
  forallb continues bytestream = true ->
  UnsignedInt_read_loop bytestream number offset
  = (Z.lor number (groups_value bytestream offset), []).
Proof.
  induction bytestream as [|byte bytestream IH]; intros number offset H.
  - simpl. rewrite Z.lor_0_r. reflexivity.
  - simpl in *. apply andb_prop in H as [Hbyte H]. unfold continues in Hbyte.
    destruct (Z.land byte 128 =? 0); [discriminate|].
    rewrite IH, Z.lor_assoc by assumption. reflexivity.
Qed.

(** C3, as the code has it: when the source is exhausted before a byte
    with the continuation bit clear is reached, the empty source
    included, [UnsignedInt.read] does not fail: it returns the number
    made of the 7-bit groups read so far, 0 for the empty source. *)
Theorem C3_exhausted_source_returns (bytestream : stream) :
  forallb continues bytestream = true ->
  UnsignedInt_read bytestream = Ok (groups_value bytestream 0, []).
Proof.
  intros H. unfold UnsignedInt_read.
  rewrite UnsignedInt_read_loop_exhausted by assumption. reflexivity.
Qed.

Lemma C3_exhausted_source_returns_witness :
  UnsignedInt_read [0x82; 0x8E] = Ok (groups_value [0x82; 0x8E] 0, []).
Proof. apply C3_exhausted_source_returns. reflexivity. Defined.

(** The empty source is exhausted before any byte, and the read returns
    0: it raises nothing. *)
Lemma C3_empty_source_counterexample :
  forallb continues [] = true
  /\ UnsignedInt_read [] = Ok (0, [])
  /\ ~ (exists e, UnsignedInt_read [] = Raise e).
Proof.
  split; [reflexivity|]. split; [reflexivity|].
  intros [e H]. discriminate H.
Qed.

(** ** Zero has no sign *)

(** C9: [SignedInt] encodes zero, and negative zero, as the sign flag
    [True] followed by the [UnsignedInt] encoding of 0; and whatever the
    sign flag read, a magnitude of zero decodes to the one zero there
    is, the one that is encoded with the flag [True]. *)
Theorem C9_zero_is_non_negative :
  SignedInt_to_bytes 0 = Boolean_to_bytes true ++ UnsignedInt_to_bytes 0
  /\ SignedInt_to_bytes (- 0) = Boolean_to_bytes true ++ UnsignedInt_to_bytes 0
  /\ forall bytestream flag after_flag rest,
       Boolean_read bytestream = Ok (flag, after_flag) ->
       UnsignedInt_read after_flag = Ok (0, rest) ->
       SignedInt_read bytestream = Ok (0, rest).
Proof.
  split; [reflexivity|]. split; [reflexivity|].
  intros bytestream flag after_flag rest Hflag Hzero.
  unfold SignedInt_read. rewrite Hflag, bind_Ok, Hzero, bind_Ok.
  destruct flag; reflexivity.
Qed.

(** The flag [False] before a magnitude of zero. *)
Lemma C9_zero_is_non_negative_witness :
  SignedInt_read [0; 0; 7] = Ok (0, [7]).
Proof.
  apply (proj2 (proj2 C9_zero_is_non_negative) [0; 0; 7] false [0; 7] [7]);
    reflexivity.
Defined.

(** ** Induction on type objects *)

Lemma BuiltinType_nested_ind (P : BuiltinType -> Prop) :
  P UnsignedInt -> P SignedInt -> P Boolean -> P String ->
  (forall t, P t -> P (List t)) ->
  (forall t, P t -> P (Optional t)) ->
  (forall entry_specs name,
     Forall (fun spec => P (spec_value_type spec)) entry_specs ->
     P (Map entry_specs name)) ->
  forall t, P t.
Proof.
  intros HU HS HB HStr HList HOpt HMap.
  fix IH 1. intros [ | | | | t | t | entry_specs name];
    [exact HU | exact HS | exact HB | exact HStr
    | apply HList, IH | apply HOpt, IH | apply HMap].
  induction entry_specs as [|[k n t] entry_specs IHspecs]; constructor.
  - apply IH.
  - exact IHspecs.
Qed.

(** ** Generators in sequence *)

Lemma then_yield_all bs g :
  (yield_all bs ;;; g) = Gen (bs ++ yielded g) (raised g).
Proof. reflexivity. Qed.

Lemma then_not_raised g1 g2 :
  raised g1 = None ->
  (g1 ;;; g2) = Gen (yielded g1 ++ yielded g2) (raised g2).
Proof. intros H. unfold then_. rewrite H. reflexivity. Qed.

Lemma then_raised g1 g2 e : raised g1 = Some e -> (g1 ;;; g2) = g1.
Proof. intros H. unfold then_. rewrite H. reflexivity. Qed.

Lemma raised_then g1 g2 :
  raised (g1 ;;; g2) =
  match raised g1 with Some e => Some e | None => raised g2 end.
Proof. unfold then_. destruct (raised g1) eqn:E; [assumption|reflexivity]. Qed.

(** ** Dictionaries *)

Lemma dict_get_In {A} (d : list (str * A)) name v :
  List.NoDup (List.map fst d) -> In (name, v) d -> dict_get d name = Some v.
Proof.
  induction d as [|[k w] d IH]; intros Hnd Hin; [destruct Hin|].
  simpl in *. apply List.NoDup_cons_iff in Hnd as [Hk Hnd].
  destruct Hin as [[= -> ->]|Hin].
  - rewrite decide_True by reflexivity. reflexivity.
  - rewrite decide_False; [auto|].
    intros ->. apply Hk. apply (in_map fst) in Hin. exact Hin.
Qed.

Lemma dict_get_Some_In {A} (d : list (str * A)) name v :
  dict_get d name = Some v -> In (name, v) d.
Proof.
  induction d as [|[k w] d IH]; [discriminate|]. simpl.
  destruct (decide (k = name)) as [->|]; [intros [= ->]; left; reflexivity|].
  intros H. right. auto.
Qed.

Lemma dict_get_None {A} (d : list (str * A)) name :
  dict_get d name = None <-> ~ In name (List.map fst d).
Proof.
  induction d as [|[k w] d IH]; simpl; [tauto|].
  destruct (decide (k = name)) as [->|Hne].
  - split; [discriminate|]. intros H. exfalso. apply H. left. reflexivity.
  - rewrite IH. tauto.
Qed.

Lemma dict_get_dict_set d name v name' :
  dict_get (dict_set d name v) name'
  = if decide (name = name') then Some v else dict_get d name'.
Proof.
  induction d as [|[k w] d IH]; simpl.
  - destruct (decide (name = name')); reflexivity.
  - destruct (decide (k = name)) as [->|Hk]; simpl.
    + destruct (decide (name = name')); reflexivity.
    + destruct (decide (k = name')) as [->|Hk'].
      * rewrite decide_False by congruence. reflexivity.
      * exact IH.
Qed.

Lemma dict_set_fresh d name v :
  ~ In name (List.map fst d) -> dict_set d name v = d ++ [(name, v)].
Proof.
  induction d as [|[k w] d IH]; intros Hfresh; [reflexivity|].
  simpl in *. rewrite decide_False by tauto. rewrite IH by tauto. reflexivity.
Qed.

Lemma dict_set_all_fresh items : forall map_data,
  List.NoDup (List.map fst (map_data ++ items)) ->
  dict_set_all map_data items = map_data ++ items.
Proof.
  induction items as [|[k v] items IH]; intros map_data Hnd.
  - simpl. rewrite app_nil_r. reflexivity.
  - unfold dict_set_all in *. simpl.
    assert (Hfresh : ~ In k (List.map fst map_data)).
    { rewrite List.map_app in Hnd. simpl in Hnd.
      apply List.NoDup_remove_2 in Hnd. rewrite in_app_iff in Hnd. tauto. }
    rewrite dict_set_fresh by assumption.
    rewrite IH; rewrite <- app_assoc; [reflexivity|exact Hnd].
Qed.

Lemma dict_get_app {A} (l l' : list (str * A)) name :
  dict_get (l ++ l') name
  = match dict_get l name with
    | Some v => Some v
    | None => dict_get l' name
    end.
Proof.
  induction l as [|[k w] l IH]; [reflexivity|]. simpl.
  destruct (decide (k = name)); [reflexivity|exact IH].
Qed.

Lemma dict_get_dict_set_all items : forall map_data name,
  dict_get (dict_set_all map_data items) name
  = match dict_get (rev items) name with
    | Some v => Some v
    | None => dict_get map_data name
    end.
Proof.
  induction items as [|[k v] items IH]; intros map_data name; [reflexivity|].
  unfold dict_set_all in *. simpl. rewrite IH, dict_get_dict_set, dict_get_app.
  destruct (dict_get (rev items) name); [reflexivity|].
  simpl. destruct (decide (k = name)); reflexivity.
Qed.

(** ** Reading the fields of a record *)

Lemma Map_read_key_with_In entry_specs spec bytestream :
  List.NoDup (List.map spec_key entry_specs) -> In spec entry_specs ->
  Map_read_key_with (specs_with_read entry_specs) (spec_key spec) bytestream
  = ('(v, bytestream) ← read (spec_value_type spec) bytestream;
     Ok ((spec_name spec, v), bytestream)).
Proof.
  induction entry_specs as [|spec' entry_specs IH]; intros Hnd Hin;
    [destruct Hin|].
  simpl in *. apply List.NoDup_cons_iff in Hnd as [Hk Hnd].
  destruct Hin as [->|Hin].
  - rewrite decide_True by reflexivity. reflexivity.
  - rewrite decide_False; [auto|].
    intros E. apply Hk. rewrite E. apply in_map. exact Hin.
Qed.

Lemma Map_read_key_with_undeclared entry_specs key bytestream :
  ~ In key (List.map spec_key entry_specs) ->
  Map_read_key_with (specs_with_read entry_specs) key bytestream
  = Raise (KeyError_no_type_information key).
Proof.
  induction entry_specs as [|spec entry_specs IH]; intros Hk; [reflexivity|].
  simpl in *. rewrite decide_False by tauto. apply IH. tauto.
Qed.

Lemma payload_cons e es : payload (e :: es) = entry_payload e ++ payload es.
Proof. reflexivity. Qed.

Lemma payload_app es es' : payload (es ++ es') = payload es ++ payload es'.
Proof. unfold payload. rewrite List.map_app, concat_app. reflexivity. Qed.

Lemma Map_read_entries_payload entry_specs es :
  List.NoDup (List.map spec_key entry_specs) ->
  Forall (fun spec => 0 <= spec_key spec /\ reads_back (spec_value_type spec))
    entry_specs ->
  Forall (is_entry_of entry_specs) es ->
  forall rest map_data,
  Map_read_entries (specs_with_read entry_specs) (length es)
    (payload es ++ rest) map_data
  = Ok (dict_set_all map_data (List.map entry_item es), rest).
Proof.
  intros Hnd Hspecs. rewrite Forall_forall in Hspecs.
  induction es as [|[spec v] es IH]; intros Hes rest map_data;
    [reflexivity|].
  apply Forall_cons_1 in Hes as [[Hin Hv] Hes]. simpl in Hin, Hv.
  destruct (Hspecs spec) as [Hkey Hback].
  { apply list_elem_of_In. exact Hin. }
  destruct (Hback v (payload es ++ rest) Hv) as (_ & _ & Hread).
  rewrite payload_cons. unfold entry_payload.
  cbn [List.map length Map_read_entries fst snd]. rewrite <- !app_assoc.
  rewrite UnsignedInt_read_to_bytes, bind_Ok by assumption.
  rewrite Map_read_key_with_In, Hread, !bind_Ok by assumption.
  apply (IH Hes).
Qed.

(** ** Writing the fields of a record *)

Lemma foldl_insert_lookup {A} (specs : list (str * A)) :
  forall (m : gmap str A) name,
  foldl (fun m spec => <[spec.1 := spec.2]> m) m specs !! name
  = match dict_get (rev specs) name with
    | Some x => Some x
    | None => m !! name
    end.
Proof.
  induction specs as [|[k x] specs IH]; intros m name; [reflexivity|].
  simpl. rewrite IH, dict_get_app. simpl.
  destruct (dict_get (rev specs) name); [reflexivity|].
  destruct (decide (k = name)) as [->|Hne].
  - apply lookup_insert_eq.
  - apply lookup_insert_ne. exact Hne.
Qed.

Lemma specs_by_name_of_lookup specs name :
  specs_by_name_of specs !! name = dict_get (rev specs) name.
Proof.
  unfold specs_by_name_of. rewrite foldl_insert_lookup.
  destruct (dict_get (rev specs) name); [reflexivity|apply lookup_empty].
Qed.

Lemma specs_by_name_of_In entry_specs spec :
  List.NoDup (List.map spec_name entry_specs) -> In spec entry_specs ->
  specs_by_name_of (specs_with_to_bytes entry_specs) !! spec_name spec
  = Some (spec_key spec, to_bytes (spec_value_type spec)).
Proof.
  intros Hnd Hin. rewrite specs_by_name_of_lookup. apply dict_get_In.
  - rewrite List.map_rev. apply List.NoDup_rev.
    unfold specs_with_to_bytes. rewrite List.map_map. exact Hnd.
  - apply in_rev. rewrite rev_involutive. unfold specs_with_to_bytes.
    apply (in_map (fun spec =>
      (spec_name spec, (spec_key spec, to_bytes (spec_value_type spec))))).
    exact Hin.
Qed.

Lemma specs_by_name_of_dom entry_specs :
  dom (specs_by_name_of (specs_with_to_bytes entry_specs))
  = declared_names entry_specs.
Proof.
  unfold specs_by_name_of, declared_names.
  assert (H : forall (specs : list (str * spec_to_bytes))
                     (m : gmap str spec_to_bytes),
    dom (foldl (fun m spec => <[spec.1 := spec.2]> m) m specs)
    = list_to_set (List.map fst specs) ∪ dom m).
  { induction specs as [|[k x] specs IH]; intros m; simpl.
    - set_solver.
    - rewrite IH, dom_insert_L. set_solver. }
  rewrite H, dom_empty_L. unfold specs_with_to_bytes. rewrite List.map_map. simpl.
  set_solver.
Qed.

Lemma names_of_cons k v items seen_keys :
  names_of items ∪ ({[k]} ∪ seen_keys)
  = names_of ((k, v) :: items) ∪ seen_keys.
Proof. unfold names_of. simpl. set_solver. Qed.

Lemma names_of_nil seen_keys : names_of [] ∪ seen_keys = seen_keys.
Proof. unfold names_of. simpl. set_solver. Qed.

Lemma symmetric_difference_missing (seen declared : gset str) name :
  name ∈ declared -> name ∉ seen ->
  symmetric_difference seen declared <> ∅.
Proof. unfold symmetric_difference. set_solver. Qed.

(** The loop over fields that are declared and whose values encode: it
    yields their bytes, and ends with the check of the names. *)
Lemma Map_to_bytes_loop_payload entry_specs es :
  List.NoDup (List.map spec_name entry_specs) ->
  Forall (fun e => In e.1 entry_specs
            /\ raised (to_bytes (spec_value_type e.1) e.2) = None) es ->
  forall seen_keys,
  Map_to_bytes_loop (specs_by_name_of (specs_with_to_bytes entry_specs))
    (List.map entry_field es) seen_keys
  = Gen (payload es)
      (let unfilled :=
         symmetric_difference
           (names_of (List.map entry_field es) ∪ seen_keys)
           (declared_names entry_specs) in
       if decide (unfilled = ∅) then None
       else Some (ValueError_unfilled unfilled)).
Proof.
  intros Hnd. induction es as [|[spec v] es IH]; intros Hes seen_keys.
  - cbn [List.map Map_to_bytes_loop]. rewrite specs_by_name_of_dom.
    rewrite names_of_nil. cbv zeta. destruct (decide _); reflexivity.
  - apply Forall_cons_1 in Hes as [[Hin Hv] Hes]. simpl in Hin, Hv.
    cbn [List.map Map_to_bytes_loop entry_field fst snd].
    rewrite specs_by_name_of_In by assumption.
    rewrite then_yield_all, (then_not_raised _ _ Hv), (IH Hes).
    cbn [yielded raised]. rewrite payload_cons. unfold entry_payload.
    cbn [fst snd]. rewrite <- app_assoc.
    rewrite (names_of_cons _ v). reflexivity.
Qed.

(** The loop when a declared name is neither among the fields still to
    come nor among those seen: however it goes, it ends in an error. *)
Lemma Map_to_bytes_loop_missing specs_by_name items : forall seen_keys name,
  name ∈ dom specs_by_name ->
  name ∉ names_of items ∪ seen_keys ->
  raised (Map_to_bytes_loop specs_by_name items seen_keys) <> None.
Proof.
  induction items as [|[k v] items IH]; intros seen_keys name Hdecl Hmiss.
  - cbn [Map_to_bytes_loop]. cbv zeta.
    destruct (decide _) as [E|]; [|discriminate].
    exfalso. rewrite names_of_nil in Hmiss.
    exact (symmetric_difference_missing _ _ _ Hdecl Hmiss E).
  - cbn [Map_to_bytes_loop].
    destruct (specs_by_name !! k) as [[key value_type_to_bytes]|];
      [|discriminate].
    rewrite then_yield_all. cbn [raised]. rewrite raised_then.
    destruct (raised (value_type_to_bytes v)); [discriminate|].
    apply (IH _ name Hdecl). rewrite (names_of_cons _ v). exact Hmiss.
Qed.

Lemma bytes_raised g e : raised g = Some e -> exists e', bytes g = Raise e'.
Proof.
  intros H. unfold bytes. rewrite H.
  destruct (List.find _ _); eauto.
Qed.

(** ** Record types and their values, unfolded *)

Lemma well_formed_Map entry_specs name :
  well_formed (Map entry_specs name) = true ->
  List.NoDup (List.map spec_key entry_specs)
  /\ List.NoDup (List.map spec_name entry_specs)
  /\ forall spec, In spec entry_specs ->
       0 <= spec_key spec /\ well_formed (spec_value_type spec) = true.
Proof.
  cbn [well_formed]. intros H.
  apply andb_prop in H as [H Hall]. apply andb_prop in H as [Hk Hn].
  apply bool_decide_eq_true in Hk, Hn. apply NoDup_ListNoDup in Hk, Hn.
  repeat split; try assumption;
    rewrite forallb_forall in Hall; apply Hall in H;
    apply andb_prop in H as [H0 Hwf]; [apply Z.leb_le|]; assumption.
Qed.

Lemma is_value_of_Map entry_specs name v :
  is_value_of (Map entry_specs name) v = true ->
  exists items,
    records_of v = Ok items
    /\ List.NoDup (List.map fst items)
    /\ length items = length entry_specs
    /\ forall spec, In spec entry_specs ->
         exists w, dict_get items (spec_name spec) = Some w
                   /\ is_value_of (spec_value_type spec) w = true.
Proof.
  intros H.
  assert (Hitems : exists items, records_of v = Ok items
    /\ (bool_decide (NoDup (List.map fst items))
        && (length items =? length entry_specs)%nat
        && forallb (fun spec =>
             match dict_get items (spec_name spec) with
             | Some v => is_value_of (spec_value_type spec) v
             | None => false
             end) entry_specs) = true).
  { destruct v; try discriminate H; eexists; split; try reflexivity; exact H. }
  destruct Hitems as (items & Hrec & Hv). exists items.
  apply andb_prop in Hv as [Hv Hall]. apply andb_prop in Hv as [Hnd Hlen].
  apply bool_decide_eq_true, NoDup_ListNoDup in Hnd.
  apply Nat.eqb_eq in Hlen. repeat split; try assumption.
  intros spec Hin. rewrite forallb_forall in Hall. apply Hall in Hin.
  destruct (dict_get items (spec_name spec)) as [w|]; [eauto|discriminate].
Qed.

Lemma dict_get_map_specs {A} (f : EntrySpec BuiltinType -> A)
  entry_specs spec :
  List.NoDup (List.map spec_name entry_specs) -> In spec entry_specs ->
  dict_get (List.map (fun s => (spec_name s, f s)) entry_specs)
    (spec_name spec) = Some (f spec).
Proof.
  intros Hnd Hin. apply dict_get_In.
  - rewrite List.map_map. exact Hnd.
  - apply (in_map (fun s => (spec_name s, f s))). exact Hin.
Qed.

(** A mapping that gives each declared name a value, and has as many
    names as are declared, has the declared names and no other. *)
Lemma names_are_declared entry_specs items :
  List.NoDup (List.map spec_name entry_specs) ->
  length items = length entry_specs ->
  (forall spec, In spec entry_specs ->
     exists w, dict_get items (spec_name spec) = Some w
               /\ is_value_of (spec_value_type spec) w = true) ->
  forall k, In k (List.map fst items) <-> In k (List.map spec_name entry_specs).
Proof.
  intros Hspecs Hlen Hall.
  assert (Hdecl : incl (List.map spec_name entry_specs) (List.map fst items)).
  { intros k Hk. apply in_map_iff in Hk as (spec & <- & Hin).
    destruct (Hall spec Hin) as (w & Hget & _).
    apply dict_get_Some_In in Hget. apply (in_map fst) in Hget. exact Hget. }
  intros k. split; [|apply Hdecl].
  apply List.NoDup_length_incl; [assumption| |assumption].
  rewrite !length_map. lia.
Qed.

(** Each of its items is then a field of the record type with a value
    of its type. *)
Lemma items_are_entries entry_specs items :
  List.NoDup (List.map spec_name entry_specs) ->
  List.NoDup (List.map fst items) ->
  length items = length entry_specs ->
  (forall spec, In spec entry_specs ->
     exists w, dict_get items (spec_name spec) = Some w
               /\ is_value_of (spec_value_type spec) w = true) ->
  exists es,
    List.map entry_field es = items /\ Forall (is_entry_of entry_specs) es.
Proof.
  intros Hspecs Hitems Hlen Hall.
  pose proof (names_are_declared _ _ Hspecs Hlen Hall) as Hnames.
  assert (Heach : forall kv, In kv items ->
    exists spec, In spec entry_specs /\ spec_name spec = kv.1
                 /\ is_value_of (spec_value_type spec) kv.2 = true).
  { intros [k v] Hin. pose proof (in_map fst _ _ Hin) as Hk.
    apply Hnames, in_map_iff in Hk as (spec & Hname & Hspec).
    exists spec. repeat split; try assumption.
    destruct (Hall spec Hspec) as (w & Hget & Hw).
    simpl in Hname. rewrite Hname in Hget.
    rewrite (dict_get_In _ _ _ Hitems Hin) in Hget.
    injection Hget as <-. exact Hw. }
  clear - Heach. induction items as [|[k v] items IH].
  - exists []. split; [reflexivity|constructor].
  - destruct IH as (es & Hes & Hall).
    { intros kv Hin. apply Heach. right. exact Hin. }
    destruct (Heach (k, v)) as (spec & Hin & Hname & Hv); [left; reflexivity|].
    exists ((spec, v) :: es). split.
    + simpl. unfold entry_field at 1. simpl in *. rewrite Hname, Hes.
      reflexivity.
    + constructor; [split; assumption|assumption].
Qed.

Lemma names_of_declared entry_specs items :
  (forall k, In k (List.map fst items)
             <-> In k (List.map spec_name entry_specs)) ->
  names_of items = declared_names entry_specs.
Proof.
  intros H. unfold names_of, declared_names. apply set_eq. intros k.
  rewrite !elem_of_list_to_set, !list_elem_of_In. apply H.
Qed.

Lemma symmetric_difference_diag (a : gset str) : symmetric_difference a a = ∅.
Proof. unfold symmetric_difference. set_solver. Qed.

Lemma union_empty_names (a : gset str) : a ∪ ∅ = a.
Proof. set_solver. Qed.

(** ** The type objects, unfolded *)

Lemma to_bytes_Map entry_specs name v :
  to_bytes (Map entry_specs name) v = Map_to_bytes entry_specs v.
Proof. reflexivity. Qed.

Lemma read_Map entry_specs name bytestream :
  read (Map entry_specs name) bytestream
  = ('(map_data, bytestream) ← Map_read_as_dict entry_specs bytestream;
     instance ← Map_call name map_data;
     Ok (instance, bytestream)).
Proof. reflexivity. Qed.

(** ** Field names that are taken *)

Lemma setattr_all_plain (records : list (str * value)) :
  Forall (fun kv => kv.1 ∉ taken_names) records -> setattr_all records = Ok ().
Proof.
  induction records as [|[k v] records IH]; intros H; [reflexivity|].
  apply Forall_cons_1 in H as [Hk H]. cbn [setattr_all fst] in *.
  unfold setattr. unfold taken_names in Hk.
  rewrite !decide_False by (intros ->; apply Hk; set_solver).
  rewrite bool_decide_eq_false_2 by (intros Hin; apply Hk; set_solver).
  rewrite bind_Ok. exact (IH H).
Qed.

(** With no name that is taken among the keyword arguments, the call
    gives the instance that holds them. *)
Lemma Map_call_plain name (kwargs : list (str * value)) :
  Forall (fun kv => kv.1 ∉ taken_names) kwargs ->
  Map_call name kwargs = Ok (VUser name kwargs).
Proof.
  intros H. unfold Map_call, UserType_init.
  rewrite bool_decide_eq_false_2.
  - rewrite (setattr_all_plain _ H). reflexivity.
  - intros Hin. apply list_elem_of_fmap in Hin as (kv & Hk & Hin).
    rewrite Forall_forall in H. apply (H kv Hin). rewrite <- Hk.
    unfold taken_names. set_solver.
Qed.

(** The call returns nothing but the instance that holds the keyword
    arguments. *)
Lemma Map_call_Ok name kwargs instance :
  Map_call name kwargs = Ok instance -> instance = VUser name kwargs.
Proof.
  unfold Map_call, UserType_init.
  destruct (bool_decide _); [discriminate|].
  destruct (setattr_all kwargs); [|discriminate].
  intros [= <-]. reflexivity.
Qed.

Lemma plain_names_Map entry_specs name :
  plain_names (Map entry_specs name) = true ->
  forall spec, In spec entry_specs ->
    (spec_name spec ∉ taken_names)
    /\ plain_names (spec_value_type spec) = true.
Proof.
  cbn [plain_names]. intros H spec Hin.
  rewrite forallb_forall in H. apply H in Hin.
  apply andb_prop in Hin as [Hname Hplain].
  apply negb_true_iff, bool_decide_eq_false in Hname. split; assumption.
Qed.

Lemma entry_item_name es :
  List.map fst (List.map entry_item es) = List.map fst (List.map entry_field es).
Proof. rewrite !List.map_map. reflexivity. Qed.

Lemma instantiate_Map_entries entry_specs name v es :
  List.NoDup (List.map spec_name entry_specs) ->
  Forall (fun e => In e.1 entry_specs) es ->
  records_of v = Ok (List.map entry_field es) ->
  instantiate (Map entry_specs name) v = VUser name (List.map entry_item es).
Proof.
  intros Hnd Hes Hrec.
  assert (E : instantiate (Map entry_specs name) v =
    VUser name (List.map (fun kv =>
      (kv.1, match dict_get (List.map (fun spec =>
                     (spec_name spec, instantiate (spec_value_type spec)))
                     entry_specs) kv.1 with
             | Some inst => inst kv.2
             | None => kv.2
             end)) (List.map entry_field es))).
  { destruct v; try discriminate Hrec; injection Hrec as ->; reflexivity. }
  rewrite E. f_equal. rewrite List.map_map. apply map_ext_in.
  intros [spec w] Hin. rewrite Forall_forall in Hes.
  apply list_elem_of_In, Hes in Hin. unfold entry_field, entry_item.
  cbn [fst snd] in *. rewrite dict_get_map_specs by assumption. reflexivity.
Qed.

(** ** Every codec reads back what it writes *)

Lemma reads_back_scalar t : is_scalar t = true -> reads_back t.
Proof.
  intros Ht v rest Hv.
  destruct (scalar_to_bytes_read t v rest Ht Hv) as [Hraised Hread].
  repeat split; [assumption|auto using scalar_to_bytes_is_byte|].
  rewrite Hread. destruct t; try discriminate; reflexivity.
Qed.

Lemma List_loop_reads_back inner_type values rest :
  reads_back inner_type ->
  forallb (is_value_of inner_type) values = true ->
  let g := List_to_bytes_loop (to_bytes inner_type) values in
  raised g = None
  /\ forallb is_byte (yielded g) = true
  /\ List_read_loop (read inner_type) (length values) (yielded g ++ rest)
     = Ok (List.map (instantiate inner_type) values, rest).
Proof.
  intros Hinner. induction values as [|v values IH]; intros Hall g.
  - repeat split; reflexivity.
  - simpl in Hall. apply andb_prop in Hall as [Hv Hall].
    destruct (IH Hall) as (Hraised & Hbytes & Hread).
    destruct (Hinner v
      (yielded (List_to_bytes_loop (to_bytes inner_type) values) ++ rest) Hv)
      as (Hraised_v & Hbytes_v & Hread_v).
    subst g. cbn [List_to_bytes_loop]. rewrite (then_not_raised _ _ Hraised_v).
    cbn [raised yielded]. repeat split; [assumption| |].
    + rewrite forallb_app, Hbytes_v. exact Hbytes.
    + cbn [length List_read_loop List.map]. rewrite <- app_assoc.
      rewrite Hread_v, bind_Ok, Hread, bind_Ok. reflexivity.
Qed.

Lemma reads_back_List inner_type : reads_back inner_type -> reads_back (List inner_type).
Proof.
  intros Hinner v rest Hv. destruct v; try discriminate Hv.
  cbn [is_value_of] in Hv.
  destruct (List_loop_reads_back inner_type values rest Hinner Hv)
    as (Hraised & Hbytes & Hread).
  cbn [to_bytes iter_values read instantiate]. rewrite then_yield_all.
  cbn [raised yielded]. repeat split; [assumption| |].
  - rewrite forallb_app, UnsignedInt_to_bytes_is_byte. exact Hbytes.
  - rewrite <- app_assoc, UnsignedInt_read_to_bytes, bind_Ok by lia.
    rewrite Nat2Z.id, Hread, bind_Ok. reflexivity.
Qed.

Lemma reads_back_Optional inner_type :
  reads_back inner_type -> reads_back (Optional inner_type).
Proof.
  intros Hinner v rest Hv.
  assert (Hcase : v = VNone \/ v <> VNone)
    by (destruct v; [left; reflexivity|right; discriminate..]).
  destruct Hcase as [->|Hsome].
  - repeat split; reflexivity.
  - assert (Hv' : is_value_of inner_type v = true)
      by (destruct v; try exact Hv; congruence).
    assert (E : to_bytes (Optional inner_type) v
                = (yield_all (Boolean_to_bytes true) ;;; to_bytes inner_type v))
      by (destruct v; try reflexivity; congruence).
    assert (Ei : instantiate (Optional inner_type) v = instantiate inner_type v)
      by (destruct v; try reflexivity; congruence).
    destruct (Hinner v rest Hv') as (Hraised & Hbytes & Hread).
    rewrite E, Ei, then_yield_all. cbn [raised yielded read].
    repeat split; [assumption|exact Hbytes|].
    rewrite <- app_assoc, Boolean_read_to_bytes, bind_Ok. exact Hread.
Qed.

Lemma payload_is_byte entry_specs es :
  Forall (fun spec => 0 <= spec_key spec /\ reads_back (spec_value_type spec))
    entry_specs ->
  Forall (is_entry_of entry_specs) es ->
  forallb is_byte (payload es) = true.
Proof.
  intros Hspecs Hes. rewrite Forall_forall in Hspecs.
  induction es as [|[spec v] es IH]; [reflexivity|].
  apply Forall_cons_1 in Hes as [[Hin Hv] Hes]. simpl in Hin, Hv.
  destruct (Hspecs spec) as [_ Hback]; [apply list_elem_of_In; exact Hin|].
  destruct (Hback v [] Hv) as (_ & Hbytes & _).
  rewrite payload_cons, forallb_app. unfold entry_payload at 1.
  cbn [fst snd]. rewrite forallb_app, UnsignedInt_to_bytes_is_byte, Hbytes.
  exact (IH Hes).
Qed.

(** What [to_bytes] and [read_as_dict] make of a mapping that supplies
    exactly the declared names, each with a value of its type. *)
Lemma Map_reads_back entry_specs name v rest :
  List.NoDup (List.map spec_key entry_specs) ->
  List.NoDup (List.map spec_name entry_specs) ->
  Forall (fun spec => 0 <= spec_key spec /\ reads_back (spec_value_type spec))
    entry_specs ->
  is_value_of (Map entry_specs name) v = true ->
  exists es,
    records_of v = Ok (List.map entry_field es)
    /\ Forall (is_entry_of entry_specs) es
    /\ to_bytes (Map entry_specs name) v
       = yield_all (UnsignedInt_to_bytes (Z.of_nat (length es)) ++ payload es)
    /\ forallb is_byte (yielded (to_bytes (Map entry_specs name) v)) = true
    /\ Map_read_as_dict entry_specs
         (yielded (to_bytes (Map entry_specs name) v) ++ rest)
       = Ok (List.map entry_item es, rest).
Proof.
  intros Hkeys Hnames Hspecs Hv.
  apply is_value_of_Map in Hv as (items & Hrec & Hnd & Hlen & Hall).
  destruct (items_are_entries _ _ Hnames Hnd Hlen Hall) as (es & <- & Hes).
  exists es. split; [exact Hrec|]. split; [exact Hes|].
  assert (Hto : to_bytes (Map entry_specs name) v
    = yield_all (UnsignedInt_to_bytes (Z.of_nat (length es)) ++ payload es)).
  { rewrite to_bytes_Map. unfold Map_to_bytes, Map_to_bytes_with. rewrite Hrec.
    rewrite then_yield_all, Map_to_bytes_loop_payload; [|assumption|].
    - cbn [yielded raised]. rewrite length_map, union_empty_names.
      rewrite (names_of_declared entry_specs)
        by (apply names_are_declared; assumption).
      rewrite symmetric_difference_diag, decide_True by reflexivity.
      reflexivity.
    - rewrite Forall_forall in Hes. rewrite Forall_forall in Hspecs.
      rewrite Forall_forall. intros e He.
      destruct (Hes e He) as [Hin Hve]. split; [exact Hin|].
      destruct (Hspecs (e.1)) as [_ Hback]; [apply list_elem_of_In; exact Hin|].
      destruct (Hback (e.2) [] Hve) as (Hraised & _). exact Hraised. }
  split; [exact Hto|]. rewrite Hto. cbn [yielded yield_all]. split.
  - rewrite forallb_app, UnsignedInt_to_bytes_is_byte.
    apply (payload_is_byte entry_specs); assumption.
  - unfold Map_read_as_dict, Map_read_as_dict_with. rewrite <- app_assoc.
    rewrite UnsignedInt_read_to_bytes, bind_Ok by lia.
    rewrite Nat2Z.id, Map_read_entries_payload by assumption.
    rewrite dict_set_all_fresh; [reflexivity|].
    cbn [app]. rewrite entry_item_name. exact Hnd.
Qed.

Lemma reads_back_Map entry_specs name :
  List.NoDup (List.map spec_key entry_specs) ->
  List.NoDup (List.map spec_name entry_specs) ->
  Forall (fun spec => spec_name spec ∉ taken_names) entry_specs ->
  Forall (fun spec => 0 <= spec_key spec /\ reads_back (spec_value_type spec))
    entry_specs ->
  reads_back (Map entry_specs name).
Proof.
  intros Hkeys Hnames Hplain Hspecs v rest Hv.
  destruct (Map_reads_back entry_specs name v rest Hkeys Hnames Hspecs Hv)
    as (es & Hrec & Hes & Hto & Hbytes & Hread).
  split; [rewrite Hto; reflexivity|]. split; [exact Hbytes|].
  rewrite read_Map, Hread, bind_Ok.
  rewrite (instantiate_Map_entries entry_specs name v es); try assumption.
  - rewrite Map_call_plain; [reflexivity|].
    rewrite Forall_forall in Hes. rewrite Forall_forall in Hplain.
    rewrite Forall_forall. intros kv Hkv. apply list_elem_of_In, in_map_iff in Hkv as (e & <- & He).
    apply list_elem_of_In in He. destruct (Hes e He) as [Hin _].
    apply (Hplain e.1). apply list_elem_of_In. exact Hin.
  - eapply Forall_impl; [exact Hes|]. intros e [Hin _]. exact Hin.
Qed.

(** Every well-formed type reads back what it writes. *)
Theorem well_formed_reads_back t :
  well_formed t = true -> plain_names t = true -> reads_back t.
Proof.
  induction t as [ | | | | t IH | t IH | entry_specs name IH]
    using BuiltinType_nested_ind; intros Hwf Hplain.
  - apply reads_back_scalar. reflexivity.
  - apply reads_back_scalar. reflexivity.
  - apply reads_back_scalar. reflexivity.
  - apply reads_back_scalar. reflexivity.
  - apply reads_back_List, IH; [exact Hwf|exact Hplain].
  - apply reads_back_Optional, IH; [exact Hwf|exact Hplain].
  - apply well_formed_Map in Hwf as (Hkeys & Hnames & Hall).
    pose proof (plain_names_Map _ _ Hplain) as Hplains.
    apply reads_back_Map; try assumption.
    + rewrite Forall_forall. intros spec Hin. apply list_elem_of_In in Hin.
      apply (Hplains spec Hin).
    + rewrite Forall_forall in IH. rewrite Forall_forall. intros spec Hin.
      pose proof Hin as Hin'. apply list_elem_of_In in Hin'.
      destruct (Hall spec Hin') as [Hkey Hwf]. split; [exact Hkey|].
      apply (IH spec Hin); [exact Hwf|]. apply (Hplains spec Hin').
Qed.

(** ** Equality of what is read back *)

Lemma py_eq_records a b ra rb :
  records_of a = Ok ra -> records_of b = Ok rb ->
  py_eq a b
  = (length ra =? length rb)%nat
    && forallb (fun kv =>
         match dict_get rb kv.1 with
         | Some w => py_eq kv.2 w
         | None => false
         end) ra.
Proof.
  destruct a; try discriminate; destruct b; try discriminate;
    intros [= ->] [= ->]; reflexivity.
Qed.







(** ** The order of the fields of a mapping *)




(** ** One cursor for all the readers *)




(** Two values one after the other in one stream: the second read
    starts where the first stopped. *)
Corollary read_in_sequence t1 t2 v1 v2 rest :
  well_formed t1 = true -> well_formed t2 = true ->
  plain_names t1 = true -> plain_names t2 = true ->
  is_value_of t1 v1 = true -> is_value_of t2 v2 = true ->
  ('(d1, bytestream) ←
     read t1 (yielded (to_bytes t1 v1) ++ yielded (to_bytes t2 v2) ++ rest);
   '(d2, bytestream) ← read t2 bytestream;
   Ok (d1, d2, bytestream))
  = Ok (instantiate t1 v1, instantiate t2 v2, rest).
Proof.
  intros Hwf1 Hwf2 Hplain1 Hplain2 Hv1 Hv2.
  destruct (well_formed_reads_back t1 Hwf1 Hplain1 v1
              (yielded (to_bytes t2 v2) ++ rest) Hv1) as (_ & _ & Hread1).
  destruct (well_formed_reads_back t2 Hwf2 Hplain2 v2 rest Hv2)
    as (_ & _ & Hread2).
  rewrite Hread1, bind_Ok, Hread2. reflexivity.
Qed.

(** ** Records *)




(** ** A key that was never declared *)

Lemma Map_read_entries_app specs i : forall j bytestream map_data,
  Map_read_entries specs (i + j) bytestream map_data
  = ('(map_data, bytestream) ← Map_read_entries specs i bytestream map_data;
     Map_read_entries specs j bytestream map_data).
Proof.
  induction i as [|i IH]; intros j bytestream map_data; [reflexivity|].
  cbn [Nat.add Map_read_entries].
  destruct (UnsignedInt_read bytestream) as [[key s]|e]; [|reflexivity].
  rewrite !bind_Ok.
  destruct (Map_read_key_with specs key s) as [[kv s']|e]; [|reflexivity].
  rewrite !bind_Ok. apply IH.
Qed.

Lemma existsb_key_In (entry_specs : list (EntrySpec BuiltinType)) key :
  existsb (fun spec => spec_key spec =? key) entry_specs = false ->
  ~ In key (List.map spec_key entry_specs).
Proof.
  intros H Hin. apply in_map_iff in Hin as (spec & <- & Hin).
  assert (existsb (fun s => spec_key s =? spec_key spec) entry_specs = true)
    by (apply existsb_exists; exists spec; split; [exact Hin|apply Z.eqb_refl]).
  congruence.
Qed.

(** C5: for every record type, when the reader, some fields of the
    payload read, comes to a field whose key no entry spec has, decoding
    stops there with the [KeyError] of [read_key] for that key: neither
    [read_as_dict] nor [read] returns a value. *)
Theorem C5_unknown_key_rejected (entry_specs : list (EntrySpec BuiltinType))
  (name : option str) (bytestream after_count at_key after_key : stream)
  (number_entries key : Z) (fields_read : nat)
  (map_data : list (str * value)) :
  UnsignedInt_read bytestream = Ok (number_entries, after_count) ->
  (fields_read <? Z.to_nat number_entries)%nat = true ->
  Map_read_entries (specs_with_read entry_specs) fields_read after_count []
    = Ok (map_data, at_key) ->
  UnsignedInt_read at_key = Ok (key, after_key) ->
  existsb (fun spec => spec_key spec =? key) entry_specs = false ->
  Map_read_as_dict entry_specs bytestream
    = Raise (KeyError_no_type_information key)
  /\ read (Map entry_specs name) bytestream
    = Raise (KeyError_no_type_information key).
Proof.
  intros Hcount Hlt Hfields Hkey Hundeclared.
  apply Nat.ltb_lt in Hlt. apply existsb_key_In in Hundeclared.
  assert (E : Map_read_as_dict entry_specs bytestream
              = Raise (KeyError_no_type_information key)).
  { unfold Map_read_as_dict, Map_read_as_dict_with. rewrite Hcount, bind_Ok.
    replace (Z.to_nat number_entries)
      with (fields_read + S (Z.to_nat number_entries - fields_read - 1))%nat
      by lia.
    rewrite Map_read_entries_app, Hfields, bind_Ok.
    cbn [Map_read_entries]. rewrite Hkey, bind_Ok.
    rewrite Map_read_key_with_undeclared by assumption. reflexivity. }
  split; [exact E|]. rewrite read_Map, E. reflexivity.
Qed.

(** A person, then a third field with the key 3, which [Person] does not
    declare. *)
Lemma C5_unknown_key_rejected_witness :
  Map_read_as_dict
    [MapEntrySpec 1 (lit "name") String; MapEntrySpec 2 (lit "age") UnsignedInt]
    [3; 1; 4; 66; 101; 100; 101; 2; 20; 3; 1]
    = Raise (KeyError_no_type_information 3)
  /\ read Person [3; 1; 4; 66; 101; 100; 101; 2; 20; 3; 1]
    = Raise (KeyError_no_type_information 3).
Proof.
  apply (C5_unknown_key_rejected _ _ _
           [1; 4; 66; 101; 100; 101; 2; 20; 3; 1] [3; 1] [1] 3 3 2
           [(lit "name", VStr (lit "Bede")); (lit "age", VInt 20)]);
    reflexivity.
Defined.

(** ** A key that comes twice *)

Lemma NoDup_map_eq {A B} (f : A -> B) (l : list A) a b :
  List.NoDup (List.map f l) -> In a l -> In b l -> f a = f b -> a = b.
Proof.
  induction l as [|x l IH]; intros Hnd Ha Hb Hf; [destruct Ha|].
  simpl in Hnd. apply List.NoDup_cons_iff in Hnd as [Hx Hnd].
  destruct Ha as [->|Ha], Hb as [->|Hb]; auto.
  - exfalso. apply Hx. rewrite Hf. apply in_map. exact Hb.
  - exfalso. apply Hx. rewrite <- Hf. apply in_map. exact Ha.
Qed.

(** The loop of [read_as_dict] over fields of the record type: each is
    read with its entry spec, and set under its name. *)
Lemma Map_read_entries_fields entry_specs (fields : list wire_field) :
  List.NoDup (List.map spec_key entry_specs) ->
  (forall spec, In spec entry_specs -> 0 <= spec_key spec) ->
  Forall (is_wire_field_of entry_specs) fields ->
  forall rest map_data,
  Map_read_entries (specs_with_read entry_specs) (length fields)
    (concat (List.map field_bytes fields) ++ rest) map_data
  = Ok (dict_set_all map_data (List.map field_item fields), rest).
Proof.
  intros Hnd Hkeys.
  induction fields as [|[[spec encoded] v] fields IH];
    intros Hfields rest map_data; [reflexivity|].
  apply Forall_cons_1 in Hfields as [[Hin Hread] Hfields].
  cbn [fst snd] in Hin, Hread.
  cbn [List.map concat length Map_read_entries]. unfold field_bytes at 1.
  cbn [fst snd]. rewrite <- !app_assoc.
  rewrite UnsignedInt_read_to_bytes, bind_Ok by (apply Hkeys; exact Hin).
  rewrite Map_read_key_with_In, Hread, !bind_Ok by assumption.
  apply (IH Hfields).
Qed.

(** C10: for every (well-formed) record type, a payload of fields of
    the record type, each with bytes that its type reads as a value, in
    which a key may come more than once, is decoded without error, and
    the mapping it gives holds, under the name of a key, the value of
    the last field with that key. *)
Theorem C10_last_occurrence_wins (entry_specs : list (EntrySpec BuiltinType))
  (name : option str) (fields : list wire_field) (rest : stream) :
  well_formed (Map entry_specs name) = true ->
  Forall (is_wire_field_of entry_specs) fields ->
  exists map_data,
    Map_read_as_dict entry_specs
      (UnsignedInt_to_bytes (Z.of_nat (length fields))
       ++ concat (List.map field_bytes fields) ++ rest)
    = Ok (map_data, rest)
    /\ forall before spec encoded v after,
         fields = before ++ (spec, encoded, v) :: after ->
         ~ In (spec_key spec) (List.map (fun f => spec_key f.1.1) after) ->
         dict_get map_data (spec_name spec) = Some v.
Proof.
  intros Hwf Hfields.
  apply well_formed_Map in Hwf as (Hkeys & Hnames & Hspecs).
  exists (dict_set_all [] (List.map field_item fields)). split.
  - unfold Map_read_as_dict, Map_read_as_dict_with.
    rewrite UnsignedInt_read_to_bytes, bind_Ok, Nat2Z.id by lia.
    apply Map_read_entries_fields; try assumption.
    intros spec Hin. apply (Hspecs spec Hin).
  - intros before spec encoded v after -> Hlast.
    rewrite dict_get_dict_set_all, List.map_app, rev_app_distr.
    cbn [List.map rev]. rewrite <- app_assoc, dict_get_app.
    replace (dict_get (rev (List.map field_item after)) (spec_name spec))
      with (@None value).
    + cbn [app dict_get field_item fst snd].
      rewrite decide_True by reflexivity. reflexivity.
    + symmetry. apply dict_get_None. rewrite <- List.map_rev.
      intros Hin. apply in_map_iff in Hin as ([k w] & Hk & Hin).
      apply in_map_iff in Hin as (f & [= <- <-] & Hf).
      apply in_rev in Hf. simpl in Hk.
      rewrite Forall_forall in Hfields.
      destruct (Hfields f) as [Hspec _];
        [apply list_elem_of_In, in_or_app; right; right; exact Hf|].
      destruct (Hfields (spec, encoded, v)) as [Hspec' _];
        [apply list_elem_of_In, in_or_app; right; left; reflexivity|].
      simpl in Hspec'.
      pose proof (NoDup_map_eq spec_name _ _ _ Hnames Hspec Hspec' Hk) as E.
      apply Hlast. apply in_map_iff. exists f. rewrite E. auto.
Qed.

(** The name of a person twice, the age between the two. *)
Lemma C10_last_occurrence_wins_witness :
  exists map_data,
    Map_read_as_dict
      [MapEntrySpec 1 (lit "name") String;
       MapEntrySpec 2 (lit "age") UnsignedInt]
      (UnsignedInt_to_bytes 3
       ++ concat (List.map field_bytes
            [(MapEntrySpec 1 (lit "name") String,
              [5; 72; 101; 108; 101; 110], VStr (lit "Helen"));
             (MapEntrySpec 2 (lit "age") UnsignedInt, [62], VInt 62);
             (MapEntrySpec 1 (lit "name") String,
              [4; 77; 97; 114; 107], VStr (lit "Mark"))])
       ++ [])
    = Ok (map_data, [])
    /\ forall before spec encoded v after,
         [(MapEntrySpec 1 (lit "name") String,
           [5; 72; 101; 108; 101; 110], VStr (lit "Helen"));
          (MapEntrySpec 2 (lit "age") UnsignedInt, [62], VInt 62);
          (MapEntrySpec 1 (lit "name") String,
           [4; 77; 97; 114; 107], VStr (lit "Mark"))]
         = before ++ (spec, encoded, v) :: after ->
         ~ In (spec_key spec) (List.map (fun f => spec_key f.1.1) after) ->
         dict_get map_data (spec_name spec) = Some v.
Proof.
  apply (C10_last_occurrence_wins _ (Some (lit "Person"))
    [(MapEntrySpec 1 (lit "name") String,
      [5; 72; 101; 108; 101; 110], VStr (lit "Helen"));
     (MapEntrySpec 2 (lit "age") UnsignedInt, [62], VInt 62);
     (MapEntrySpec 1 (lit "name") String,
      [4; 77; 97; 114; 107], VStr (lit "Mark"))] []).
  - reflexivity.
  - repeat (apply List.Forall_cons;
            [split; [simpl; tauto|intros rest; reflexivity]|]).
    apply List.Forall_nil.
Defined.

Example twice_the_name :
  Map_read_as_dict
    [MapEntrySpec 1 (lit "name") String; MapEntrySpec 2 (lit "age") UnsignedInt]
    [3; 1; 5; 72; 101; 108; 101; 110; 2; 62; 1; 4; 77; 97; 114; 107]
  = Ok ([(lit "name", VStr (lit "Mark")); (lit "age", VInt 62)], []).
Proof. reflexivity. Qed.

(** ** A mapping that lacks a declared name *)

Lemma misses_declared_name_spec entry_specs items :
  misses_declared_name entry_specs items = true ->
  exists missing,
    missing ∈ declared_names entry_specs /\ missing ∉ names_of items.
Proof.
  unfold misses_declared_name. intros H.
  apply existsb_exists in H as (spec & Hin & Hnot).
  exists (spec_name spec). split.
  - unfold declared_names. apply elem_of_list_to_set, list_elem_of_In.
    apply in_map. exact Hin.
  - unfold names_of. rewrite elem_of_list_to_set, list_elem_of_In.
    intros Hk. apply in_map_iff in Hk as (kv & Hname & Hkv).
    apply negb_true_iff in Hnot.
    assert (existsb (fun kv => bool_decide (kv.1 = spec_name spec)) items = true)
      by (apply existsb_exists; exists kv; split;
          [exact Hkv|apply bool_decide_eq_true; exact Hname]).
    congruence.
Qed.

(** C4, as the code has it: for every record type and every mapping that
    lacks a declared name, encoding ends in an error, so that no byte
    string comes of it; the count of the fields supplied has been
    yielded by then.  When the names supplied are all declared and their
    values encode, what is yielded before the error is the count and all
    the fields supplied, and the error is the [ValueError] that carries
    the symmetric difference of the names supplied and the names
    declared. *)
Theorem C4_incomplete_mapping_raises
  (entry_specs : list (EntrySpec BuiltinType)) (name : option str)
  (v : value) (items : list (str * value)) :
  records_of v = Ok items ->
  misses_declared_name entry_specs items = true ->
  (exists e, raised (to_bytes (Map entry_specs name) v) = Some e)
  /\ (exists e, bytes (to_bytes (Map entry_specs name) v) = Raise e)
  /\ UnsignedInt_to_bytes (Z.of_nat (length items))
     `prefix_of` yielded (to_bytes (Map entry_specs name) v)
  /\ forall es,
       List.NoDup (List.map spec_name entry_specs) ->
       items = List.map entry_field es ->
       Forall (fun e => In e.1 entry_specs
                 /\ raised (to_bytes (spec_value_type e.1) e.2) = None) es ->
       to_bytes (Map entry_specs name) v
       = Gen (UnsignedInt_to_bytes (Z.of_nat (length es)) ++ payload es)
           (Some (ValueError_unfilled
              (symmetric_difference (names_of items)
                 (declared_names entry_specs)))).
Proof.
  intros Hrec Hmiss.
  apply misses_declared_name_spec in Hmiss as (missing & Hdecl & Hmiss).
  assert (Hraised : exists e, raised (to_bytes (Map entry_specs name) v) = Some e).
  { rewrite to_bytes_Map. unfold Map_to_bytes, Map_to_bytes_with. rewrite Hrec.
    rewrite then_yield_all. cbn [raised].
    destruct (raised _) as [e|] eqn:E; [eauto|]. exfalso. revert E.
    apply (Map_to_bytes_loop_missing _ _ _ missing).
    - rewrite specs_by_name_of_dom. exact Hdecl.
    - rewrite union_empty_names. exact Hmiss. }
  split; [exact Hraised|]. split; [|split].
  - destruct Hraised as [e He]. exact (bytes_raised _ _ He).
  - rewrite to_bytes_Map. unfold Map_to_bytes, Map_to_bytes_with. rewrite Hrec.
    rewrite then_yield_all. cbn [yielded]. apply prefix_app_r. reflexivity.
  - intros es Hnd -> Hes.
    rewrite to_bytes_Map. unfold Map_to_bytes, Map_to_bytes_with. rewrite Hrec.
    rewrite then_yield_all, Map_to_bytes_loop_payload by assumption.
    cbn [yielded raised]. rewrite length_map, union_empty_names.
    rewrite decide_False; [reflexivity|].
    apply (symmetric_difference_missing _ _ missing); assumption.
Qed.

(** A person without an age. *)
Lemma C4_incomplete_mapping_raises_witness :
  (exists e,
     raised (to_bytes Person (VDict [(lit "name", VStr (lit "Helen"))]))
     = Some e)
  /\ (exists e,
     bytes (to_bytes Person (VDict [(lit "name", VStr (lit "Helen"))]))
     = Raise e).
Proof.
  destruct (C4_incomplete_mapping_raises
    [MapEntrySpec 1 (lit "name") String; MapEntrySpec 2 (lit "age") UnsignedInt]
    (Some (lit "Person")) (VDict [(lit "name", VStr (lit "Helen"))])
    [(lit "name", VStr (lit "Helen"))] eq_refl eq_refl) as (H1 & H2 & _).
  split; [exact H1|exact H2].
Defined.

(** The claim fails for a person without an age: before the error, the
    count and the name are yielded. *)
Lemma C4_partial_output_counterexample :
  misses_declared_name
    [MapEntrySpec 1 (lit "name") String; MapEntrySpec 2 (lit "age") UnsignedInt]
    [(lit "name", VStr (lit "Helen"))] = true
  /\ to_bytes Person (VDict [(lit "name", VStr (lit "Helen"))])
     = Gen [1; 1; 5; 72; 101; 108; 101; 110]
         (Some (ValueError_unfilled {[lit "age"]}))
  /\ yielded (to_bytes Person (VDict [(lit "name", VStr (lit "Helen"))])) <> [].
Proof.
  split; [reflexivity|]. split; [vm_compute; reflexivity|]. discriminate.
Qed.

(** ** Resolving a schema line *)

(** C7: the schema line ["2. maybesomephones: optional(list string)"]
    resolves to one entry spec, with key 2, name [maybesomephones] and
    type [Optional(List(String))]: the line is split into the key, the
    name and the description [optional list string], and [compute_type]
    wraps the type of [list string] in [Optional]. *)
Theorem C7_optional_list_string (Map_from_file : str -> result BuiltinType) :
  map_info_from_lines [lit "2. maybesomephones: optional(list string)"] (lit ".")
  = Ok (∅, [(2, lit "maybesomephones",
             [lit "optional"; lit "list"; lit "string"])])
  /\ compute_type Map_from_file
       (Names [lit "optional"; lit "list"; lit "string"]) ∅
     = Ok (Optional (List String))
  /\ compute_type Map_from_file (Names [lit "list"; lit "string"]) ∅
     = Ok (List String)
  /\ Map_from_lines Map_from_file
       [lit "2. maybesomephones: optional(list string)"] (lit ".") None
     = Ok (Map [MapEntrySpec 2 (lit "maybesomephones")
                  (Optional (List String))] None).
Proof. repeat split; vm_compute; reflexivity. Qed.

(** ** The tests of the repository, on the embedding *)

Example test_deserialize_number :
  UnsignedInt_read [0xA1; 0xCF; 0x82; 0x41] = Ok (136357793, []).
Proof. reflexivity. Qed.

Example test_serialize_list :
  to_bytes (List String)
    (VList [VStr (lit "Hello, world!"); VStr (lit "This is the middle value.");
            VStr (lit "Goodbye, world!")])
  = yield_all (UnsignedInt_to_bytes 3
               ++ yielded (String_to_bytes (lit "Hello, world!"))
               ++ yielded (String_to_bytes (lit "This is the middle value."))
               ++ yielded (String_to_bytes (lit "Goodbye, world!"))).
Proof. vm_compute. reflexivity. Qed.

Example test_deserialize_list :
  read (List UnsignedInt) [5; 1; 2; 3; 4; 5]
  = Ok (VList [VInt 1; VInt 2; VInt 3; VInt 4; VInt 5], []).
Proof. reflexivity. Qed.

Example test_serialize_optional_boolean :
  to_bytes (Optional Boolean) (VBool false)
  = yield_all (Boolean_to_bytes true ++ Boolean_to_bytes false)
  /\ to_bytes (Optional Boolean) VNone = yield_all (Boolean_to_bytes false).
Proof. split; reflexivity. Qed.

Example test_deserialize_optional_integer :
  read (Optional UnsignedInt) (Boolean_to_bytes true ++ UnsignedInt_to_bytes 15)
  = Ok (VInt 15, [])
  /\ read (Optional UnsignedInt) (Boolean_to_bytes false) = Ok (VNone, []).
Proof. split; reflexivity. Qed.

Example test_deserialize_map :
  Map_read_as_dict
    [MapEntrySpec 1 (lit "name") String; MapEntrySpec 2 (lit "age") UnsignedInt;
     MapEntrySpec 3 (lit "likes_chocolate") Boolean]
    ([3; 1] ++ yielded (String_to_bytes (lit "Bede Kelly"))
     ++ [2] ++ UnsignedInt_to_bytes 20 ++ [3] ++ Boolean_to_bytes true)
  = Ok ([(lit "name", VStr (lit "Bede Kelly")); (lit "age", VInt 20);
         (lit "likes_chocolate", VBool true)], []).
Proof. vm_compute. reflexivity. Qed.

Example test_serialize_map :
  to_bytes Car
    (VDict [(lit "preowned", VBool true);
            (lit "manufacturer", VStr (lit "Ford"));
            (lit "colour", VStr (lit "brown"));
            (lit "miles_travelled", VInt 18562)])
  = yield_all ([4; 3] ++ Boolean_to_bytes true
               ++ [1] ++ yielded (String_to_bytes (lit "Ford"))
               ++ [2] ++ yielded (String_to_bytes (lit "brown"))
               ++ [4] ++ UnsignedInt_to_bytes 18562).
Proof. vm_compute. reflexivity. Qed.

Example test_serialize_map_fails_with_missing_values :
  to_bytes Paint (VDict [])
  = Gen [0] (Some (ValueError_unfilled {[lit "colour"]}))
  /\ bytes (to_bytes Paint (VDict []))
     = Raise (ValueError_unfilled {[lit "colour"]}).
Proof. split; vm_compute; reflexivity. Qed.

Example test_reading_simple_user_map_definition
  (Map_from_file : str -> result BuiltinType) :
  Map_from_lines Map_from_file
    [lit "1. name: string"; lit "2 age int"; lit "3 :hair_colour (string)"]
    (lit ".") None
  = Ok (Map [MapEntrySpec 1 (lit "name") String;
             MapEntrySpec 2 (lit "age") UnsignedInt;
             MapEntrySpec 3 (lit "hair_colour") String] None).
Proof. vm_compute. reflexivity. Qed.

Example test_value_error_for_computing_missing_type
  (Map_from_file : str -> result BuiltinType) :
  compute_type Map_from_file (Name (lit "missing_type")) ∅
  = Raise (ValueError_type_not_found (lit "missing_type")).
Proof. reflexivity. Qed.

Example test_map_missing_key_encountered :
  Map_read_key [] 10 [] = Raise (KeyError_no_type_information 10).
Proof. reflexivity. Qed.

(** ** On the edges *)

(** A lone surrogate is not text that UTF-8 encodes. *)
Example lone_surrogate_raises :
  to_bytes String (VStr [0xD800]) = raise UnicodeEncodeError.
Proof. reflexivity. Qed.

(** The two orders of the fields of a family give different bytes. *)
Example field_order_changes_the_bytes :
  yielded (to_bytes Family (VDict [(lit "mother", helen); (lit "father", mark)]))
  <> yielded (to_bytes Family (VDict [(lit "father", mark); (lit "mother", helen)])).
Proof. vm_compute. discriminate. Qed.

(** A name that is not declared raises [KeyError] in the loop, before
    the names are checked. *)
Example undeclared_name_raises_KeyError :
  to_bytes Paint (VDict [(lit "color", VStr (lit "red"))])
  = Gen [1] (Some (KeyError (lit "color"))).
Proof. vm_compute. reflexivity. Qed.

(** A string cut short: [read_n_bytes] runs out of bytes. *)
Example short_string_raises :
  read String [5; 72; 101] = Raise RuntimeError.
Proof. reflexivity. Qed.

(** * Further properties *)

(** ** UnsignedInt: the shape and the size of an encoding *)

Lemma shiftr_7_div n : Z.shiftr n 7 = n / 128.
Proof. rewrite Z.shiftr_div_pow2 by lia. reflexivity. Qed.

(** What the case at hand says of the shifted number, as a quotient. *)
Ltac quotient_of_shift Hq :=
  match goal with
  | H : 0 < Z.shiftr _ 7 |- _ => pose proof H as Hq
  | H : ~ 0 < Z.shiftr _ 7 |- _ => pose proof H as Hq
  end;
  rewrite shiftr_7_div in Hq.

Lemma land_127_small n : 0 <= n < 128 -> Z.land n 127 = n.
Proof.
  intros H. change 127 with (Z.ones 7). rewrite Z.land_ones by lia.
  apply Z.mod_small. lia.
Qed.

Lemma UnsignedInt_to_bytes_small n :
  0 <= n < 128 -> UnsignedInt_to_bytes n = [n].
Proof.
  intros H. funelim (UnsignedInt_to_bytes n).
  - exfalso. quotient_of_shift Hq.
    assert (n / 128 = 0) by (apply Z.div_small; lia). lia.
  - rewrite shiftr_7_div, Z.div_small, land_127_small by lia. reflexivity.
Qed.

Lemma UnsignedInt_to_bytes_large n :
  128 <= n ->
  UnsignedInt_to_bytes n
  = Z.lor (Z.land n 127) 128 :: UnsignedInt_to_bytes (Z.shiftr n 7).
Proof.
  intros H. funelim (UnsignedInt_to_bytes n); [reflexivity|].
  exfalso. quotient_of_shift Hq.
  assert (1 <= n / 128) by (apply Z.div_le_lower_bound; lia). lia.
Qed.

Lemma UnsignedInt_to_bytes_negative n :
  n < 0 -> UnsignedInt_to_bytes n = [Z.lor (Z.land n 127) 128].
Proof.
  intros H.
  assert (Hneg : n / 128 < 0) by (apply Z.div_lt_upper_bound; lia).
  funelim (UnsignedInt_to_bytes n).
  - exfalso. quotient_of_shift Hq. lia.
  - rewrite shiftr_7_div.
    destruct (Z.eqb_spec (n / 128) 0); [lia|reflexivity].
Qed.

Lemma continues_continued n : continues (Z.lor (Z.land n 127) 128) = true.
Proof. unfold continues. rewrite high_of_continued. reflexivity. Qed.

Lemma continues_last n : continues (Z.land n 127) = false.
Proof. unfold continues. rewrite high_of_last. reflexivity. Qed.

(** X1: the encoding of a non-negative number is never empty: every
    byte of it but the last has the continuation bit set, and the last
    has it clear. *)
Theorem UnsignedInt_to_bytes_terminated (n : Z) :
  0 <= n ->
  exists init last,
    UnsignedInt_to_bytes n = init ++ [last]
    /\ forallb continues init = true
    /\ continues last = false.
Proof.
  funelim (UnsignedInt_to_bytes n); intros Hn.
  - destruct H as (init & last & E & Hinit & Hlast);
      [apply shiftr_7_nonneg; exact Hn|].
    exists (Z.lor (Z.land n 127) 128 :: init), last. rewrite E.
    split; [reflexivity|]. split; [|exact Hlast].
    simpl. rewrite continues_continued. exact Hinit.
  - assert (Hz : Z.shiftr n 7 = 0) by (pose proof (shiftr_7_nonneg n Hn); lia).
    rewrite Hz. exists [], (Z.land n 127). simpl.
    repeat split. apply continues_last.
Qed.

Lemma UnsignedInt_to_bytes_terminated_witness :
  exists init last,
    UnsignedInt_to_bytes 18178 = init ++ [last]
    /\ forallb continues init = true
    /\ continues last = false.
Proof. apply UnsignedInt_to_bytes_terminated. lia. Defined.

Lemma UnsignedInt_to_bytes_length_pos n :
  (1 <= length (UnsignedInt_to_bytes n))%nat.
Proof.
  funelim (UnsignedInt_to_bytes n); [simpl; lia|].
  destruct (Z.shiftr n 7 =? 0); simpl; lia.
Qed.

(** X2: a non-negative number takes at most [k] bytes exactly when it is
    less than [2 ^ (7 * k)]: seven bits a byte, and no byte more than
    needed. *)
Theorem UnsignedInt_to_bytes_length (k : nat) : forall n : Z,
  0 <= n -> (1 <= k)%nat ->
  (length (UnsignedInt_to_bytes n) <= k)%nat <-> n < 2 ^ (7 * Z.of_nat k).
Proof.
  induction k as [|k IH]; intros n Hn Hk; [lia|].
  replace (7 * Z.of_nat (S k)) with (7 + 7 * Z.of_nat k) by lia.
  rewrite Z.pow_add_r by lia. change (2 ^ 7) with 128.
  assert (Hpow : 1 <= 2 ^ (7 * Z.of_nat k))
    by (apply (Z.pow_le_mono_r 2 0); lia).
  destruct (Z_lt_dec n 128) as [Hsmall|Hlarge].
  - rewrite UnsignedInt_to_bytes_small by lia. simpl. split; [nia|lia].
  - rewrite UnsignedInt_to_bytes_large by lia. cbn [length].
    rewrite shiftr_7_div.
    assert (Hq : 1 <= n / 128) by (apply Z.div_le_lower_bound; lia).
    destruct k as [|k'].
    + pose proof (UnsignedInt_to_bytes_length_pos (n / 128)).
      simpl. split; [lia|]. change (2 ^ (7 * 0)) with 1. lia.
    + specialize (IH (n / 128) ltac:(lia) ltac:(lia)).
      split.
      * intros Hlen. apply le_S_n in Hlen. apply IH in Hlen.
        pose proof (Z.mul_div_le n 128 ltac:(lia)).
        pose proof (Z.mod_pos_bound n 128 ltac:(lia)).
        pose proof (Z.div_mod n 128 ltac:(lia)). nia.
      * intros Hlt. apply le_n_S, IH.
        apply Z.div_lt_upper_bound; lia.
Qed.

Lemma UnsignedInt_to_bytes_length_witness :
  (length (UnsignedInt_to_bytes 16383) <= 2)%nat <-> 16383 < 2 ^ (7 * Z.of_nat 2).
Proof. apply UnsignedInt_to_bytes_length; lia. Defined.

(** ** UnsignedInt: beyond the numbers it is made for *)

(** X3: a negative number is not refused: it is encoded as one byte, its
    low seven bits with the continuation bit set, and that byte reads
    back as these seven bits, a number that is not negative: the number
    given is lost. *)
Theorem UnsignedInt_negative_is_lost (n : Z) :
  n < 0 ->
  to_bytes UnsignedInt (VInt n) = yield_all [Z.lor (Z.land n 127) 128]
  /\ read UnsignedInt [Z.lor (Z.land n 127) 128] = Ok (VInt (Z.land n 127), [])
  /\ Z.land n 127 <> n.
Proof.
  intros Hn. cbn [to_bytes as_int read].
  rewrite UnsignedInt_to_bytes_negative by exact Hn.
  split; [reflexivity|]. split.
  - unfold UnsignedInt_read. cbn [UnsignedInt_read_loop].
    rewrite high_of_continued, low7_of_continued. cbn.
    rewrite Z.shiftl_0_r. reflexivity.
  - pose proof (land_127_range n). lia.
Qed.

Lemma UnsignedInt_negative_is_lost_witness :
  to_bytes UnsignedInt (VInt (-1)) = yield_all [Z.lor (Z.land (-1) 127) 128]
  /\ read UnsignedInt [Z.lor (Z.land (-1) 127) 128]
     = Ok (VInt (Z.land (-1) 127), [])
  /\ Z.land (-1) 127 <> -1.
Proof. apply UnsignedInt_negative_is_lost. lia. Defined.

(** X4: the encodings of the non-negative numbers are a prefix code: when
    two of them, each followed by anything, give the same bytes, the
    numbers are the same and so is what follows. *)
Theorem UnsignedInt_to_bytes_prefix_free (n1 n2 : Z) (rest1 rest2 : list Z) :
  0 <= n1 -> 0 <= n2 ->
  UnsignedInt_to_bytes n1 ++ rest1 = UnsignedInt_to_bytes n2 ++ rest2 ->
  n1 = n2 /\ rest1 = rest2.
Proof.
  intros H1 H2 E.
  pose proof (UnsignedInt_read_to_bytes n1 rest1 H1) as R1.
  pose proof (UnsignedInt_read_to_bytes n2 rest2 H2) as R2.
  rewrite E, R2 in R1. injection R1 as -> ->. split; reflexivity.
Qed.

Lemma UnsignedInt_to_bytes_prefix_free_witness :
  300 = 300 /\ [7] = [7].
Proof.
  apply (UnsignedInt_to_bytes_prefix_free 300 300 [7] [7]);
    [lia|lia|reflexivity].
Defined.

(** X5: whatever integers the iterator hands out, bytes or not,
    [UnsignedInt.read] raises nothing and returns a number that is not
    negative. *)
Theorem UnsignedInt_read_never_negative (bytestream : stream) :
  exists n rest, UnsignedInt_read bytestream = Ok (n, rest) /\ 0 <= n.
Proof.
  unfold UnsignedInt_read.
  pose proof (UnsignedInt_read_loop_nonneg bytestream 0 0) as H.
  destruct (UnsignedInt_read_loop bytestream 0 0) as [n rest].
  exists n, rest. split; [reflexivity|]. apply H; lia.
Qed.

Lemma UnsignedInt_read_loop_terminated init : forall last rest number offset,
  forallb continues init = true -> continues last = false ->
  UnsignedInt_read_loop (init ++ last :: rest) number offset
  = (Z.lor number (groups_value (init ++ [last]) offset), rest).
Proof.
  induction init as [|b init IH]; intros last rest number offset Hinit Hlast.
  - cbn [app UnsignedInt_read_loop groups_value]. unfold continues in Hlast.
    destruct (Z.land last 128 =? 0); [|discriminate].
    rewrite Z.lor_0_r. reflexivity.
  - cbn [app UnsignedInt_read_loop groups_value forallb] in *.
    apply andb_prop in Hinit as [Hb Hinit]. unfold continues in Hb.
    destruct (Z.land b 128 =? 0); [discriminate|].
    rewrite IH, Z.lor_assoc by assumption. reflexivity.
Qed.

(** X6: [UnsignedInt.read] takes the bytes up to the first one with the
    continuation bit clear, and returns the number whose 7-bit groups,
    lowest first, are the low seven bits of these bytes; it does not ask
    that the last group be other than zero, so a number has many
    encodings that read back to it. *)
Theorem UnsignedInt_read_groups (init : list Z) (last : Z) (rest : stream) :
  forallb continues init = true -> continues last = false ->
  UnsignedInt_read (init ++ last :: rest)
  = Ok (groups_value (init ++ [last]) 0, rest).
Proof.
  intros Hinit Hlast. unfold UnsignedInt_read.
  rewrite UnsignedInt_read_loop_terminated by assumption. reflexivity.
Qed.

(** The number 5 with two groups of zeros after it. *)
Lemma UnsignedInt_read_groups_witness :
  UnsignedInt_read ([0x85; 0x80] ++ 0 :: [9])
  = Ok (groups_value ([0x85; 0x80] ++ [0]) 0, [9])
  /\ groups_value ([0x85; 0x80] ++ [0]) 0 = 5.
Proof.
  split; [apply UnsignedInt_read_groups; reflexivity|reflexivity].
Defined.

(** ** Boolean and SignedInt: what the readers accept *)

(** X7: [Boolean.read] takes any number that is not zero for [True], and
    [Boolean.to_bytes] encodes an [int] as the number it is: a
    non-negative [int] written as a boolean reads back as whether it is
    other than zero. *)
Theorem Boolean_of_int (n : Z) (rest : stream) :
  0 <= n ->
  raised (to_bytes Boolean (VInt n)) = None
  /\ read Boolean (yielded (to_bytes Boolean (VInt n)) ++ rest)
     = Ok (VBool (negb (n =? 0)), rest).
Proof.
  intros Hn. cbn [to_bytes int_of_value read yielded yield_all raised].
  split; [reflexivity|]. unfold Boolean_read.
  rewrite UnsignedInt_read_to_bytes, !bind_Ok by exact Hn. reflexivity.
Qed.

Lemma Boolean_of_int_witness :
  raised (to_bytes Boolean (VInt 300)) = None
  /\ read Boolean (yielded (to_bytes Boolean (VInt 300)) ++ [9])
     = Ok (VBool (negb (300 =? 0)), [9]).
Proof. apply Boolean_of_int. lia. Defined.

(** X8: [SignedInt.read] reads a flag and a magnitude, two numbers, and
    returns the magnitude when the flag is other than zero, and its
    opposite when the flag is zero. *)
Theorem SignedInt_read_flag_and_magnitude (flag magnitude : Z) (rest : stream) :
  0 <= flag -> 0 <= magnitude ->
  SignedInt_read
    (UnsignedInt_to_bytes flag ++ UnsignedInt_to_bytes magnitude ++ rest)
  = Ok (if flag =? 0 then - magnitude else magnitude, rest).
Proof.
  intros Hflag Hmagnitude. unfold SignedInt_read, Boolean_read.
  rewrite UnsignedInt_read_to_bytes, !bind_Ok by exact Hflag.
  rewrite UnsignedInt_read_to_bytes, !bind_Ok by exact Hmagnitude.
  destruct (flag =? 0); cbn [negb]; do 2 f_equal. lia.
Qed.

Lemma SignedInt_read_flag_and_magnitude_witness :
  SignedInt_read (UnsignedInt_to_bytes 7 ++ UnsignedInt_to_bytes 300 ++ [9])
  = Ok (if 7 =? 0 then - 300 else 300, [9]).
Proof. apply SignedInt_read_flag_and_magnitude; lia. Defined.

(** ** String: the body and its announced length *)

Lemma String_read_n_bytes_short n : forall body,
  (length body < n)%nat ->
  String_read_n_bytes n body = (Gen body (Some RuntimeError), []).
Proof.
  induction n as [|n IH]; intros body Hlen; [lia|].
  destruct body as [|b body]; [reflexivity|].
  cbn [String_read_n_bytes]. rewrite IH by (simpl in Hlen; lia). reflexivity.
Qed.

Lemma bytes_yielded_then_raised body e :
  forallb is_byte body = true -> bytes (Gen body (Some e)) = Raise e.
Proof.
  intros Hbytes. unfold bytes. cbn [yielded raised].
  destruct (List.find _ body) as [b|] eqn:E; [|reflexivity].
  apply List.find_some in E as [Hin Hb].
  rewrite forallb_forall in Hbytes. rewrite (Hbytes b Hin) in Hb. discriminate.
Qed.

(** X9: when the source holds fewer bytes than the length announced,
    [String.read] raises the [RuntimeError] of a generator that ran into
    [StopIteration]: it returns no shortened text. *)
Theorem String_read_short_body (n : Z) (body : list Z) :
  0 <= n -> (length body <? Z.to_nat n)%nat = true ->
  forallb is_byte body = true ->
  String_read (UnsignedInt_to_bytes n ++ body) = Raise RuntimeError
  /\ read String (UnsignedInt_to_bytes n ++ body) = Raise RuntimeError.
Proof.
  intros Hn Hlen Hbytes. apply Nat.ltb_lt in Hlen.
  assert (E : String_read (UnsignedInt_to_bytes n ++ body) = Raise RuntimeError).
  { unfold String_read. rewrite UnsignedInt_read_to_bytes, bind_Ok by exact Hn.
    rewrite String_read_n_bytes_short by exact Hlen.
    rewrite bytes_yielded_then_raised by exact Hbytes. reflexivity. }
  split; [exact E|]. cbn [read]. rewrite E. reflexivity.
Qed.

Lemma String_read_short_body_witness :
  String_read (UnsignedInt_to_bytes 300 ++ [72; 101]) = Raise RuntimeError
  /\ read String (UnsignedInt_to_bytes 300 ++ [72; 101]) = Raise RuntimeError.
Proof. apply String_read_short_body; [lia|reflexivity|reflexivity]. Defined.

(** X10: [String.read] takes exactly as many bytes as the length
    announces, and the text is what UTF-8 makes of these bytes alone:
    what follows them is left in the source, and has no part in the
    text or in the error. *)
Theorem String_read_body (body : list Z) (rest : stream) :
  forallb is_byte body = true ->
  String_read (UnsignedInt_to_bytes (Z.of_nat (length body)) ++ body ++ rest)
  = (text ← bytes_decode body; Ok (text, rest)).
Proof.
  intros Hbytes. unfold String_read.
  rewrite UnsignedInt_read_to_bytes, bind_Ok, Nat2Z.id by lia.
  rewrite String_read_n_bytes_app, (bytes_of_gen (yield_all body)) by
    (try reflexivity; exact Hbytes).
  reflexivity.
Qed.

(** Two bytes that are no UTF-8, then a byte that is not theirs. *)
Lemma String_read_body_witness :
  String_read (UnsignedInt_to_bytes (Z.of_nat (length [0xC3; 0x28]))
               ++ [0xC3; 0x28] ++ [65])
  = Raise UnicodeDecodeError.
Proof. apply (String_read_body [0xC3; 0x28] [65]). reflexivity. Defined.

(** ** An exhausted source *)

(** X11: no type raises on a source that is exhausted from the start:
    each reads its empty value, zero, [False], the empty text, the empty
    list, [None], or a record with no field. *)
Theorem read_exhausted (t : BuiltinType) : read t [] = Ok (empty_value t, []).
Proof. destruct t; reflexivity. Qed.

Lemma List_read_loop_exhausted t (length : nat) :
  List_read_loop (read t) length []
  = Ok (repeat (empty_value t) length, []).
Proof.
  assert (Hread : read t [] = Ok (empty_value t, []))
    by (destruct t; reflexivity).
  induction length as [|length IH]; [reflexivity|].
  cbn [List_read_loop repeat]. rewrite Hread, bind_Ok, IH. reflexivity.
Qed.

(** X12: a list cut after its count is not refused: [List.read] returns
    as many empty values as the count announces. *)
Theorem List_read_truncated (t : BuiltinType) (n : Z) :
  0 <= n ->
  read (List t) (UnsignedInt_to_bytes n)
  = Ok (VList (repeat (empty_value t) (Z.to_nat n)), []).
Proof.
  intros Hn. cbn [read].
  rewrite <- (app_nil_r (UnsignedInt_to_bytes n)).
  rewrite UnsignedInt_read_to_bytes, bind_Ok by exact Hn.
  rewrite List_read_loop_exhausted. reflexivity.
Qed.

Lemma List_read_truncated_witness :
  read (List String) (UnsignedInt_to_bytes 3)
  = Ok (VList (repeat (empty_value String) (Z.to_nat 3)), []).
Proof. apply List_read_truncated. lia. Defined.

(** ** Readers only move forward *)

Lemma UnsignedInt_read_loop_suffix bytestream : forall number offset,
  (UnsignedInt_read_loop bytestream number offset).2 `suffix_of` bytestream.
Proof.
  induction bytestream as [|byte bytestream IH]; intros number offset;
    [reflexivity|].
  cbn [UnsignedInt_read_loop]. cbv zeta.
  destruct (Z.land byte 128 =? 0).
  - apply suffix_cons_r. reflexivity.
  - apply suffix_cons_r, IH.
Qed.

Lemma UnsignedInt_read_suffix : leaves_suffix UnsignedInt_read.
Proof.
  intros bytestream n rest H. unfold UnsignedInt_read in H.
  injection H as H.
  pose proof (UnsignedInt_read_loop_suffix bytestream 0 0) as Hs.
  rewrite H in Hs. exact Hs.
Qed.

(** One step of a reader made of two: the first reader's result named,
    or the goal closed when it raises. *)
Tactic Notation "read_step" hyp(H) ident(x) ident(s) ident(E) :=
  match type of H with
  | (?r ≫= _) = Ok _ =>
      destruct r as [[x s]|?] eqn:E; [rewrite bind_Ok in H|discriminate H]
  end.

Lemma Boolean_read_suffix : leaves_suffix Boolean_read.
Proof.
  intros bytestream b rest H. unfold Boolean_read in H.
  read_step H n s E. injection H as _ <-.
  exact (UnsignedInt_read_suffix _ _ _ E).
Qed.

Lemma SignedInt_read_suffix : leaves_suffix SignedInt_read.
Proof.
  intros bytestream n rest H. unfold SignedInt_read in H.
  read_step H positive s E. read_step H value s' E'. injection H as _ <-.
  etrans; [exact (UnsignedInt_read_suffix _ _ _ E')|].
  exact (Boolean_read_suffix _ _ _ E).
Qed.

Lemma String_read_n_bytes_suffix n : forall bytestream,
  (String_read_n_bytes n bytestream).2 `suffix_of` bytestream.
Proof.
  induction n as [|n IH]; intros bytestream; [reflexivity|].
  destruct bytestream as [|b bytestream]; [reflexivity|].
  cbn [String_read_n_bytes]. specialize (IH bytestream).
  destruct (String_read_n_bytes n bytestream) as [g s].
  apply suffix_cons_r. exact IH.
Qed.

Lemma String_read_suffix : leaves_suffix String_read.
Proof.
  intros bytestream text rest H. unfold String_read in H.
  read_step H n s E.
  pose proof (String_read_n_bytes_suffix (Z.to_nat n) s) as Hs.
  destruct (String_read_n_bytes (Z.to_nat n) s) as [g s'].
  destruct (bytes g) as [encoded|]; [rewrite bind_Ok in H|discriminate H].
  destruct (bytes_decode encoded) as [text'|];
    [rewrite bind_Ok in H|discriminate H].
  injection H as _ <-.
  etrans; [exact Hs|]. exact (UnsignedInt_read_suffix _ _ _ E).
Qed.

Lemma List_read_loop_suffix inner_read length :
  leaves_suffix inner_read -> leaves_suffix (List_read_loop inner_read length).
Proof.
  intros Hinner.
  induction length as [|length IH]; intros bytestream values rest H.
  - injection H as _ <-. reflexivity.
  - cbn [List_read_loop] in H.
    read_step H v s E. read_step H values' s' E'. injection H as _ <-.
    etrans; [exact (IH _ _ _ E')|]. exact (Hinner _ _ _ E).
Qed.

Lemma Map_read_key_with_suffix (specs : list spec_read) key :
  Forall (fun spec => leaves_suffix spec.2.2) specs ->
  leaves_suffix (Map_read_key_with specs key).
Proof.
  intros Hspecs.
  induction specs as [|[entry_key [entry_name value_type_read]] specs IH];
    intros bytestream kv rest H; [discriminate H|].
  apply Forall_cons_1 in Hspecs as [Hspec Hspecs].
  cbn [Map_read_key_with] in H. destruct (decide (entry_key = key)).
  - read_step H v s E. injection H as _ <-. exact (Hspec _ _ _ E).
  - exact (IH Hspecs _ _ _ H).
Qed.

Lemma Map_read_entries_suffix (specs : list spec_read) number_entries :
  Forall (fun spec => leaves_suffix spec.2.2) specs ->
  forall map_data,
  leaves_suffix
    (fun bytestream => Map_read_entries specs number_entries bytestream map_data).
Proof.
  intros Hspecs.
  induction number_entries as [|number_entries IH];
    intros map_data bytestream d rest H.
  - injection H as _ <-. reflexivity.
  - cbn [Map_read_entries] in H.
    read_step H key s E. read_step H kv s' E'.
    etrans; [exact (IH _ _ _ _ H)|].
    etrans; [exact (Map_read_key_with_suffix _ _ Hspecs _ _ _ E')|].
    exact (UnsignedInt_read_suffix _ _ _ E).
Qed.

Lemma read_leaves_suffix t : leaves_suffix (read t).
Proof.
  induction t as [ | | | | t IH | t IH | entry_specs name IH]
    using BuiltinType_nested_ind; intros bytestream v rest H; cbn [read] in H.
  - read_step H n s E. injection H as _ <-.
    exact (UnsignedInt_read_suffix _ _ _ E).
  - read_step H n s E. injection H as _ <-.
    exact (SignedInt_read_suffix _ _ _ E).
  - read_step H b s E. injection H as _ <-.
    exact (Boolean_read_suffix _ _ _ E).
  - read_step H text s E. injection H as _ <-.
    exact (String_read_suffix _ _ _ E).
  - read_step H n s E. read_step H values s' E'. injection H as _ <-.
    etrans; [exact (List_read_loop_suffix _ _ IH _ _ _ E')|].
    exact (UnsignedInt_read_suffix _ _ _ E).
  - read_step H has_value s E. destruct has_value.
    + etrans; [exact (IH _ _ _ H)|]. exact (Boolean_read_suffix _ _ _ E).
    + injection H as _ <-. exact (Boolean_read_suffix _ _ _ E).
  - read_step H map_data s E.
    destruct (Map_call name map_data) as [instance|];
      [rewrite bind_Ok in H|discriminate H].
    injection H as _ <-.
    unfold Map_read_as_dict_with in E. read_step E n s' E'.
    etrans; [|exact (UnsignedInt_read_suffix _ _ _ E')].
    refine (Map_read_entries_suffix _ _ _ _ _ _ _ E).
    apply Forall_fmap. exact IH.
Qed.

(** X13: whatever the type and the bytes, a successful [read] only
    moves forward: what it leaves in the source is what it was given
    with some items taken from the front, never put back or reordered. *)
Theorem read_forward_only (t : BuiltinType) (bytestream : stream)
  (v : value) (rest : stream) :
  read t bytestream = Ok (v, rest) ->
  exists taken, bytestream = taken ++ rest.
Proof. intros H. exact (read_leaves_suffix t _ _ _ H). Qed.

Lemma read_forward_only_witness :
  exists taken,
    [3; 1; 4; 66; 101; 100; 101; 2; 20] = taken ++ [101; 100; 101; 2; 20].
Proof.
  apply (read_forward_only (List UnsignedInt) _
           (VList [VInt 1; VInt 4; VInt 66])).
  reflexivity.
Defined.

(** ** What [read_as_dict] returns *)

Lemma dict_set_names d name v :
  List.map fst (dict_set d name v)
  = if decide (name ∈ List.map fst d) then List.map fst d
    else List.map fst d ++ [name].
Proof.
  induction d as [|[k w] d IH]; [reflexivity|].
  cbn [dict_set]. destruct (decide (k = name)) as [->|Hk].
  - rewrite decide_True by (simpl; left). reflexivity.
  - cbn [List.map fst]. rewrite IH.
    destruct (decide (name ∈ List.map fst d)) as [Hin|Hin].
    + rewrite decide_True by (right; exact Hin). reflexivity.
    + rewrite decide_False; [reflexivity|].
      intros E. apply elem_of_cons in E as [E|E]; [exact (Hk (eq_sym E))|].
      exact (Hin E).
Qed.

Lemma dict_set_NoDup d name v :
  List.NoDup (List.map fst d) -> List.NoDup (List.map fst (dict_set d name v)).
Proof.
  intros Hnd. rewrite dict_set_names.
  destruct (decide (name ∈ List.map fst d)) as [Hin|Hin]; [exact Hnd|].
  apply NoDup_ListNoDup. apply NoDup_ListNoDup in Hnd.
  apply NoDup_app. split; [exact Hnd|]. split.
  - intros x Hx Hx'. apply list_elem_of_singleton in Hx'. subst x.
    exact (Hin Hx).
  - apply NoDup_singleton.
Qed.

Lemma dict_set_incl d name v (names : list str) :
  incl (List.map fst d) names -> In name names ->
  incl (List.map fst (dict_set d name v)) names.
Proof.
  intros Hd Hname. rewrite dict_set_names.
  destruct (decide (name ∈ List.map fst d)); [exact Hd|].
  apply incl_app; [exact Hd|]. intros x [<-|[]]. exact Hname.
Qed.

Lemma Map_read_key_with_name entry_specs key bytestream kv rest :
  Map_read_key_with (specs_with_read entry_specs) key bytestream
    = Ok (kv, rest) ->
  In kv.1 (List.map spec_name entry_specs).
Proof.
  induction entry_specs as [|spec entry_specs IH]; intros H;
    [discriminate H|].
  cbn [specs_with_read List.map Map_read_key_with] in H.
  destruct (decide (spec_key spec = key)).
  - read_step H v s E. injection H as <- _. left. reflexivity.
  - right. exact (IH H).
Qed.

Lemma Map_read_entries_names entry_specs number_entries :
  forall bytestream map_data d rest,
  List.NoDup (List.map fst map_data) ->
  incl (List.map fst map_data) (List.map spec_name entry_specs) ->
  Map_read_entries (specs_with_read entry_specs) number_entries bytestream
    map_data = Ok (d, rest) ->
  List.NoDup (List.map fst d)
  /\ incl (List.map fst d) (List.map spec_name entry_specs)
  /\ (length d <= length map_data + number_entries)%nat.
Proof.
  induction number_entries as [|number_entries IH];
    intros bytestream map_data d rest Hnd Hincl H.
  - injection H as <- _. repeat split; [assumption..|lia].
  - cbn [Map_read_entries] in H.
    read_step H key s E. read_step H kv s' E'.
    apply Map_read_key_with_name in E'.
    apply IH in H as (H1 & H2 & H3);
      [|apply dict_set_NoDup; exact Hnd|apply dict_set_incl; assumption].
    repeat split; [assumption..|].
    assert (length (dict_set map_data kv.1 kv.2) <= S (length map_data))%nat.
    { rewrite <- (length_map fst (dict_set _ _ _)), dict_set_names.
      destruct (decide _); rewrite ?length_app, !length_map; simpl; lia. }
    lia.
Qed.

(** X14: whatever the bytes, a mapping [read_as_dict] returns has
    each name once, and only names the record type declares; it has no
    more fields than the count announces.  Nothing says it has all the
    declared names. *)
Theorem Map_read_as_dict_names (entry_specs : list (EntrySpec BuiltinType))
  (bytestream : stream) (map_data : list (str * value)) (rest : stream) :
  Map_read_as_dict entry_specs bytestream = Ok (map_data, rest) ->
  List.NoDup (List.map fst map_data)
  /\ (forall name, In name (List.map fst map_data) ->
        In name (List.map spec_name entry_specs))
  /\ exists number_entries after_count,
       UnsignedInt_read bytestream = Ok (number_entries, after_count)
       /\ Z.of_nat (length map_data) <= number_entries.
Proof.
  intros H. unfold Map_read_as_dict, Map_read_as_dict_with in H.
  destruct (UnsignedInt_read_total bytestream) as (n & s & E & Hn).
  rewrite E, bind_Ok in H.
  apply Map_read_entries_names in H as (H1 & H2 & H3);
    [|constructor|intros x []].
  repeat split; [assumption..|].
  exists n, s. split; [exact E|]. simpl in H3. lia.
Qed.

(** Two fields announced, the name given twice and no age: one name in
    the mapping. *)
Lemma Map_read_as_dict_names_witness :
  List.NoDup (List.map fst [(lit "name", VStr (lit "B"))])
  /\ (forall name, In name (List.map fst [(lit "name", VStr (lit "B"))]) ->
        In name (List.map spec_name
          [MapEntrySpec 1 (lit "name") String;
           MapEntrySpec 2 (lit "age") UnsignedInt]))
  /\ exists number_entries after_count,
       UnsignedInt_read [2; 1; 1; 65; 1; 1; 66; 7]
         = Ok (number_entries, after_count)
       /\ Z.of_nat (length [(lit "name", VStr (lit "B"))]) <= number_entries.
Proof.
  apply (Map_read_as_dict_names
           [MapEntrySpec 1 (lit "name") String;
            MapEntrySpec 2 (lit "age") UnsignedInt]
           [2; 1; 1; 65; 1; 1; 66; 7] _ [7]).
  reflexivity.
Defined.

(** ** A record cut short *)

(** X15: the bytes of a record cut after some of the fields its count
    announces, each of them a field that its type reads: when the type
    declares no key 0, [read] raises the [KeyError] of [read_key] for the
    key 0, the number the exhausted source reads as. *)
Theorem Map_read_truncated (entry_specs : list (EntrySpec BuiltinType))
  (name : option str) (fields : list wire_field) (number_entries : Z) :
  well_formed (Map entry_specs name) = true ->
  Forall (is_wire_field_of entry_specs) fields ->
  Z.of_nat (length fields) < number_entries ->
  existsb (fun spec => spec_key spec =? 0) entry_specs = false ->
  read (Map entry_specs name)
    (UnsignedInt_to_bytes number_entries ++ concat (List.map field_bytes fields))
  = Raise (KeyError_no_type_information 0).
Proof.
  intros Hwf Hfields Hlt Hzero.
  apply existsb_key_In in Hzero.
  apply well_formed_Map in Hwf as (Hkeys & _ & Hall).
  rewrite read_Map. unfold Map_read_as_dict, Map_read_as_dict_with.
  rewrite UnsignedInt_read_to_bytes, bind_Ok by lia.
  replace (Z.to_nat number_entries)
    with (length fields + S (Z.to_nat number_entries - length fields - 1))%nat
    by lia.
  rewrite Map_read_entries_app.
  rewrite <- (app_nil_r (concat (List.map field_bytes fields))).
  rewrite Map_read_entries_fields, bind_Ok;
    [|exact Hkeys|intros spec Hin; apply (Hall spec Hin)|exact Hfields].
  cbn [Map_read_entries]. unfold UnsignedInt_read at 1.
  cbn [UnsignedInt_read_loop]. rewrite bind_Ok.
  rewrite Map_read_key_with_undeclared by assumption. reflexivity.
Qed.

Lemma Map_read_truncated_witness :
  read Person
    (UnsignedInt_to_bytes 2
     ++ concat (List.map field_bytes
          [(MapEntrySpec 1 (lit "name") String,
            [4; 66; 101; 100; 101], VStr (lit "Bede"))]))
  = Raise (KeyError_no_type_information 0).
Proof.
  apply Map_read_truncated.
  - reflexivity.
  - apply List.Forall_cons; [|apply List.Forall_nil].
    split; [simpl; tauto|intros rest; reflexivity].
  - simpl; lia.
  - reflexivity.
Defined.

(** ** A name the record type does not declare *)

Lemma specs_by_name_of_undeclared entry_specs name :
  existsb (fun spec => bool_decide (spec_name spec = name)) entry_specs = false ->
  specs_by_name_of (specs_with_to_bytes entry_specs) !! name = None.
Proof.
  intros H. apply not_elem_of_dom. rewrite specs_by_name_of_dom.
  unfold declared_names. rewrite elem_of_list_to_set.
  intros Hin. apply list_elem_of_In, in_map_iff in Hin as (spec & E & Hin).
  assert (Hex : existsb (fun spec => bool_decide (spec_name spec = name))
                  entry_specs = true).
  { apply existsb_exists. exists spec. split; [exact Hin|].
    apply bool_decide_eq_true. exact E. }
  congruence.
Qed.

Lemma Map_to_bytes_loop_undeclared entry_specs es name w more :
  List.NoDup (List.map spec_name entry_specs) ->
  Forall (fun e => In e.1 entry_specs
            /\ raised (to_bytes (spec_value_type e.1) e.2) = None) es ->
  existsb (fun spec => bool_decide (spec_name spec = name)) entry_specs = false ->
  forall seen_keys,
  Map_to_bytes_loop (specs_by_name_of (specs_with_to_bytes entry_specs))
    (List.map entry_field es ++ (name, w) :: more) seen_keys
  = Gen (payload es) (Some (KeyError name)).
Proof.
  intros Hnd Hes Hname.
  induction es as [|[spec v] es IH]; intros seen_keys.
  - cbn [List.map app Map_to_bytes_loop].
    rewrite specs_by_name_of_undeclared by exact Hname. reflexivity.
  - apply Forall_cons_1 in Hes as [[Hin Hv] Hes]. simpl in Hin, Hv.
    cbn [List.map app Map_to_bytes_loop entry_field fst snd].
    rewrite specs_by_name_of_In by assumption.
    rewrite then_yield_all, (then_not_raised _ _ Hv), (IH Hes).
    cbn [yielded raised]. rewrite payload_cons. unfold entry_payload.
    cbn [fst snd]. rewrite <- app_assoc. reflexivity.
Qed.

(** X16: a mapping with a name the record type does not declare is
    not refused beforehand: [Map.to_bytes] yields the count, which counts
    that name too, and the fields that come before it, and then raises
    [KeyError] for the name; the check of the missing names is never
    reached. *)
Theorem Map_to_bytes_undeclared_name
  (entry_specs : list (EntrySpec BuiltinType)) (type_name : option str)
  (v : value) (es : list (EntrySpec BuiltinType * value))
  (name : str) (w : value) (more : list (str * value)) :
  List.NoDup (List.map spec_name entry_specs) ->
  Forall (fun e => In e.1 entry_specs
            /\ raised (to_bytes (spec_value_type e.1) e.2) = None) es ->
  existsb (fun spec => bool_decide (spec_name spec = name)) entry_specs = false ->
  records_of v = Ok (List.map entry_field es ++ (name, w) :: more) ->
  to_bytes (Map entry_specs type_name) v
  = Gen (UnsignedInt_to_bytes (Z.of_nat (length es + 1 + length more))
         ++ payload es)
      (Some (KeyError name)).
Proof.
  intros Hnd Hes Hname Hrec.
  rewrite to_bytes_Map. unfold Map_to_bytes, Map_to_bytes_with. rewrite Hrec.
  rewrite then_yield_all, Map_to_bytes_loop_undeclared by assumption.
  cbn [yielded raised]. rewrite length_app, length_map. cbn [length].
  replace (length es + 1 + length more)%nat
    with (length es + S (length more))%nat by lia.
  reflexivity.
Qed.

Lemma Map_to_bytes_undeclared_name_witness :
  to_bytes Person
    (VDict (List.map entry_field
              [(MapEntrySpec 1 (lit "name") String, VStr (lit "Bede"))]
            ++ (lit "height", VInt 180) :: [(lit "age", VInt 20)]))
  = Gen (UnsignedInt_to_bytes (Z.of_nat (1 + 1 + 1))
         ++ payload [(MapEntrySpec 1 (lit "name") String, VStr (lit "Bede"))])
      (Some (KeyError (lit "height"))).
Proof.
  apply (Map_to_bytes_undeclared_name
           [MapEntrySpec 1 (lit "name") String;
            MapEntrySpec 2 (lit "age") UnsignedInt] (Some (lit "Person")) _
           [(MapEntrySpec 1 (lit "name") String, VStr (lit "Bede"))]
           (lit "height") (VInt 180) [(lit "age", VInt 20)]).
  - apply NoDup_ListNoDup. apply (bool_decide_eq_true_1 _). reflexivity.
  - apply List.Forall_cons; [|apply List.Forall_nil].
    split; [simpl; tauto|reflexivity].
  - reflexivity.
  - reflexivity.
Defined.

(** ** Writing what was read *)

Lemma instantiate_not_None t : forall v, v <> VNone -> instantiate t v <> VNone.
Proof.
  induction t as [ | | | | t IH | t IH | entry_specs name IH]
    using BuiltinType_nested_ind; intros v Hv;
    try (destruct v; cbn [instantiate]; congruence).
  - destruct v; cbn [instantiate]; try congruence; apply IH; discriminate.
Qed.

Lemma List_to_bytes_loop_instantiate t values :
  encodes_as_read t ->
  forallb (is_value_of t) values = true ->
  forallb (is_value_of t) (List.map (instantiate t) values) = true
  /\ List_to_bytes_loop (to_bytes t) (List.map (instantiate t) values)
     = List_to_bytes_loop (to_bytes t) values.
Proof.
  intros Ht. induction values as [|v values IH]; intros Hall;
    [split; reflexivity|].
  simpl in Hall. apply andb_prop in Hall as [Hv Hall].
  destruct (Ht v Hv) as [Hv' E]. destruct (IH Hall) as [Hall' Eloop].
  cbn [List.map forallb List_to_bytes_loop].
  rewrite Hv', Hall', E, Eloop. split; reflexivity.
Qed.

Lemma payload_instantiate entry_specs es :
  Forall (fun spec => encodes_as_read (spec_value_type spec)) entry_specs ->
  Forall (is_entry_of entry_specs) es ->
  payload (List.map (fun e => (e.1, instantiate (spec_value_type e.1) e.2)) es)
  = payload es.
Proof.
  intros Hspecs Hes. rewrite Forall_forall in Hspecs.
  induction es as [|[spec v] es IH]; [reflexivity|].
  apply Forall_cons_1 in Hes as [[Hin Hv] Hes]. simpl in Hin, Hv.
  cbn [List.map]. rewrite !payload_cons, (IH Hes).
  unfold entry_payload. cbn [fst snd].
  destruct (Hspecs spec (proj2 (list_elem_of_In _ _) Hin) v Hv) as [_ ->].
  reflexivity.
Qed.

Lemma encodes_as_read_Map entry_specs name :
  well_formed (Map entry_specs name) = true ->
  plain_names (Map entry_specs name) = true ->
  Forall (fun spec => encodes_as_read (spec_value_type spec)) entry_specs ->
  encodes_as_read (Map entry_specs name).
Proof.
  intros Hwf Hplain IH v Hv.
  apply well_formed_Map in Hwf as (_ & Hnames & Hspecs).
  pose proof (plain_names_Map _ _ Hplain) as Hplains.
  pose proof Hv as Hv'.
  apply is_value_of_Map in Hv' as (items & Hrec & Hnd & Hlen & Hall).
  destruct (items_are_entries _ _ Hnames Hnd Hlen Hall) as (es & Hitems & Hes).
  subst items.
  assert (Hdecl : Forall (fun e => In e.1 entry_specs) es)
    by (eapply Forall_impl; [exact Hes|]; intros e [Hin _]; exact Hin).
  rewrite (instantiate_Map_entries entry_specs name v es) by assumption.
  set (es' := List.map
    (fun e => (e.1, instantiate (spec_value_type e.1) e.2)) es).
  assert (Hitems' : List.map entry_item es = List.map entry_field es')
    by (unfold es'; rewrite List.map_map; reflexivity).
  assert (Hes' : Forall (is_entry_of entry_specs) es').
  { unfold es'. rewrite Forall_forall in Hes. rewrite Forall_forall in IH.
    rewrite Forall_forall. intros e' He'.
    apply list_elem_of_In, in_map_iff in He' as (e & <- & He).
    apply list_elem_of_In in He. destruct (Hes e He) as [Hin Hve].
    split; [exact Hin|]. cbn [fst snd].
    apply (IH e.1); [apply list_elem_of_In; exact Hin|exact Hve]. }
  assert (Hraised : forall es, Forall (is_entry_of entry_specs) es ->
    Forall (fun e => In e.1 entry_specs
              /\ raised (to_bytes (spec_value_type e.1) e.2) = None) es).
  { intros l Hl. eapply Forall_impl; [exact Hl|]. intros e [Hin Hve].
    split; [exact Hin|].
    destruct (well_formed_reads_back (spec_value_type e.1)
                (proj2 (Hspecs e.1 Hin)) (proj2 (Hplains e.1 Hin))
                e.2 [] Hve) as [Hr _].
    exact Hr. }
  split.
  - cbn [is_value_of]. rewrite entry_item_name, !length_map.
    rewrite bool_decide_eq_true_2 by (apply NoDup_ListNoDup; exact Hnd).
    rewrite length_map in Hlen. rewrite Hlen, Nat.eqb_refl. cbn [andb].
    apply forallb_forall. intros spec Hspec.
    destruct (Hall spec Hspec) as (w & Hget & Hw).
    apply dict_get_Some_In, in_map_iff in Hget as (e & [= Hname <-] & He).
    rewrite Forall_forall in Hes.
    destruct (Hes e (proj2 (list_elem_of_In _ _) He)) as [Hin _].
    assert (e.1 = spec) by (apply (NoDup_map_eq spec_name entry_specs); assumption).
    subst spec.
    rewrite (dict_get_In _ (spec_name e.1)
               (instantiate (spec_value_type e.1) e.2)).
    + rewrite Forall_forall in IH.
      apply (IH e.1); [apply list_elem_of_In; exact Hin|exact Hw].
    + rewrite entry_item_name. exact Hnd.
    + apply (in_map entry_item) in He. exact He.
  - rewrite !to_bytes_Map. unfold Map_to_bytes, Map_to_bytes_with.
    rewrite Hrec. cbn [records_of]. rewrite Hitems'.
    rewrite !then_yield_all.
    rewrite !Map_to_bytes_loop_payload by auto.
    cbn [yielded raised]. rewrite <- Hitems'.
    unfold names_of. rewrite entry_item_name, !length_map.
    unfold es'. rewrite (payload_instantiate entry_specs) by assumption.
    reflexivity.
Qed.

Lemma well_formed_encodes_as_read t :
  well_formed t = true -> plain_names t = true -> encodes_as_read t.
Proof.
  induction t as [ | | | | t IH | t IH | entry_specs name IH]
    using BuiltinType_nested_ind; intros Hwf Hplain.
  - intros v Hv. destruct v; try discriminate Hv. split; [exact Hv|reflexivity].
  - intros v Hv. destruct v; try discriminate Hv. split; [exact Hv|reflexivity].
  - intros v Hv. destruct v; try discriminate Hv. split; [exact Hv|reflexivity].
  - intros v Hv. destruct v; try discriminate Hv. split; [exact Hv|reflexivity].
  - intros v Hv. destruct v; try discriminate Hv.
    cbn [is_value_of instantiate to_bytes iter_values] in *.
    destruct (List_to_bytes_loop_instantiate t values (IH Hwf Hplain) Hv) as [Hall E].
    rewrite Hall, E, length_map. split; reflexivity.
  - intros v Hv.
    assert (Hcase : v = VNone \/ v <> VNone)
      by (destruct v; [left; reflexivity|right; discriminate..]).
    destruct Hcase as [->|Hsome]; [split; reflexivity|].
    assert (Hv' : is_value_of t v = true)
      by (destruct v; try exact Hv; congruence).
    assert (Ei : instantiate (Optional t) v = instantiate t v)
      by (destruct v; try reflexivity; congruence).
    assert (E : forall w, w <> VNone ->
      to_bytes (Optional t) w
      = (yield_all (Boolean_to_bytes true) ;;; to_bytes t w)
      /\ is_value_of (Optional t) w = is_value_of t w)
      by (intros w Hw; destruct w; try (split; reflexivity); congruence).
    destruct (IH Hwf Hplain v Hv') as [Hv'' Eto].
    pose proof (instantiate_not_None t v Hsome) as Hsome'.
    rewrite Ei. destruct (E _ Hsome') as [-> ->]. destruct (E _ Hsome) as [-> _].
    rewrite Eto. split; [exact Hv''|reflexivity].
  - apply encodes_as_read_Map; [exact Hwf|exact Hplain|].
    apply well_formed_Map in Hwf as (_ & _ & Hall).
    pose proof (plain_names_Map _ _ Hplain) as Hplains.
    rewrite Forall_forall in IH. rewrite Forall_forall. intros spec Hin.
    pose proof Hin as Hin'. apply list_elem_of_In in Hin'.
    apply (IH spec Hin); [apply (Hall spec Hin')|apply (Hplains spec Hin')].
Qed.

(** X17: for every well-formed type with no field name that is
    taken, what is read back of the bytes of a value is again a value of
    the type, and [to_bytes] turns it into the very bytes it was read
    from: decoded values can be passed on as they are. *)
Theorem read_then_to_bytes (t : BuiltinType) (v : value) (rest : stream) :
  well_formed t = true -> plain_names t = true -> is_value_of t v = true ->
  exists v',
    read t (yielded (to_bytes t v) ++ rest) = Ok (v', rest)
    /\ is_value_of t v' = true
    /\ to_bytes t v' = to_bytes t v.
Proof.
  intros Hwf Hplain Hv. exists (instantiate t v).
  destruct (well_formed_reads_back t Hwf Hplain v rest Hv) as (_ & _ & Hread).
  destruct (well_formed_encodes_as_read t Hwf Hplain v Hv) as [Hv' E].
  repeat split; assumption.
Qed.

Lemma read_then_to_bytes_witness :
  exists v',
    read Family
      (yielded (to_bytes Family
                  (VDict [(lit "father", mark); (lit "mother", helen)])) ++ [7])
    = Ok (v', [7])
    /\ is_value_of Family v' = true
    /\ to_bytes Family v'
       = to_bytes Family (VDict [(lit "father", mark); (lit "mother", helen)]).
Proof. apply read_then_to_bytes; reflexivity. Defined.

(** X18: the instances [Map.read] returns carry their own
    [to_bytes]: for a well-formed record type with no field name that is
    taken, and a mapping of it, the instance read back of the mapping's
    bytes, asked for its bytes, gives the bytes it was read from. *)
Theorem UserType_to_bytes_read (entry_specs : list (EntrySpec BuiltinType))
  (name : option str) (v : value) (rest : stream) :
  well_formed (Map entry_specs name) = true ->
  plain_names (Map entry_specs name) = true ->
  is_value_of (Map entry_specs name) v = true ->
  exists _records,
    read (Map entry_specs name)
      (yielded (to_bytes (Map entry_specs name) v) ++ rest)
    = Ok (VUser name _records, rest)
    /\ UserType_to_bytes (to_bytes (Map entry_specs name)) (VUser name _records)
       = to_bytes (Map entry_specs name) v.
Proof.
  intros Hwf Hplain Hv.
  destruct (well_formed_reads_back _ Hwf Hplain v rest Hv) as (_ & _ & Hread).
  destruct (well_formed_encodes_as_read _ Hwf Hplain v Hv) as [_ E].
  assert (Hinst : exists _records,
    instantiate (Map entry_specs name) v = VUser name _records)
    by (destruct v; try discriminate Hv; eexists; reflexivity).
  destruct Hinst as (_records & Hinst). rewrite Hinst in Hread, E.
  exists _records. split; [exact Hread|]. rewrite <- E. reflexivity.
Qed.

Lemma UserType_to_bytes_read_witness :
  exists _records,
    read (Map [MapEntrySpec 1 (lit "name") String;
               MapEntrySpec 2 (lit "age") UnsignedInt] (Some (lit "Person")))
      (yielded (to_bytes
         (Map [MapEntrySpec 1 (lit "name") String;
               MapEntrySpec 2 (lit "age") UnsignedInt] (Some (lit "Person")))
         helen) ++ [])
    = Ok (VUser (Some (lit "Person")) _records, [])
    /\ UserType_to_bytes
         (to_bytes
            (Map [MapEntrySpec 1 (lit "name") String;
                  MapEntrySpec 2 (lit "age") UnsignedInt] (Some (lit "Person"))))
         (VUser (Some (lit "Person")) _records)
       = to_bytes
           (Map [MapEntrySpec 1 (lit "name") String;
                 MapEntrySpec 2 (lit "age") UnsignedInt] (Some (lit "Person")))
           helen.
Proof. apply UserType_to_bytes_read; reflexivity. Defined.

(** ** Equality asked from either side *)

Lemma value_nested_ind (P : value -> Prop) :
  P VNone -> (forall b, P (VBool b)) -> (forall n, P (VInt n)) ->
  (forall text, P (VStr text)) ->
  (forall values, Forall P values -> P (VList values)) ->
  (forall items, Forall (fun kv => P kv.2) items -> P (VDict items)) ->
  (forall name items, Forall (fun kv => P kv.2) items -> P (VUser name items)) ->
  forall v, P v.
Proof.
  intros HN HB HI HS HL HD HU. fix IH 1.
  assert (Hitems : forall items : list (str * value),
            Forall (fun kv => P kv.2) items).
  { intros items. induction items as [|[k v] items IHitems]; constructor.
    - apply IH.
    - exact IHitems. }
  intros [ | b | n | text | values | items | name items];
    [exact HN | apply HB | apply HI | apply HS | apply HL | apply HD, Hitems
    | apply HU, Hitems].
  induction values as [|v values IHvalues]; constructor.
  - apply IH.
  - exact IHvalues.
Qed.

Lemma all2_sym {A} (R S : A -> A -> bool) xs : forall ys,
  (forall x y, In x xs -> In y ys -> R x y = true -> S y x = true) ->
  all2 R xs ys = true -> all2 S ys xs = true.
Proof.
  induction xs as [|x xs IH]; intros [|y ys] Hsym H; try discriminate H;
    [reflexivity|].
  simpl in *. apply andb_prop in H as [Hxy H].
  rewrite (Hsym x y) by auto. apply IH; auto.
Qed.

(** Two mappings with as many names, each name once: when every item
    of the one has its match in the other, so has every item of the
    other in the one. *)
Lemma records_match_sym (R S : value -> value -> bool)
  (ra rb : list (str * value)) :
  List.NoDup (List.map fst ra) -> List.NoDup (List.map fst rb) ->
  (forall kv kw, In kv ra -> In kw rb ->
     R kv.2 kw.2 = true -> S kw.2 kv.2 = true) ->
  length ra = length rb ->
  forallb (fun kv => match dict_get rb kv.1 with
                     | Some w => R kv.2 w
                     | None => false
                     end) ra = true ->
  forallb (fun kw => match dict_get ra kw.1 with
                     | Some v => S kw.2 v
                     | None => false
                     end) rb = true.
Proof.
  intros Hra Hrb Hsym Hlen Hall. rewrite forallb_forall in Hall.
  assert (Hincl : incl (List.map fst ra) (List.map fst rb)).
  { intros k Hk. apply in_map_iff in Hk as ([k' v] & <- & Hin).
    specialize (Hall _ Hin). cbn [fst snd] in *.
    destruct (dict_get rb k') as [w|] eqn:E; [|discriminate].
    apply dict_get_Some_In in E. apply (in_map fst) in E. exact E. }
  assert (Hincl' : incl (List.map fst rb) (List.map fst ra)).
  { apply List.NoDup_length_incl; [assumption| |assumption].
    rewrite !length_map. lia. }
  apply forallb_forall. intros [k w] Hin. cbn [fst snd].
  assert (Hk : In k (List.map fst ra))
    by (apply Hincl'; exact (in_map fst _ _ Hin)).
  apply in_map_iff in Hk as ([k' v] & Hkk & Hin'). simpl in Hkk. subst k'.
  rewrite (dict_get_In _ _ _ Hra Hin').
  pose proof (Hall _ Hin') as Hm. cbn [fst snd] in Hm.
  rewrite (dict_get_In _ _ _ Hrb Hin) in Hm.
  exact (Hsym (k, v) (k, w) Hin' Hin Hm).
Qed.

Lemma valid_value_records v items :
  records_of v = Ok items -> valid_value v = true ->
  List.NoDup (List.map fst items)
  /\ forall kv, In kv items -> valid_value kv.2 = true.
Proof.
  intros Hrec Hv.
  assert (H : bool_decide (NoDup (List.map fst items))
              && forallb (fun kv => valid_value kv.2) items = true)
    by (destruct v; try discriminate Hrec; injection Hrec as <-; exact Hv).
  apply andb_prop in H as [Hnd Hall].
  apply bool_decide_eq_true, NoDup_ListNoDup in Hnd.
  rewrite forallb_forall in Hall. split; assumption.
Qed.

Lemma py_eq_records_sym a b ra rb :
  records_of a = Ok ra -> records_of b = Ok rb ->
  valid_value a = true -> valid_value b = true ->
  (forall kv, In kv ra -> forall w, valid_value kv.2 = true ->
     valid_value w = true -> py_eq kv.2 w = true <-> py_eq w kv.2 = true) ->
  py_eq a b = true <-> py_eq b a = true.
Proof.
  intros Hra Hrb Ha Hb IH.
  destruct (valid_value_records _ _ Hra Ha) as [Hnda Hva].
  destruct (valid_value_records _ _ Hrb Hb) as [Hndb Hvb].
  rewrite (py_eq_records _ _ _ _ Hra Hrb), (py_eq_records _ _ _ _ Hrb Hra).
  rewrite !andb_true_iff, !Nat.eqb_eq.
  split; intros [Hlen Hall]; (split; [symmetry; exact Hlen|]).
  - apply (records_match_sym py_eq py_eq ra rb); try assumption.
    intros kv kw Hin Hin' H. apply (IH kv Hin kw.2); auto.
  - apply (records_match_sym py_eq py_eq rb ra); try assumption.
    intros kw kv Hin' Hin H. apply (IH kv Hin kw.2); auto.
Qed.

Lemma py_eq_sym_iff a : forall b,
  valid_value a = true -> valid_value b = true ->
  py_eq a b = true <-> py_eq b a = true.
Proof.
  induction a as [ | x | m | s | xs IH | ra IH | name ra IH]
    using value_nested_ind; intros b Ha Hb.
  - destruct b; simpl; tauto.
  - destruct b; simpl; try tauto.
    rewrite !bool_decide_eq_true. split; congruence.
  - destruct b; simpl; try tauto.
    rewrite !bool_decide_eq_true. split; congruence.
  - destruct b; simpl; try tauto.
    rewrite !bool_decide_eq_true. split; congruence.
  - destruct b as [ | | | | ys | | ]; simpl; try tauto.
    cbn [valid_value] in Ha, Hb. rewrite forallb_forall in Ha, Hb.
    rewrite Forall_forall in IH.
    split; apply all2_sym; intros x y Hx Hy H.
    + apply (IH x); auto. apply list_elem_of_In. exact Hx.
    + apply (IH y); auto. apply list_elem_of_In. exact Hy.
  - assert (Hcase : (exists rb, records_of b = Ok rb)
                    \/ (py_eq (VDict ra) b = false /\ py_eq b (VDict ra) = false))
      by (destruct b; eauto).
    destruct Hcase as [[rb Hrb]|[-> ->]]; [|tauto].
    apply (py_eq_records_sym _ _ ra rb); try assumption; [reflexivity|].
    rewrite Forall_forall in IH. intros kv Hin w Hkv Hw.
    apply (IH kv); auto. apply list_elem_of_In. exact Hin.
  - assert (Hcase : (exists rb, records_of b = Ok rb)
                    \/ (py_eq (VUser name ra) b = false
                        /\ py_eq b (VUser name ra) = false))
      by (destruct b; eauto).
    destruct Hcase as [[rb Hrb]|[-> ->]]; [|tauto].
    apply (py_eq_records_sym _ _ ra rb); try assumption; [reflexivity|].
    rewrite Forall_forall in IH. intros kv Hin w Hkv Hw.
    apply (IH kv); auto. apply list_elem_of_In. exact Hin.
Qed.

(** X19: [==] gives one answer whichever side is asked: for values
    of any shape, record instances ([UserType.__eq__]) and dictionaries
    among them and inside them, [a == b] is [True] exactly when [b == a]
    is. *)
Theorem py_eq_symmetric (a b : value) :
  valid_value a = true -> valid_value b = true -> py_eq a b = py_eq b a.
Proof.
  intros Ha Hb. pose proof (py_eq_sym_iff a b Ha Hb) as H.
  destruct (py_eq a b), (py_eq b a); try reflexivity.
  - symmetry. apply H. reflexivity.
  - apply H. reflexivity.
Qed.

Lemma py_eq_symmetric_witness :
  py_eq (VUser (Some (lit "Person"))
           [(lit "name", VStr (lit "Helen")); (lit "age", VInt 62)])
        (VDict [(lit "age", VInt 62); (lit "name", VStr (lit "Helen"))])
  = py_eq (VDict [(lit "age", VInt 62); (lit "name", VStr (lit "Helen"))])
          (VUser (Some (lit "Person"))
             [(lit "name", VStr (lit "Helen")); (lit "age", VInt 62)]).
Proof. apply py_eq_symmetric; reflexivity. Defined.

(** ** Equality of type objects *)

Lemma entry_specs_eq_shape (entry_specs : list (EntrySpec BuiltinType)) :
  Forall (fun spec => forall other,
            type_eq (spec_value_type spec) other = Ok true
            <-> shape (spec_value_type spec) = shape other) entry_specs ->
  forall others,
  entry_specs_eq_with
    (List.map (fun spec =>
       (spec_key spec, (spec_name spec, type_eq (spec_value_type spec))))
       entry_specs) others = Ok true
  <-> List.map (fun spec =>
        MapEntrySpec (spec_key spec) (spec_name spec)
          (shape (spec_value_type spec))) entry_specs
      = List.map (fun spec =>
          MapEntrySpec (spec_key spec) (spec_name spec)
            (shape (spec_value_type spec))) others.
Proof.
  induction entry_specs as [|[k n t] entry_specs IHspecs];
    intros IH [|[k' n' t'] others]; cbn [List.map entry_specs_eq_with];
    try (split; [discriminate|discriminate]); [tauto|].
  apply Forall_cons_1 in IH as [Ht IH]. cbn [spec_key spec_name spec_value_type] in *.
  destruct (decide (k = k')) as [<-|Hk].
  2: { rewrite bool_decide_eq_false_2 by exact Hk. cbn [negb].
       split; [discriminate|]. intros [= E _]. contradiction. }
  rewrite bool_decide_eq_true_2 by reflexivity. cbn [negb].
  destruct (decide (n = n')) as [<-|Hn].
  2: { rewrite bool_decide_eq_false_2 by exact Hn. cbn [negb].
       split; [discriminate|]. intros [= E _]. contradiction. }
  rewrite bool_decide_eq_true_2 by reflexivity. cbn [negb].
  specialize (Ht t'). specialize (IHspecs IH others).
  destruct (type_eq t t') as [[|]|e]; cbn [mbind result_bind].
  - rewrite IHspecs. split.
    + intros ->. f_equal. f_equal. apply Ht. reflexivity.
    + intros [= _ E]. exact E.
  - split; [discriminate|]. intros [= E _]. apply Ht in E. discriminate E.
  - split; [discriminate|]. intros [= E _]. apply Ht in E. discriminate E.
Qed.

Lemma type_eq_shape_iff a : forall b,
  type_eq a b = Ok true <-> shape a = shape b.
Proof.
  induction a as [ | | | | a IH | a IH | entry_specs name IH]
    using BuiltinType_nested_ind; intros b.
  - destruct b; cbn; split; intros H; try discriminate H; reflexivity.
  - destruct b; cbn; split; intros H; try discriminate H; reflexivity.
  - destruct b; cbn; split; intros H; try discriminate H; reflexivity.
  - destruct b; cbn; split; intros H; try discriminate H; reflexivity.
  - destruct b; cbn [type_eq shape];
      try (split; intros H; discriminate H);
      rewrite IH; split; [intros ->; reflexivity|intros [= E]; exact E
                         |intros ->; reflexivity|intros [= E]; exact E].
  - destruct b; cbn [type_eq shape];
      try (split; intros H; discriminate H);
      rewrite IH; split; [intros ->; reflexivity|intros [= E]; exact E
                         |intros ->; reflexivity|intros [= E]; exact E].
  - destruct b as [ | | | | b | b | other_specs other_name];
      cbn [type_eq shape]; try (split; intros H; discriminate H).
    rewrite (entry_specs_eq_shape entry_specs IH other_specs).
    split; [intros ->; reflexivity|intros [= E]; exact E].
Qed.

(** A type object asked whether it is equal to itself says so, as
    Python takes it to be without asking. *)
Lemma type_eq_itself (t : BuiltinType) : type_eq t t = Ok true.
Proof. apply type_eq_shape_iff. reflexivity. Qed.

(** X20: [==] between type objects is [True] exactly for two types
    of one shape: [List.__eq__] and [Optional.__eq__] look at the inner
    type only, so that a list and an optional of equal types are equal,
    and [Map.__eq__] looks at keys, names and value types, in their
    order, but not at the name of the record type. *)
Theorem type_eq_shape (a b : BuiltinType) :
  type_eq a b = Ok true <-> shape a = shape b.
Proof. apply type_eq_shape_iff. Qed.

(** A list of strings and an optional string are equal type objects. *)
Lemma type_eq_shape_witness :
  type_eq (List String) (Optional String) = Ok true.
Proof. apply type_eq_shape. reflexivity. Defined.

Lemma entry_specs_eq_sym (entry_specs : list (EntrySpec BuiltinType)) :
  Forall (fun spec => forall other,
            type_eq (spec_value_type spec) other
            = type_eq other (spec_value_type spec)) entry_specs ->
  forall others,
  entry_specs_eq_with
    (List.map (fun spec =>
       (spec_key spec, (spec_name spec, type_eq (spec_value_type spec))))
       entry_specs) others
  = entry_specs_eq_with
      (List.map (fun spec =>
         (spec_key spec, (spec_name spec, type_eq (spec_value_type spec))))
         others) entry_specs.
Proof.
  induction entry_specs as [|[k n t] entry_specs IHspecs];
    intros IH [|[k' n' t'] others]; cbn [List.map entry_specs_eq_with];
    try reflexivity.
  apply Forall_cons_1 in IH as [Ht IH]. cbn [spec_key spec_name spec_value_type] in *.
  destruct (decide (k = k')) as [<-|Hk].
  2: { rewrite (bool_decide_eq_false_2 (k = k')),
         (bool_decide_eq_false_2 (k' = k)) by congruence.
       reflexivity. }
  rewrite !bool_decide_eq_true_2 by reflexivity. cbn [negb].
  destruct (decide (n = n')) as [<-|Hn].
  2: { rewrite (bool_decide_eq_false_2 (n = n')),
         (bool_decide_eq_false_2 (n' = n)) by congruence.
       reflexivity. }
  rewrite !bool_decide_eq_true_2 by reflexivity. cbn [negb].
  rewrite (Ht t'), (IHspecs IH others). reflexivity.
Qed.

(** X21: [==] between type objects does the same whichever operand
    is on the left: the same answer, or [AttributeError] on both sides. *)
Theorem type_eq_symmetric (a b : BuiltinType) : type_eq a b = type_eq b a.
Proof.
  revert b.
  induction a as [ | | | | a IH | a IH | entry_specs name IH]
    using BuiltinType_nested_ind; intros b;
    try (destruct b; reflexivity).
  - destruct b; try reflexivity; cbn [type_eq]; apply IH.
  - destruct b; try reflexivity; cbn [type_eq]; apply IH.
  - destruct b as [ | | | | b | b | other_specs other_name]; try reflexivity.
    cbn [type_eq]. apply entry_specs_eq_sym, IH.
Qed.

(** ** The schema resolver: type descriptions *)

Lemma HIGHER_ORDER_other name :
  name <> lit "list" -> name <> lit "optional" -> HIGHER_ORDER !! name = None.
Proof.
  intros Hl Ho. unfold HIGHER_ORDER. cbn [list_to_map foldr fst snd uncurry].
  rewrite !lookup_insert_ne by congruence. apply lookup_empty.
Qed.

Lemma compute_type_of_names_cons Map_from_file outer_type_name
  inner_type_names user_types :
  inner_type_names <> [] ->
  compute_type_of_names Map_from_file (outer_type_name :: inner_type_names)
    user_types
  = match HIGHER_ORDER !! outer_type_name with
    | None => Raise (KeyError outer_type_name)
    | Some outer_type =>
        inner_type ←
          compute_type_of_names Map_from_file inner_type_names user_types;
        Ok (outer_type inner_type)
    end.
Proof. destruct inner_type_names; [congruence|reflexivity]. Qed.

(** X22: a type description made of the words [list] and
    [optional], in any number and order, and one last word, is the type
    of the last word with the wrappers around it, the first word
    outermost; it raises what the last word alone raises. *)
Theorem compute_type_nested (Map_from_file : str -> result BuiltinType)
  (wrappers : list str) (value_type : str) (user_types : gmap str str) :
  Forall (fun name => name = lit "list" \/ name = lit "optional") wrappers ->
  compute_type Map_from_file (Names (wrappers ++ [value_type])) user_types
  = (t ← compute_type Map_from_file (Name value_type) user_types;
     Ok (foldr (fun name t =>
                  if decide (name = lit "list") then List t else Optional t)
           t wrappers)).
Proof.
  intros Hwrappers. cbn [compute_type].
  induction wrappers as [|name wrappers IH].
  - cbn [app compute_type_of_names foldr].
    destruct (compute_type_of_name _ _ _); reflexivity.
  - apply Forall_cons_1 in Hwrappers as [Hname Hwrappers].
    cbn [app]. rewrite compute_type_of_names_cons
      by (destruct wrappers; discriminate).
    rewrite (IH Hwrappers). cbn [foldr].
    destruct (compute_type_of_name _ _ _); destruct Hname as [->| ->];
      reflexivity.
Qed.

Lemma compute_type_nested_witness :
  compute_type (fun _ => Raise NotModelled)
    (Names ([lit "list"; lit "optional"; lit "list"] ++ [lit "sint"])) ∅
  = (t ← compute_type (fun _ => Raise NotModelled) (Name (lit "sint")) ∅;
     Ok (foldr (fun name t =>
                  if decide (name = lit "list") then List t else Optional t)
           t [lit "list"; lit "optional"; lit "list"])).
Proof.
  apply compute_type_nested.
  repeat (apply List.Forall_cons; [(left; reflexivity) || (right; reflexivity)|]).
  apply List.Forall_nil.
Defined.

(** X23: in a type description of several words, the first word
    that is neither [list] nor [optional], when it is not the last word,
    ends [compute_type] with the [KeyError] of the lookup in
    [HIGHER_ORDER], whatever the words after it are: [string list] is no
    [ValueError] that a type was not found. *)
Theorem compute_type_KeyError (Map_from_file : str -> result BuiltinType)
  (wrappers : list str) (name : str) (rest : list str)
  (user_types : gmap str str) :
  Forall (fun name => name = lit "list" \/ name = lit "optional") wrappers ->
  name <> lit "list" -> name <> lit "optional" -> rest <> [] ->
  compute_type Map_from_file (Names (wrappers ++ name :: rest)) user_types
  = Raise (KeyError name).
Proof.
  intros Hwrappers Hl Ho Hrest. cbn [compute_type].
  induction wrappers as [|wrapper wrappers IH].
  - cbn [app]. rewrite compute_type_of_names_cons by exact Hrest.
    rewrite HIGHER_ORDER_other by assumption. reflexivity.
  - apply Forall_cons_1 in Hwrappers as [Hname Hwrappers].
    cbn [app]. rewrite compute_type_of_names_cons
      by (destruct wrappers; discriminate).
    rewrite (IH Hwrappers). destruct Hname as [->| ->]; reflexivity.
Qed.

Lemma compute_type_KeyError_witness :
  compute_type (fun _ => Raise NotModelled)
    (Names ([lit "list"] ++ lit "string" :: [lit "int"])) ∅
  = Raise (KeyError (lit "string")).
Proof.
  apply compute_type_KeyError.
  - apply List.Forall_cons; [left; reflexivity|apply List.Forall_nil].
  - discriminate.
  - discriminate.
  - discriminate.
Defined.

(** ** The schema resolver: lines *)

Lemma lstrip_of_all blank text :
  forallb blank text = true -> lstrip_of blank text = [].
Proof.
  induction text as [|c text IH]; [reflexivity|].
  simpl. intros H. apply andb_prop in H as [-> H]. exact (IH H).
Qed.

Lemma map_info_from_line_blank directory info line :
  forallb is_space line = true -> map_info_from_line directory info line = Ok info.
Proof.
  intros H. destruct info as [user_types entries].
  unfold map_info_from_line, strip, strip_of.
  rewrite (lstrip_of_all is_space line) by exact H. reflexivity.
Qed.

Lemma map_info_loop_app directory lines : forall lines' info,
  map_info_loop directory (lines ++ lines') info
  = (info ← map_info_loop directory lines info;
     map_info_loop directory lines' info).
Proof.
  induction lines as [|line lines IH]; intros lines' info; [reflexivity|].
  cbn [app map_info_loop].
  destruct (map_info_from_line directory info line) as [info'|e];
    [|reflexivity].
  rewrite !bind_Ok. apply IH.
Qed.

(** X24: a line of blanks only, wherever it stands among the lines,
    changes nothing: [Map.from_lines] gives the type, or raises the
    exception, it gives or raises without the line. *)
Theorem Map_from_lines_blank_line (Map_from_file : str -> result BuiltinType)
  (before : list str) (line : str) (after : list str) (directory : str)
  (type_name : option str) :
  forallb is_space line = true ->
  Map_from_lines Map_from_file (before ++ line :: after) directory type_name
  = Map_from_lines Map_from_file (before ++ after) directory type_name.
Proof.
  intros Hblank. unfold Map_from_lines, map_info_from_lines.
  rewrite !map_info_loop_app.
  destruct (map_info_loop directory before (∅, [])) as [info|e];
    [|reflexivity].
  rewrite !bind_Ok. cbn [map_info_loop].
  rewrite map_info_from_line_blank by exact Hblank. reflexivity.
Qed.

Lemma Map_from_lines_blank_line_witness :
  Map_from_lines (fun _ => Raise NotModelled)
    ([lit "1. name: string"] ++ [32; 9; 10] :: [lit "2 age int"])
    (lit ".") None
  = Map_from_lines (fun _ => Raise NotModelled)
      ([lit "1. name: string"] ++ [lit "2 age int"]) (lit ".") None.
Proof. apply Map_from_lines_blank_line. reflexivity. Defined.














(** ** What a reader can return *)

Lemma is_scalar_value_intro c :
  0 <= c <= 0x10FFFF -> c < 0xD800 \/ 0xDFFF < c -> is_scalar_value c = true.
Proof.
  intros Hrange Hsur. unfold is_scalar_value, is_surrogate.
  destruct (Z.leb_spec 0 c), (Z.leb_spec c 0x10FFFF),
    (Z.leb_spec 0xD800 c), (Z.leb_spec c 0xDFFF); try reflexivity; lia.
Qed.

Lemma is_continuation_bounds b : is_continuation b = true -> 0x80 <= b <= 0xBF.
Proof.
  unfold is_continuation. intros H. apply andb_prop in H as [H1 H2].
  apply Z.leb_le in H1, H2. lia.
Qed.

(** The strict decoder gives scalar values only. *)
Lemma bytes_decode_scalar (n : nat) : forall encoded text,
  (length encoded <= n)%nat -> bytes_decode encoded = Ok text ->
  forallb is_scalar_value text = true.
Proof.
  induction n as [|n IH]; intros encoded text Hlen H.
  - destruct encoded; [|simpl in Hlen; lia]. injection H as <-. reflexivity.
  - destruct encoded as [|b0 bs1]; [injection H as <-; reflexivity|].
    rewrite bytes_decode_cons in H. simpl in Hlen.
    destruct ((0 <=? b0) && (b0 <? 0x80)) eqn:H1.
    { destruct (bytes_decode bs1) as [text'|] eqn:E; [|discriminate H].
      injection H as <-. cbn [forallb].
      rewrite (IH bs1 text') by (try assumption; lia).
      apply andb_prop in H1 as [Ha Hb]. apply Z.leb_le in Ha.
      apply Z.ltb_lt in Hb. rewrite is_scalar_value_intro by lia. reflexivity. }
    destruct ((0xC2 <=? b0) && (b0 <=? 0xDF)) eqn:H2.
    { destruct bs1 as [|b1 bs2]; [discriminate H|].
      destruct (is_continuation b1) eqn:Hc1; [|discriminate H].
      destruct (bytes_decode bs2) as [text'|] eqn:E; [|discriminate H].
      injection H as <-. cbn [forallb]. simpl in Hlen.
      rewrite (IH bs2 text') by (try assumption; lia).
      apply andb_prop in H2 as [Ha Hb]. apply Z.leb_le in Ha, Hb.
      apply is_continuation_bounds in Hc1.
      rewrite is_scalar_value_intro by lia. reflexivity. }
    destruct ((0xE0 <=? b0) && (b0 <=? 0xEF)) eqn:H3.
    { destruct bs1 as [|b1 [|b2 bs3]]; try discriminate H.
      cbv zeta in H.
      destruct (is_continuation b1 && is_continuation b2 && _ && _) eqn:Hc;
        [|discriminate H].
      destruct (bytes_decode bs3) as [text'|] eqn:E; [|discriminate H].
      injection H as <-. cbn [forallb]. simpl in Hlen.
      rewrite (IH bs3 text') by (try assumption; lia).
      apply andb_prop in Hc as [Hc Hs]. apply andb_prop in Hc as [Hc Hlow].
      apply andb_prop in Hc as [Hc1 Hc2].
      apply andb_prop in H3 as [Ha Hb]. apply Z.leb_le in Ha, Hb, Hlow.
      apply is_continuation_bounds in Hc1, Hc2.
      unfold is_surrogate in Hs.
      rewrite is_scalar_value_intro; [reflexivity|lia|].
      destruct (Z.leb_spec 0xD800
                  ((b0 - 0xE0) * 4096 + (b1 - 0x80) * 64 + (b2 - 0x80))),
               (Z.leb_spec
                  ((b0 - 0xE0) * 4096 + (b1 - 0x80) * 64 + (b2 - 0x80))
                  0xDFFF); try discriminate Hs; lia. }
    destruct ((0xF0 <=? b0) && (b0 <=? 0xF4)) eqn:H4; [|discriminate H].
    destruct bs1 as [|b1 [|b2 [|b3 bs4]]]; try discriminate H.
    cbv zeta in H.
    destruct (is_continuation b1 && is_continuation b2 && is_continuation b3
              && _ && _) eqn:Hc; [|discriminate H].
    destruct (bytes_decode bs4) as [text'|] eqn:E; [|discriminate H].
    injection H as <-. cbn [forallb]. simpl in Hlen.
    rewrite (IH bs4 text') by (try assumption; lia).
    apply andb_prop in Hc as [Hc Hhigh]. apply andb_prop in Hc as [Hc Hlow].
    apply Z.leb_le in Hhigh, Hlow.
    rewrite is_scalar_value_intro by lia. reflexivity.
Qed.

Lemma String_read_fits bytestream text rest :
  String_read bytestream = Ok (text, rest) ->
  forallb is_scalar_value text = true.
Proof.
  unfold String_read. intros H. read_step H n s E.
  destruct (String_read_n_bytes (Z.to_nat n) s) as [g s'].
  destruct (bytes g) as [encoded|]; [rewrite bind_Ok in H|discriminate H].
  destruct (bytes_decode encoded) as [text'|] eqn:Hdecode;
    [rewrite bind_Ok in H|discriminate H].
  injection H as <- _.
  exact (bytes_decode_scalar (length encoded) encoded text' (le_n _) Hdecode).
Qed.

Lemma List_read_loop_fits t length : forall bytestream values rest,
  (forall bytestream v rest,
     read t bytestream = Ok (v, rest) -> fits t v = true) ->
  List_read_loop (read t) length bytestream = Ok (values, rest) ->
  forallb (fits t) values = true.
Proof.
  induction length as [|length IH]; intros bytestream values rest Ht H.
  - injection H as <- _. reflexivity.
  - cbn [List_read_loop] in H. read_step H v s E. read_step H vs s' E'.
    injection H as <- _. cbn [forallb].
    rewrite (Ht _ _ _ E), (IH _ _ _ Ht E'). reflexivity.
Qed.

Lemma Map_read_key_with_fits entry_specs key bytestream kv rest :
  Forall (fun spec => forall bytestream v rest,
            read (spec_value_type spec) bytestream = Ok (v, rest) ->
            fits (spec_value_type spec) v = true) entry_specs ->
  Map_read_key_with (specs_with_read entry_specs) key bytestream
    = Ok (kv, rest) ->
  is_field_of entry_specs kv.
Proof.
  induction entry_specs as [|spec entry_specs IH]; intros Hspecs H;
    [discriminate H|].
  apply Forall_cons_1 in Hspecs as [Hspec Hspecs].
  cbn [specs_with_read List.map Map_read_key_with] in H.
  destruct (decide (spec_key spec = key)).
  - read_step H v s E. injection H as <- _.
    exists spec. repeat split; [left; reflexivity|exact (Hspec _ _ _ E)].
  - destruct (IH Hspecs H) as (spec' & Hin & Hname & Hfits).
    exists spec'. repeat split; [right; exact Hin|assumption..].
Qed.

Lemma dict_set_Forall (P : str * value -> Prop) d name v :
  Forall P d -> P (name, v) -> Forall P (dict_set d name v).
Proof.
  intros Hd Hv. induction d as [|[k w] d IH].
  - constructor; [exact Hv|constructor].
  - apply Forall_cons_1 in Hd as [Hkw Hd]. cbn [dict_set].
    destruct (decide (k = name)) as [->|].
    + constructor; assumption.
    + constructor; [exact Hkw|exact (IH Hd)].
Qed.

Lemma Map_read_entries_fits entry_specs number_entries :
  Forall (fun spec => forall bytestream v rest,
            read (spec_value_type spec) bytestream = Ok (v, rest) ->
            fits (spec_value_type spec) v = true) entry_specs ->
  forall bytestream map_data d rest,
  Forall (is_field_of entry_specs) map_data ->
  Map_read_entries (specs_with_read entry_specs) number_entries bytestream
    map_data = Ok (d, rest) ->
  Forall (is_field_of entry_specs) d.
Proof.
  intros Hspecs.
  induction number_entries as [|number_entries IH];
    intros bytestream map_data d rest Hdata H.
  - injection H as <- _. exact Hdata.
  - cbn [Map_read_entries] in H.
    read_step H key s E. read_step H kv s' E'.
    apply (IH _ _ _ _ (dict_set_Forall _ _ _ _ Hdata
             (Map_read_key_with_fits _ _ _ (kv.1, kv.2) _ Hspecs
                ltac:(destruct kv; exact E'))) H).
Qed.

(** X26: whatever the bytes, what [read] returns, for a type with
    no field name that is taken, has the shape of the type: a
    non-negative number for an [UnsignedInt], text without surrogates for
    a [String], a list of values of the inner type, a value or [None],
    and for a record type an instance of it whose names are declared,
    each once, with a value of the shape of a field of that name. *)
Theorem read_fits (t : BuiltinType) : plain_names t = true ->
  forall (bytestream : stream) (v : value) (rest : stream),
  read t bytestream = Ok (v, rest) -> fits t v = true.
Proof.
  induction t as [ | | | | t IH | t IH | entry_specs name IH]
    using BuiltinType_nested_ind; intros Hplain bytestream v rest H;
    cbn [read] in H.
  - read_step H n s E. injection H as <- _. cbn [fits]. apply Z.leb_le.
    unfold UnsignedInt_read in E. injection E as E.
    pose proof (UnsignedInt_read_loop_nonneg bytestream 0 0) as Hn.
    rewrite E in Hn. apply Hn; lia.
  - read_step H n s E. injection H as <- _. reflexivity.
  - read_step H b s E. injection H as <- _. reflexivity.
  - read_step H text s E. injection H as <- _. cbn [fits].
    exact (String_read_fits _ _ _ E).
  - read_step H n s E. read_step H values s' E'. injection H as <- _.
    cbn [fits]. exact (List_read_loop_fits _ _ _ _ _ (IH Hplain) E').
  - read_step H has_value s E. destruct has_value.
    + apply (IH Hplain) in H. destruct v; try exact H. reflexivity.
    + injection H as <- _. reflexivity.
  - read_step H map_data s E.
    destruct (Map_call name map_data) as [instance|] eqn:Ecall;
      [rewrite bind_Ok in H|discriminate H].
    injection H as <- _. apply Map_call_Ok in Ecall as ->.
    pose proof (plain_names_Map _ _ Hplain) as Hplains.
    assert (IH' : Forall (fun spec => forall bytestream v rest,
              read (spec_value_type spec) bytestream = Ok (v, rest) ->
              fits (spec_value_type spec) v = true) entry_specs).
    { rewrite Forall_forall in IH. rewrite Forall_forall. intros spec Hin.
      apply (IH spec Hin). apply (Hplains spec), list_elem_of_In, Hin. }
    fold (specs_with_read entry_specs) in E.
    unfold Map_read_as_dict_with in E. read_step E n s' E'.
    pose proof (Map_read_entries_names entry_specs _ _ [] _ _
                  (List.NoDup_nil _) (incl_nil_l _) E) as (Hnd & _).
    apply (Map_read_entries_fits _ _ IH' _ _ _ _ (List.Forall_nil _)) in E.
    cbn [fits].
    rewrite !bool_decide_eq_true_2
      by (try reflexivity; apply NoDup_ListNoDup; exact Hnd).
    cbn [andb]. apply forallb_forall. intros kv Hkv.
    rewrite Forall_forall in E.
    destruct (E kv (proj2 (list_elem_of_In _ _) Hkv))
      as (spec & Hin & Hname & Hfits).
    apply existsb_exists.
    exists (spec_name spec, fits (spec_value_type spec)). split.
    + apply (in_map (fun spec => (spec_name spec, fits (spec_value_type spec)))).
      exact Hin.
    + cbn [fst snd]. rewrite bool_decide_eq_true_2 by exact Hname. exact Hfits.
Qed.

(** A person whose count announces one field, the name: no age. *)
Lemma read_fits_witness :
  fits Person
    (VUser (Some (lit "Person")) [(lit "name", VStr (lit "Bede"))]) = true.
Proof.
  apply (read_fits Person eq_refl
           [1; 1; 4; 66; 101; 100; 101; 2; 20] _ [2; 20]).
  reflexivity.
Defined.

(** ** Encodings end where they end *)

(** X27: the encodings of a well-formed type with no field name
    that is taken are self-delimiting: when the bytes of one value
    followed by anything are the bytes of another followed by anything,
    both are read back as one value, and what follows is the same. *)
Theorem to_bytes_self_delimiting (t : BuiltinType) (v1 v2 : value)
  (rest1 rest2 : stream) :
  well_formed t = true -> plain_names t = true ->
  is_value_of t v1 = true -> is_value_of t v2 = true ->
  yielded (to_bytes t v1) ++ rest1 = yielded (to_bytes t v2) ++ rest2 ->
  rest1 = rest2
  /\ exists v, read t (yielded (to_bytes t v1) ++ rest1) = Ok (v, rest1)
               /\ read t (yielded (to_bytes t v2) ++ rest2) = Ok (v, rest2).
Proof.
  intros Hwf Hplain Hv1 Hv2 E.
  destruct (well_formed_reads_back t Hwf Hplain v1 rest1 Hv1) as (_ & _ & H1).
  destruct (well_formed_reads_back t Hwf Hplain v2 rest2 Hv2) as (_ & _ & H2).
  pose proof H1 as H1'. rewrite E, H2 in H1'. injection H1' as Hv Hrest.
  split; [symmetry; exact Hrest|].
  exists (instantiate t v1). split; [exact H1|]. rewrite H2, Hv. reflexivity.
Qed.

(** The same person, as a dictionary with its fields in one order and as
    an instance. *)
Lemma to_bytes_self_delimiting_witness :
  [9] = [9]
  /\ exists v,
       read Person (yielded (to_bytes Person helen) ++ [9]) = Ok (v, [9])
       /\ read Person
            (yielded (to_bytes Person
               (VUser None [(lit "name", VStr (lit "Helen"));
                            (lit "age", VInt 62)])) ++ [9])
          = Ok (v, [9]).
Proof. apply to_bytes_self_delimiting; reflexivity. Defined.

(** ** Entry specs that share a key or a name *)

(** X28: [read_key] reads with the first entry spec that has the
    key: the entry specs after it, one with the same key among them or
    not, are not looked at. *)
Theorem Map_read_key_first (before : list (EntrySpec BuiltinType))
  (spec : EntrySpec BuiltinType) (after : list (EntrySpec BuiltinType))
  (bytestream : stream) :
  existsb (fun s => spec_key s =? spec_key spec) before = false ->
  Map_read_key (before ++ spec :: after) (spec_key spec) bytestream
  = ('(v, bytestream) ← read (spec_value_type spec) bytestream;
     Ok ((spec_name spec, v), bytestream)).
Proof.
  intros Hbefore. unfold Map_read_key.
  induction before as [|s before IH].
  - cbn [app specs_with_read List.map Map_read_key_with].
    rewrite decide_True by reflexivity. reflexivity.
  - cbn [existsb] in Hbefore. apply orb_false_elim in Hbefore as [Hs Hbefore].
    apply Z.eqb_neq in Hs.
    cbn [app specs_with_read List.map Map_read_key_with].
    rewrite decide_False by exact Hs. exact (IH Hbefore).
Qed.

Lemma Map_read_key_first_witness :
  Map_read_key
    ([MapEntrySpec 1 (lit "name") String]
     ++ MapEntrySpec 2 (lit "age") UnsignedInt
        :: [MapEntrySpec 2 (lit "aged") String])
    2 [20; 7]
  = ('(v, bytestream) ← read UnsignedInt [20; 7];
     Ok ((lit "age", v), bytestream)).
Proof.
  apply (Map_read_key_first [MapEntrySpec 1 (lit "name") String]
           (MapEntrySpec 2 (lit "age") UnsignedInt)).
  reflexivity.
Defined.

Lemma dict_get_app_None {A} (d d' : list (str * A)) name :
  dict_get d name = None -> dict_get (d ++ d') name = dict_get d' name.
Proof.
  induction d as [|[k v] d IH]; [reflexivity|]. cbn [app dict_get].
  destruct (decide (k = name)); [discriminate|exact IH].
Qed.

Lemma specs_by_name_of_last (before : list (EntrySpec BuiltinType)) spec after :
  existsb (fun s => bool_decide (spec_name s = spec_name spec)) after = false ->
  specs_by_name_of (specs_with_to_bytes (before ++ spec :: after))
    !! spec_name spec
  = Some (spec_key spec, to_bytes (spec_value_type spec)).
Proof.
  intros Hafter. rewrite specs_by_name_of_lookup.
  unfold specs_with_to_bytes. rewrite List.map_app, rev_app_distr.
  cbn [List.map rev]. rewrite <- app_assoc. cbn [app].
  rewrite dict_get_app_None.
  - cbn [dict_get]. rewrite decide_True by reflexivity. reflexivity.
  - apply dict_get_None. rewrite List.map_rev, List.map_map. cbn [fst].
    intros Hin. apply in_rev, in_map_iff in Hin as (s & Hname & Hin).
    assert (Hex : existsb (fun s => bool_decide (spec_name s = spec_name spec))
                    after = true).
    { apply existsb_exists. exists s. split; [exact Hin|].
      apply bool_decide_eq_true. exact Hname. }
    congruence.
Qed.

(** X29: [Map.to_bytes] writes a field with the last entry spec
    that has its name, the dictionary of the specs by name keeping the
    last of them: the bytes of a mapping begin with the count, the key of
    that entry spec and the value as its type writes it. *)
Theorem Map_to_bytes_last_spec (before : list (EntrySpec BuiltinType))
  (spec : EntrySpec BuiltinType) (after : list (EntrySpec BuiltinType))
  (type_name : option str) (v inner_value : value)
  (more : list (str * value)) :
  existsb (fun s => bool_decide (spec_name s = spec_name spec)) after = false ->
  records_of v = Ok ((spec_name spec, inner_value) :: more) ->
  raised (to_bytes (spec_value_type spec) inner_value) = None ->
  exists tail,
    yielded (to_bytes (Map (before ++ spec :: after) type_name) v)
    = UnsignedInt_to_bytes (Z.of_nat (S (length more)))
      ++ UnsignedInt_to_bytes (spec_key spec)
      ++ yielded (to_bytes (spec_value_type spec) inner_value)
      ++ tail.
Proof.
  intros Hafter Hrec Hvalue.
  rewrite to_bytes_Map. unfold Map_to_bytes, Map_to_bytes_with. rewrite Hrec.
  cbn [Map_to_bytes_loop length].
  rewrite specs_by_name_of_last by exact Hafter.
  rewrite !then_yield_all, (then_not_raised _ _ Hvalue). cbn [yielded].
  eexists. reflexivity.
Qed.

Lemma Map_to_bytes_last_spec_witness :
  exists tail,
    yielded (to_bytes
      (Map ([MapEntrySpec 1 (lit "age") String]
            ++ MapEntrySpec 2 (lit "age") UnsignedInt :: []) None)
      (VDict [(lit "age", VInt 20)]))
    = UnsignedInt_to_bytes (Z.of_nat (S (length (@nil (str * value)))))
      ++ UnsignedInt_to_bytes 2
      ++ yielded (to_bytes UnsignedInt (VInt 20))
      ++ tail.
Proof.
  apply (Map_to_bytes_last_spec [MapEntrySpec 1 (lit "age") String]
           (MapEntrySpec 2 (lit "age") UnsignedInt) [] None
           (VDict [(lit "age", VInt 20)]) (VInt 20) []);
    reflexivity.
Defined.
